(** * IDB_lib: the IndexedDB manager, embedded and verified

    The development follows the TypeScript sources:

    - [utils/helpers.ts]: [normalizeId], [isValidId], [generateNextId];
    - [core/IndexedDBManager.ts]: [executeTransaction] with its
      [checkCompletion] join, and the store operations built on it.

    JavaScript strings are sequences of Latin-1 code units, objects are
    finite maps from property names to values, and the [number] type with
    its conversions to and from text is the interface [JsRuntime] of the
    host.  The host storage engine is a deterministic model: a map from
    store names to keyed records, with a schedule of commit decisions. *)

From Stdlib Require Import ZArith Ascii.
From Stdlib Require DecimalString DecimalPos DecimalN.
From stdpp Require Import base strings list gmap sorting.

Local Open Scope Z_scope.

(** ** Strings *)

Module Str.

(** [String.prototype.trim] strips the ECMAScript white space and line
    terminators; the ones below 256 are listed. *)
Definition isWhiteSpace (c : ascii) : bool :=
  match c with
  | "009" | "010" | "011" | "012" | "013" | " " | "160" => true
  | _ => false
  end%char.

Fixpoint trimStart (s : string) : string :=
  match s with
  | EmptyString => EmptyString
  | String c r => if isWhiteSpace c then trimStart r else s
  end.

Fixpoint trimEnd (s : string) : string :=
  match s with
  | EmptyString => EmptyString
  | String c r =>
      match trimEnd r with
      | EmptyString => if isWhiteSpace c then EmptyString else String c EmptyString
      | r' => String c r'
      end
  end.

Definition trim (s : string) : string := trimEnd (trimStart s).

Definition isEmpty (s : string) : bool :=
  match s with EmptyString => true | _ => false end.

Definition lowerChar (c : ascii) : ascii :=
  let n := N_of_ascii c in
  if ((65 <=? n) && (n <=? 90)
      || (192 <=? n) && (n <=? 222) && negb (n =? 215))%N
  then ascii_of_N (n + 32) else c.

Fixpoint toLowerCase (s : string) : string :=
  match s with
  | EmptyString => EmptyString
  | String c r => String (lowerChar c) (toLowerCase r)
  end.

Fixpoint startsWith (needle hay : string) : bool :=
  match needle, hay with
  | EmptyString, _ => true
  | String a n, String b h => bool_decide (a = b) && startsWith n h
  | String _ _, EmptyString => false
  end.

(** [hay.includes(needle)] *)
Fixpoint includes (needle hay : string) : bool :=
  startsWith needle hay ||
  match hay with
  | EmptyString => false
  | String _ r => includes needle r
  end.

(** [l.join(sep)] *)
Fixpoint join (sep : string) (l : list string) : string :=
  match l with
  | [] => EmptyString
  | [x] => x
  | x :: r => x +:+ sep +:+ join sep r
  end.

End Str.

(** ** The host's numbers

    What the sources use of the JavaScript [number] type.  Values are
    taken up to the identification of [-0] with [+0], which no operation
    used by the library tells apart. *)

Class JsRuntime := {
  number : Type;
  number_eq_dec :: EqDecision number;
  number_countable :: Countable number;
  (** the number denoted by an integer literal or a loop counter *)
  ofZ : Z → number;
  (** [-Infinity] *)
  negInfinity : number;
  isNaN : number → bool;
  (** [Number.isFinite] *)
  isFinite : number → bool;
  (** [a < b] *)
  num_ltb : number → number → bool;
  (** [a + b] *)
  num_add : number → number → number;
  (** [Number(s)] on a string *)
  StringToNumber : string → number;
  (** [String(n)] on a number *)
  NumberToString : number → string;
}.

Section Helpers.
Context {R : JsRuntime}.

(** [Number.MAX_SAFE_INTEGER] *)
Definition MAX_SAFE_INTEGER : number := ofZ (2 ^ 53 - 1).

(** [a > b] *)
Definition num_gtb (a b : number) : bool := num_ltb b a.

(** The values that reach the library.  [VObject] stands for any plain
    object or array, [VError message] for an [Error] or [DOMException]. *)
Inductive JsValue :=
| VUndefined
| VNull
| VBool (b : bool)
| VNumber (n : number)
| VString (s : string)
| VObject
| VError (message : string).

(** [string | number] *)
Inductive Id :=
| IdStr (s : string)
| IdNum (n : number).

#[global] Instance JsValue_eq_dec : EqDecision JsValue.
Proof. solve_decision. Defined.
#[global] Instance Id_eq_dec : EqDecision Id.
Proof. solve_decision. Defined.

#[global] Instance Id_countable : Countable Id :=
  inj_countable'
    (λ i, match i with IdStr s => inl s | IdNum n => inr n end)
    (λ x, match x with inl s => IdStr s | inr n => IdNum n end)
    (λ i, match i with IdStr _ | IdNum _ => eq_refl end).

Definition idValue (i : Id) : JsValue :=
  match i with IdStr s => VString s | IdNum n => VNumber n end.

(** JavaScript truthiness *)
Definition truthy (v : JsValue) : bool :=
  match v with
  | VUndefined | VNull => false
  | VBool b => b
  | VNumber n => negb (isNaN n || bool_decide (n = ofZ 0))
  | VString s => negb (Str.isEmpty s)
  | VObject | VError _ => true
  end.

(** [String(v)] *)
Definition ToString (v : JsValue) : string :=
  match v with
  | VUndefined => "undefined"
  | VNull => "null"
  | VBool true => "true"
  | VBool false => "false"
  | VNumber n => NumberToString n
  | VString s => s
  | VObject => "[object Object]"
  | VError message => "Error: " +:+ message
  end.

(** [a === b]; two objects met by the library are never the same
    reference, since records come out of the store as fresh clones. *)
Definition strictEquals (a b : JsValue) : bool :=
  match a, b with
  | VUndefined, VUndefined | VNull, VNull => true
  | VBool x, VBool y => bool_decide (x = y)
  | VNumber x, VNumber y => negb (isNaN x) && bool_decide (x = y)
  | VString x, VString y => bool_decide (x = y)
  | _, _ => false
  end.

(** [interface DatabaseItem { id: string | number; [key: string]: any }] *)
Record DatabaseItem := {
  item_id : Id;
  item_props : gmap string JsValue;
}.

(** [Partial<DatabaseItem>]: the [id] property holds whatever the caller
    put there, [VUndefined] when it is absent. *)
Record PartialItem := {
  partial_id : JsValue;
  partial_props : gmap string JsValue;
}.

#[global] Instance DatabaseItem_eq_dec : EqDecision DatabaseItem.
Proof. solve_decision. Defined.

(** *** utils/helpers.ts *)

Definition normalizeId (id : Id) : Id :=
  match id with
  | IdStr s =>
      let trimmedId := Str.trim s in
      if Str.isEmpty trimmedId then id
      else
        let numValue := StringToNumber trimmedId in
        if negb (isNaN numValue) then
          if num_gtb numValue MAX_SAFE_INTEGER then IdStr trimmedId
          else IdNum numValue
        else IdStr trimmedId
  | IdNum n =>
      if num_gtb n MAX_SAFE_INTEGER then IdStr (NumberToString n) else id
  end.

Definition isValidId (id : JsValue) : bool :=
  match id with
  | VNull | VUndefined => false
  | VString s => negb (Str.isEmpty (Str.trim s))
  | VNumber n => isFinite n
  | _ => false
  end.

(** The narrowing [id is string | number] that [isValidId] grants. *)
Definition validId (id : JsValue) : option Id :=
  if isValidId id then
    match id with
    | VString s => Some (IdStr s)
    | VNumber n => Some (IdNum n)
    | _ => None
    end
  else None.

(** [Number(id)] for an [id] that is a string or a number *)
Definition Number (id : Id) : number :=
  match id with
  | IdStr s => StringToNumber s
  | IdNum n => n
  end.

(** [Array.prototype.includes] compares with SameValueZero. *)
Definition sameValueZero (a b : number) : bool :=
  isNaN a && isNaN b || bool_decide (a = b).

Definition arrayIncludes (l : list number) (x : number) : bool :=
  existsb (sameValueZero x) l.

(** [Math.max(...l)] *)
Definition max2 (a b : number) : number :=
  if isNaN a then a
  else if isNaN b then b
  else if num_ltb a b then b else a.

Definition mathMax (l : list number) : number :=
  fold_left max2 l negInfinity.

(** [l.sort((a, b) => a - b)] on numbers that are finite *)
Definition num_le (a b : number) : Prop := num_ltb b a = false.

#[global] Instance num_le_dec : RelDecision num_le.
Proof. intros a b. unfold num_le. apply _. Defined.

Definition sortNumbers (l : list number) : list number :=
  merge_sort num_le l.

Definition isNumericId (n : number) : bool :=
  negb (isNaN n) && isFinite n.

(** [for (let i = 1; i <= numericIds.length; i++)
       if (!numericIds.includes(i)) return i;]
    started at [i] with [fuel] iterations left. *)
Fixpoint firstGap (numericIds : list number) (i : Z) (fuel : nat)
  : option Z :=
  match fuel with
  | O => None
  | S fuel' =>
      if negb (arrayIncludes numericIds (ofZ i)) then Some i
      else firstGap numericIds (i + 1) fuel'
  end.

(** [DatabaseItem[] | (string | number)[]] *)
Inductive IdSource :=
| Items (items : list DatabaseItem)
| Ids (ids : list Id).

Definition isString (id : Id) : bool :=
  match id with IdStr _ => true | IdNum _ => false end.

(** [uuid] is what [crypto.randomUUID()] hands out at this call. *)
Definition generateNextId (uuid : string) (allData : IdSource) : Id :=
  match allData with
  | Items ((_ :: _) as items) =>
      let numericIds :=
        sortNumbers
          (filter (λ n, Is_true (isNumericId n))
                  (map (λ item, Number (item_id item)) items)) in
      if (length numericIds =? 0)%nat then IdNum (ofZ 1)
      else
        match firstGap numericIds 1 (length numericIds) with
        | Some i => IdNum (ofZ i)
        | None => IdNum (num_add (mathMax numericIds) (ofZ 1))
        end
  | Items [] | Ids [] => IdNum (ofZ 1)
  | Ids ids =>
      let numericIds :=
        filter (λ n, Is_true (isNumericId n)) (map Number ids) in
      if (length numericIds =? length ids)%nat then
        let sortedIds := sortNumbers numericIds in
        IdNum (num_add (mathMax sortedIds) (ofZ 1))
      else if forallb isString ids then IdStr uuid
      else IdNum (ofZ 1)
  end.

End Helpers.

(** ** core/IndexedDBManager.ts: the promise of [executeTransaction]

    The body of [new Promise<T>((resolve, reject) => ...)] once the
    transaction object exists: four closure variables, the promise, and the
    handlers installed on the transaction and on the callback's promise. *)

Section Coordinator.
Context {R : JsRuntime} {T : Type}.

(** The state of the returned promise.  [Resolved None] is a resolution
    with the [undefined] that [callbackResult] holds until the callback
    fulfils. *)
Inductive Settlement :=
| Pending
| Resolved (value : option T)
| Rejected (reason : JsValue).

Record Sync := {
  callbackResult : option T;
  callbackError : JsValue;
  isCallbackDone : bool;
  isTransactionDone : bool;
  settled : Settlement;
  (** how many times [transaction.abort()] has been called *)
  abortCalls : nat;
}.

(** [resolve] and [reject] of a promise act once; later calls are ignored. *)
Definition resolve (value : option T) (s : Sync) : Sync :=
  match settled s with
  | Pending =>
      {| callbackResult := callbackResult s;
         callbackError := callbackError s;
         isCallbackDone := isCallbackDone s;
         isTransactionDone := isTransactionDone s;
         settled := Resolved value;
         abortCalls := abortCalls s |}
  | _ => s
  end.

Definition reject (reason : JsValue) (s : Sync) : Sync :=
  match settled s with
  | Pending =>
      {| callbackResult := callbackResult s;
         callbackError := callbackError s;
         isCallbackDone := isCallbackDone s;
         isTransactionDone := isTransactionDone s;
         settled := Rejected reason;
         abortCalls := abortCalls s |}
  | _ => s
  end.

Definition checkCompletion (s : Sync) : Sync :=
  if isCallbackDone s && isTransactionDone s then
    if truthy (callbackError s) then reject (callbackError s) s
    else resolve (callbackResult s) s
  else s.

(** [transaction.oncomplete] *)
Definition oncomplete (s : Sync) : Sync :=
  checkCompletion
    {| callbackResult := callbackResult s;
       callbackError := callbackError s;
       isCallbackDone := isCallbackDone s;
       isTransactionDone := true;
       settled := settled s;
       abortCalls := abortCalls s |}.

(** [transaction.onerror]; [error] is [transaction.error] at that time. *)
Definition onerror (error : JsValue) (s : Sync) : Sync := reject error s.

(** [transaction.onabort] *)
Definition onabort (error : JsValue) (s : Sync) : Sync :=
  reject (if truthy error then error else VError "Transaction aborted") s.

(** [transaction.abort()]: the call is recorded; what the engine makes of
    it reaches the promise as a signal. *)
Definition callAbort (s : Sync) : Sync :=
  {| callbackResult := callbackResult s;
     callbackError := callbackError s;
     isCallbackDone := isCallbackDone s;
     isTransactionDone := isTransactionDone s;
     settled := settled s;
     abortCalls := S (abortCalls s) |}.

(** [.then(result => ...)] *)
Definition onFulfilled (result : T) (s : Sync) : Sync :=
  checkCompletion
    {| callbackResult := Some result;
       callbackError := callbackError s;
       isCallbackDone := true;
       isTransactionDone := isTransactionDone s;
       settled := settled s;
       abortCalls := abortCalls s |}.

(** [.catch(err => ...)]; [abortAvailable] is the test
    [if (transaction.abort)]. *)
Definition onRejected (abortAvailable : bool) (err : JsValue) (s : Sync)
  : Sync :=
  let s' :=
    {| callbackResult := callbackResult s;
       callbackError := err;
       isCallbackDone := true;
       isTransactionDone := isTransactionDone s;
       settled := settled s;
       abortCalls := abortCalls s |} in
  if abortAvailable then callAbort s' else checkCompletion s'.

(** [catch (error) { reject(error); if (transaction.abort) ... }] *)
Definition onSyncThrow (abortAvailable : bool) (error : JsValue) (s : Sync)
  : Sync :=
  let s' := reject error s in
  if abortAvailable then callAbort s' else s'.

Definition initial : Sync :=
  {| callbackResult := None;
     callbackError := VUndefined;
     isCallbackDone := false;
     isTransactionDone := false;
     settled := Pending;
     abortCalls := 0 |}.

(** How the call [callback(transaction.objectStore(storeName))] ends:
    it returns a value or a promise, or it throws. *)
Inductive CallbackStart :=
| Returned
| Threw (error : JsValue).

(** The state the promise executor leaves behind. *)
Definition start (abortAvailable : bool) (c : CallbackStart) : Sync :=
  match c with
  | Returned => initial
  | Threw error => onSyncThrow abortAvailable error initial
  end.

(** The completion signals that reach the promise afterwards. *)
Inductive Signal :=
| CallbackFulfilled (result : T)
| CallbackRejected (err : JsValue)
| TxComplete
| TxError (error : JsValue)
| TxAbort (error : JsValue).

Definition step (abortAvailable : bool) (s : Sync) (sig : Signal) : Sync :=
  match sig with
  | CallbackFulfilled result => onFulfilled result s
  | CallbackRejected err => onRejected abortAvailable err s
  | TxComplete => oncomplete s
  | TxError error => onerror error s
  | TxAbort error => onabort error s
  end.

Definition run (abortAvailable : bool) (s : Sync) (sigs : list Signal)
  : Sync :=
  fold_left (step abortAvailable) sigs s.

Definition isCallbackSignal (sig : Signal) : bool :=
  match sig with
  | CallbackFulfilled _ | CallbackRejected _ => true
  | _ => false
  end.

Definition isTransactionSignal (sig : Signal) : bool :=
  match sig with
  | TxComplete | TxError _ | TxAbort _ => true
  | _ => false
  end.

(** A rejection of the callback whose reason is falsy. *)
Definition isFalsyRejection (sig : Signal) : bool :=
  match sig with
  | CallbackRejected err => negb (truthy err)
  | _ => false
  end.

Definition isSettled (st : Settlement) : bool :=
  match st with Pending => false | _ => true end.

End Coordinator.

Arguments Settlement {R} T.
Arguments Sync {R} T.
Arguments Signal {R} T.

(** ** The host storage engine and the manager *)

Section Manager.
Context {R : JsRuntime}.

Inductive IDBTransactionMode := readonly | readwrite | versionchange.

Inductive EmitEvents :=
| EvAdd | EvUpdate | EvSave | EvDelete | EvClear | EvExport | EvImport.

Record DatabaseConfig := {
  cfg_name : string;
  cfg_version : nat;
  cfg_store : string;
}.

(** [DatabaseSchema]: the stores it declares, by name; every store is
    keyed on [id]. *)
Record DatabaseSchema := {
  schema_name : string;
  schema_version : nat;
  schema_stores : list string;
}.

(** The [data] of an [EmitEventData]. *)
Inductive EventPayload :=
| DataItem (item : DatabaseItem)
| DataId (id : Id)
| DataNull
| DataUndefined.

(** One call of [emitterInstance.emit(event, eventData)]; the timestamp
    of [metadata] is left out. *)
Record EmitEventData := {
  ev_operation : EmitEvents;
  ev_config : DatabaseConfig;
  ev_data : EventPayload;
}.

(** The database as the engine holds it. *)
Record HostDatabase := {
  host_version : nat;
  host_stores : gmap string (gmap Id DatabaseItem);
}.

(** [IDBDatabase]: the open connection with its [objectStoreNames]. *)
Record IDBDatabase := {
  objectStoreNames : list string;
}.

Record IndexedDBManager := {
  dbConfig : DatabaseConfig;
  dbSchema : option DatabaseSchema;
  db : option IDBDatabase;
  indexedDB : HostDatabase;
  (** the calls of [emit], oldest first *)
  emitted : list EmitEventData;
  (** the calls of [indexedDB.open] so far *)
  opens : nat;
  (** the transactions created by [db.transaction], oldest first *)
  transactions : list (string * IDBTransactionMode);
  (** what the engine does at the commit of the coming transactions:
      [Some error] aborts the commit with that error; nothing left means
      a commit *)
  commitFaults : list (option JsValue);
}.

Definition setHost (h : HostDatabase) (m : IndexedDBManager)
  : IndexedDBManager :=
  {| dbConfig := dbConfig m; dbSchema := dbSchema m; db := db m;
     indexedDB := h; emitted := emitted m; opens := opens m;
     transactions := transactions m; commitFaults := commitFaults m |}.

Definition setDb (c : option IDBDatabase) (m : IndexedDBManager)
  : IndexedDBManager :=
  {| dbConfig := dbConfig m; dbSchema := dbSchema m; db := c;
     indexedDB := indexedDB m; emitted := emitted m; opens := opens m;
     transactions := transactions m; commitFaults := commitFaults m |}.

Definition setEmitted (l : list EmitEventData) (m : IndexedDBManager)
  : IndexedDBManager :=
  {| dbConfig := dbConfig m; dbSchema := dbSchema m; db := db m;
     indexedDB := indexedDB m; emitted := l; opens := opens m;
     transactions := transactions m; commitFaults := commitFaults m |}.

Definition setOpens (n : nat) (m : IndexedDBManager) : IndexedDBManager :=
  {| dbConfig := dbConfig m; dbSchema := dbSchema m; db := db m;
     indexedDB := indexedDB m; emitted := emitted m; opens := n;
     transactions := transactions m; commitFaults := commitFaults m |}.

Definition setTransactions (l : list (string * IDBTransactionMode))
    (m : IndexedDBManager) : IndexedDBManager :=
  {| dbConfig := dbConfig m; dbSchema := dbSchema m; db := db m;
     indexedDB := indexedDB m; emitted := emitted m; opens := opens m;
     transactions := l; commitFaults := commitFaults m |}.

Definition setCommitFaults (l : list (option JsValue))
    (m : IndexedDBManager) : IndexedDBManager :=
  {| dbConfig := dbConfig m; dbSchema := dbSchema m; db := db m;
     indexedDB := indexedDB m; emitted := emitted m; opens := opens m;
     transactions := transactions m; commitFaults := l |}.

(** [emitEvent(event, data)] *)
Definition eventData (cfg : DatabaseConfig) (event : EmitEvents)
    (data : EventPayload) : EmitEventData :=
  {| ev_operation := event; ev_config := cfg; ev_data := data |}.

Definition emitEvent (event : EmitEvents) (data : EventPayload)
    (m : IndexedDBManager) : IndexedDBManager :=
  setEmitted (emitted m ++ [eventData (dbConfig m) event data]) m.

(** *** Requests inside a transaction

    A callback works on the object store of its transaction and may call
    [emitEvent]; a request that throws, or whose [onerror] fires, makes
    the callback's promise reject. *)

Record TxState := {
  txMode : IDBTransactionMode;
  txStore : gmap Id DatabaseItem;
  txEmitted : list EmitEventData;
}.

Definition Tx (A : Type) : Type := TxState → (JsValue + A) * TxState.

Definition txRet {A} (a : A) : Tx A := λ ts, (inr a, ts).

Definition txBind {A B} (c : Tx A) (k : A → Tx B) : Tx B :=
  λ ts, match c ts with
        | (inl err, ts') => (inl err, ts')
        | (inr a, ts') => k a ts'
        end.

Definition withStore (st : gmap Id DatabaseItem) (ts : TxState) : TxState :=
  {| txMode := txMode ts; txStore := st; txEmitted := txEmitted ts |}.

Definition isReadOnly (mode : IDBTransactionMode) : bool :=
  match mode with readonly => true | _ => false end.

(** A number key must not be [NaN]; every string is a key. *)
Definition validKey (k : Id) : bool :=
  match k with
  | IdNum n => negb (isNaN n)
  | IdStr _ => true
  end.

(** [store.put(item)], the key being [item.id] *)
Definition storePut (item : DatabaseItem) : Tx unit :=
  λ ts,
    if isReadOnly (txMode ts) then (inl (VError "ReadOnlyError"), ts)
    else if negb (validKey (item_id item)) then (inl (VError "DataError"), ts)
    else (inr (), withStore (<[item_id item := item]> (txStore ts)) ts).

(** [store.get(key)]; [None] is the [undefined] result of a miss. *)
Definition storeGet (key : Id) : Tx (option DatabaseItem) :=
  λ ts,
    if negb (validKey key) then (inl (VError "DataError"), ts)
    else (inr (txStore ts !! key), ts).

(** [store.delete(key)] *)
Definition storeDelete (key : Id) : Tx unit :=
  λ ts,
    if isReadOnly (txMode ts) then (inl (VError "ReadOnlyError"), ts)
    else if negb (validKey key) then (inl (VError "DataError"), ts)
    else (inr (), withStore (delete key (txStore ts)) ts).

(** [store.getAll()] *)
Definition storeGetAll : Tx (list DatabaseItem) :=
  λ ts, (inr (map snd (map_to_list (txStore ts))), ts).

(** [store.clear()] *)
Definition storeClear : Tx unit :=
  λ ts,
    if isReadOnly (txMode ts) then (inl (VError "ReadOnlyError"), ts)
    else (inr (), withStore ∅ ts).

(** [store.count()] *)
Definition storeCount : Tx nat :=
  λ ts, (inr (size (txStore ts)), ts).

(** [this.emitEvent(event, data)] from inside a callback *)
Definition txEmit (cfg : DatabaseConfig) (event : EmitEvents)
    (data : EventPayload) : Tx unit :=
  λ ts,
    (inr (),
     {| txMode := txMode ts; txStore := txStore ts;
        txEmitted := txEmitted ts ++ [eventData cfg event data] |}).

(** [Promise.all(l.map(x => new Promise(... request ...)))]: every
    request is issued, and the first failure is the reason. *)
Fixpoint txAll {A} (request : A → Tx unit) (l : list A) : Tx unit :=
  match l with
  | [] => txRet ()
  | x :: rest =>
      λ ts, match request x ts with
            | (inl err, ts') => (inl err, snd (txAll request rest ts'))
            | (inr _, ts') => txAll request rest ts'
            end
  end.

(** How a callback of [executeTransaction] ends. *)
Inductive Completion (T : Type) :=
| Fulfils (result : T)
| Rejects (err : JsValue)
| Throws (error : JsValue).
Arguments Fulfils {T}.
Arguments Rejects {T}.
Arguments Throws {T}.

(** A callback as the operations of the manager write them: it issues
    its requests against the store, and a request that fails ends it.  A
    callback that handles the error event of a failed request itself and
    goes on is not of this kind. *)
Definition Callback (T : Type) : Type := TxState → Completion T * TxState.

(** A callback that is [async], or that returns [new Promise(...)]:
    it never throws, its promise fulfils or rejects. *)
Definition promised {T} (body : Tx T) : Callback T :=
  λ ts, match body ts with
        | (inl err, ts') => (Rejects err, ts')
        | (inr result, ts') => (Fulfils result, ts')
        end.

(** *** Opening the database *)

Definition validateDatabaseConfig (config : DatabaseConfig) : bool :=
  negb (Str.isEmpty (Str.trim (cfg_name config)))
  && (0 <? cfg_version config)%nat
  && negb (Str.isEmpty (Str.trim (cfg_store config))).

Definition contains (names : list string) (name : string) : bool :=
  bool_decide (name ∈ names).

Definition storeNames (h : HostDatabase) : list string :=
  merge_sort String.le (map fst (map_to_list (host_stores h))).

(** [if (!db.objectStoreNames.contains(name)) db.createObjectStore(name, ...)] *)
Definition createIfMissing (stores : gmap string (gmap Id DatabaseItem))
    (name : string) : gmap string (gmap Id DatabaseItem) :=
  match stores !! name with
  | Some _ => stores
  | None => <[name := ∅]> stores
  end.

(** [request.onupgradeneeded] *)
Definition onupgradeneeded (m : IndexedDBManager)
    (stores : gmap string (gmap Id DatabaseItem))
  : gmap string (gmap Id DatabaseItem) :=
  match dbSchema m with
  | Some schema => fold_left createIfMissing (schema_stores schema) stores
  | None => createIfMissing stores (cfg_store (dbConfig m))
  end.

(** [indexedDB.open(name, version)] as the engine answers it. *)
Definition hostOpen (m : IndexedDBManager) (version : nat)
    (h : HostDatabase) : JsValue + HostDatabase :=
  if (version =? 0)%nat then inl (VError "TypeError")
  else if (version <? host_version h)%nat then inl (VError "VersionError")
  else if (host_version h <? version)%nat then
    inr {| host_version := version;
           host_stores := onupgradeneeded m (host_stores h) |}
  else inr h.

Definition openDatabase (m : IndexedDBManager)
  : IndexedDBManager * (JsValue + IDBDatabase) :=
  match db m with
  | Some conn => (m, inr conn)
  | None =>
      if negb (bool_decide (is_Some (dbSchema m)))
         && negb (validateDatabaseConfig (dbConfig m))
      then (m, inl (VError "Invalid database configuration"))
      else
        let m1 := setOpens (S (opens m)) m in
        match hostOpen m (cfg_version (dbConfig m)) (indexedDB m) with
        | inl error => (m1, inl error)
        | inr h =>
            let conn := {| objectStoreNames := storeNames h |} in
            (setDb (Some conn) (setHost h m1), inr conn)
        end
  end.

(** [close()] *)
Definition close (m : IndexedDBManager) : IndexedDBManager := setDb None m.

(** *** executeTransaction *)

Definition storeNotFound (storeName : string) (available : list string)
  : JsValue :=
  VError ("Store '" +:+ storeName +:+ "' not found. Available stores: ["
          +:+ Str.join ", " available +:+ "]").

(** [db.transaction(storeName, mode)] followed by
    [transaction.objectStore(storeName)] *)
Definition beginTransaction (storeName : string) (mode : IDBTransactionMode)
    (h : HostDatabase) : JsValue + gmap Id DatabaseItem :=
  match mode with
  | versionchange => inl (VError "TypeError")
  | _ =>
      match host_stores h !! storeName with
      | Some st => inr st
      | None => inl (VError "NotFoundError")
      end
  end.

Definition nextCommitFault (m : IndexedDBManager)
  : option JsValue * IndexedDBManager :=
  match commitFaults m with
  | [] => (None, m)
  | d :: rest => (d, setCommitFaults rest m)
  end.

(** The signals the engine and the callback's promise deliver for one
    transaction: a fulfilled callback is followed by the commit or by
    its failure; a rejected or throwing callback has called
    [transaction.abort()] on the live transaction, which fires [abort]
    with no [transaction.error]. *)
Definition signalsOf {T} (completion : Completion T)
    (fault : option JsValue) : list (Signal T) :=
  match completion with
  | Fulfils result =>
      [CallbackFulfilled result;
       match fault with Some error => TxAbort error | None => TxComplete end]
  | Rejects err => [CallbackRejected err; TxAbort VNull]
  | Throws _ => [TxAbort VNull]
  end.

Definition startOf {T} (completion : Completion T) : CallbackStart :=
  match completion with
  | Throws error => Threw error
  | _ => Returned
  end.

Definition commits {T} (completion : Completion T)
    (fault : option JsValue) : bool :=
  match completion, fault with
  | Fulfils _, None => true
  | _, _ => false
  end.

Definition executeTransaction {T} (storeName : string)
    (mode : IDBTransactionMode) (callback : Callback T)
    (m : IndexedDBManager) : IndexedDBManager * Settlement T :=
  match openDatabase m with
  | (m1, inl error) => (m1, Rejected error)
  | (m1, inr conn) =>
      if negb (contains (objectStoreNames conn) storeName) then
        (m1, Rejected (storeNotFound storeName (objectStoreNames conn)))
      else
        match beginTransaction storeName mode (indexedDB m1) with
        | inl error => (m1, Rejected error)
        | inr st =>
            let m2 :=
              setTransactions (transactions m1 ++ [(storeName, mode)]) m1 in
            let '(fault, m3) := nextCommitFault m2 in
            let '(completion, ts) :=
              callback {| txMode := mode; txStore := st;
                          txEmitted := emitted m3 |} in
            let outcome :=
              settled (run true (start true (startOf completion))
                           (signalsOf completion fault)) in
            let m4 := setEmitted (txEmitted ts) m3 in
            let m5 :=
              if commits completion fault then
                setHost {| host_version := host_version (indexedDB m4);
                           host_stores :=
                             <[storeName := txStore ts]>
                               (host_stores (indexedDB m4)) |} m4
              else m4 in
            (m5, outcome)
        end
  end.

End Manager.

Arguments Fulfils {R T}.
Arguments Rejects {R T}.
Arguments Throws {R T}.

(** ** The store operations *)

Section Operations.
Context {R : JsRuntime}.

#[local] Instance Tx_ret : MRet Tx := @txRet R.
#[local] Instance Tx_bind : MBind Tx := λ A B k c, txBind c k.

(** [savedData] or [deletedId] as handed to [emitEvent] *)
Definition itemPayload (v : option DatabaseItem) : EventPayload :=
  match v with Some item => DataItem item | None => DataUndefined end.

Definition idPayload (v : option Id) : EventPayload :=
  match v with Some id => DataId id | None => DataUndefined end.

(** The callback of [idExistsInStore]: [request.result !== undefined] *)
Definition existsCallback (normalizedId : Id) : Tx bool :=
  result ← storeGet normalizedId;
  mret (bool_decide (is_Some result)).

Definition idExistsInStore (storeName : string) (id : Id)
    (m : IndexedDBManager) : IndexedDBManager * Settlement bool :=
  let normalizedId := normalizeId id in
  executeTransaction storeName readonly
    (promised (existsCallback normalizedId)) m.

(** The callback of [saveDataToStore] *)
Definition putCallback (newData : DatabaseItem) : Tx DatabaseItem :=
  _ ← storePut newData; mret newData.

(** [stamp] is the value of
    [Date.now() + Math.floor(Math.random() * 1000)] at this call;
    [data] is [None] when the argument is not an object. *)
Definition saveDataToStore (storeName : string) (data : option PartialItem)
    (stamp : number) (m : IndexedDBManager)
  : IndexedDBManager * Settlement DatabaseItem :=
  match data with
  | None => (m, Rejected (VError "Invalid data: must be an object."))
  | Some data =>
      let put (targetId : Id) (isUpdate : bool) (m : IndexedDBManager) :=
        let newData :=
          {| item_id := targetId; item_props := partial_props data |} in
        let actionType := if isUpdate then EvUpdate else EvAdd in
        match
          executeTransaction storeName readwrite
            (promised (putCallback newData)) m
        with
        | (m', Resolved savedData) =>
            (emitEvent actionType (itemPayload savedData) m',
             Resolved savedData)
        | (m', outcome) => (m', outcome)
        end in
      match validId (partial_id data) with
      | Some id =>
          let targetId := normalizeId id in
          match idExistsInStore storeName targetId m with
          | (m1, Resolved isUpdate) => put targetId (default false isUpdate) m1
          | (m1, Rejected reason) => (m1, Rejected reason)
          | (m1, Pending) => (m1, Pending)
          end
      | None => put (IdNum stamp) false m
      end
  end.

Definition getDataByIdFromStore (storeName : string) (id : JsValue)
    (m : IndexedDBManager)
  : IndexedDBManager * Settlement (option DatabaseItem) :=
  match validId id with
  | None => (m, Resolved (Some None))
  | Some id =>
      let normalizedId := normalizeId id in
      executeTransaction storeName readonly
        (promised (storeGet normalizedId)) m
  end.

(** [{ ...getRequest.result, ...updatedData, id: normalizedId }] *)
Definition mergeItem (stored : DatabaseItem) (updatedData : PartialItem)
    (normalizedId : Id) : DatabaseItem :=
  {| item_id := normalizedId;
     item_props := partial_props updatedData ∪ item_props stored |}.

(** The callback of [updateDataByIdInStore]; [cfg] is [this.dbConfig]. *)
Definition updateCallback (cfg : DatabaseConfig) (normalizedId : Id)
    (updatedData : PartialItem) : Tx (option DatabaseItem) :=
  result ← storeGet normalizedId;
  match result with
  | Some stored =>
      let newData := mergeItem stored updatedData normalizedId in
      _ ← storePut newData;
      _ ← txEmit cfg EvUpdate (DataItem newData);
      mret (Some newData)
  | None => mret None
  end.

Definition updateDataByIdInStore (storeName : string) (id : JsValue)
    (updatedData : PartialItem) (m : IndexedDBManager)
  : IndexedDBManager * Settlement (option DatabaseItem) :=
  match validId id with
  | None => (m, Rejected (VError "Invalid ID provided for update"))
  | Some id =>
      let normalizedId := normalizeId id in
      match idExistsInStore storeName normalizedId m with
      | (m1, Resolved exists_) =>
          if negb (default false exists_) then (m1, Resolved (Some None))
          else
            executeTransaction storeName readwrite
              (promised (updateCallback (dbConfig m1) normalizedId
                                        updatedData)) m1
      | (m1, Rejected reason) => (m1, Rejected reason)
      | (m1, Pending) => (m1, Pending)
      end
  end.

(** The callback of [deleteDataFromStore] *)
Definition deleteCallback (keyId : Id) : Tx Id :=
  _ ← storeDelete keyId; mret keyId.

Definition deleteDataFromStore (storeName : string) (id : JsValue)
    (m : IndexedDBManager) : IndexedDBManager * Settlement Id :=
  match validId id with
  | None => (m, Rejected (VError "Invalid ID provided for deletion"))
  | Some id =>
      let keyId := normalizeId id in
      match
        executeTransaction storeName readwrite
          (promised (deleteCallback keyId)) m
      with
      | (m', Resolved deletedId) =>
          (emitEvent EvDelete (idPayload deletedId) m', Resolved deletedId)
      | (m', outcome) => (m', outcome)
      end
  end.

Definition getAllDataFromStore (storeName : string) (m : IndexedDBManager)
  : IndexedDBManager * Settlement (list DatabaseItem) :=
  executeTransaction storeName readonly (promised storeGetAll) m.

(** The callback of [clearStore] *)
Definition clearCallback (cfg : DatabaseConfig) : Tx unit :=
  _ ← storeClear;
  _ ← txEmit cfg EvClear DataNull;
  mret ().

Definition clearStore (storeName : string) (m : IndexedDBManager)
  : IndexedDBManager * Settlement unit :=
  executeTransaction storeName readwrite
    (promised (clearCallback (dbConfig m))) m.

Definition countInStore (storeName : string) (m : IndexedDBManager)
  : IndexedDBManager * Settlement nat :=
  executeTransaction storeName readonly (promised storeCount) m.

(** [item[key]] *)
Definition getField (item : DatabaseItem) (key : string) : JsValue :=
  if bool_decide (key = "id") then idValue (item_id item)
  else default VUndefined (item_props item !! key).

(** [Object.entries(query)] *)
Definition entries (query : PartialItem) : list (string * JsValue) :=
  match partial_id query with
  | VUndefined => []
  | v => [("id", v)]
  end ++ map_to_list (partial_props query).

Definition commonExactValues : list string :=
  ["active"; "inactive"; "pending"; "draft"; "published"; "archived"].

(** The body of [Object.entries(query).every(([key, value]) => ...)] *)
Definition criterionMatches (item : DatabaseItem) (key : string)
    (value : JsValue) : bool :=
  match value with
  | VUndefined | VNull => true
  | VString value =>
      let fieldValue :=
        ToString (if truthy (getField item key) then getField item key
                  else VString EmptyString) in
      let isDomainSearch := Str.includes "." value in
      let isLikelyExactValue :=
        bool_decide (Str.toLowerCase value ∈ commonExactValues) in
      if isDomainSearch && negb isLikelyExactValue then
        Str.includes (Str.toLowerCase value) (Str.toLowerCase fieldValue)
      else
        bool_decide (Str.toLowerCase fieldValue = Str.toLowerCase value)
  | _ => strictEquals (getField item key) value
  end.

Definition matchesQuery (query : PartialItem) (item : DatabaseItem) : bool :=
  forallb (λ kv, criterionMatches item kv.1 kv.2) (entries query).

Record SearchResult := {
  items : list DatabaseItem;
  total : nat;
}.

(** [searchDataInStore(storeName, query)] with the default [options = {}]:
    no ordering and no pagination. *)
Definition searchDataInStore (storeName : string) (query : PartialItem)
    (m : IndexedDBManager) : IndexedDBManager * Settlement SearchResult :=
  match getAllDataFromStore storeName m with
  | (m1, Resolved (Some allData)) =>
      let filteredData :=
        if (length (entries query) =? 0)%nat then allData
        else List.filter (matchesQuery query) allData in
      (m1, Resolved (Some {| items := filteredData;
                             total := length filteredData |}))
  | (m1, Resolved None) => (m1, Rejected (VError "TypeError"))
  | (m1, Rejected reason) => (m1, Rejected reason)
  | (m1, Pending) => (m1, Pending)
  end.

Definition filterInStore (storeName : string)
    (criteria : gmap string JsValue) (m : IndexedDBManager)
  : IndexedDBManager * Settlement (list DatabaseItem) :=
  match getAllDataFromStore storeName m with
  | (m1, Resolved (Some allData)) =>
      (m1, Resolved (Some (List.filter
         (λ item,
            forallb (λ kv : string * JsValue,
                       match kv.2 with
                       | VUndefined | VNull => true
                       | value => strictEquals (getField item kv.1) value
                       end)
                    (map_to_list criteria))
         allData)))
  | (m1, Resolved None) => (m1, Rejected (VError "TypeError"))
  | (m1, Rejected reason) => (m1, Rejected reason)
  | (m1, Pending) => (m1, Pending)
  end.

(** One turn of [for (const item of items)] in [addManyToStore];
    [existingIds] is the [Set] of the ids read from the store. *)
Definition assignId (uuid : string) (allDataInStore : list DatabaseItem)
    (acc : list DatabaseItem * list (EmitEvents * DatabaseItem))
    (item : PartialItem)
  : list DatabaseItem * list (EmitEvents * DatabaseItem) :=
  let '(itemsToAdd, itemsToEmit) := acc in
  let existingIds := map item_id allDataInStore in
  let '(targetId, isUpdate) :=
    match validId (partial_id item) with
    | Some id =>
        let targetId := normalizeId id in
        (targetId, bool_decide (targetId ∈ existingIds))
    | None =>
        let currentDataForIdGen := allDataInStore ++ itemsToAdd in
        (generateNextId uuid (Items currentDataForIdGen), false)
    end in
  let newData :=
    {| item_id := targetId; item_props := partial_props item |} in
  let actionType := if isUpdate then EvUpdate else EvAdd in
  (itemsToAdd ++ [newData], itemsToEmit ++ [(actionType, newData)]).

Definition assignIds (uuid : string) (allDataInStore : list DatabaseItem)
    (items : list PartialItem)
  : list DatabaseItem * list (EmitEvents * DatabaseItem) :=
  fold_left (assignId uuid allDataInStore) items ([], []).

Definition emitAll {A} (event : A → EmitEvents) (data : A → EventPayload)
    (l : list A) (m : IndexedDBManager) : IndexedDBManager :=
  fold_left (λ m x, emitEvent (event x) (data x) m) l m.

(** The callback of [addManyToStore]; the closure variable
    [itemsToEmit] travels with its result [true]. *)
Definition addManyCallback (uuid : string) (items : list PartialItem)
  : Tx (bool * list (EmitEvents * DatabaseItem)) :=
  allDataInStore ← storeGetAll;
  let '(itemsToAdd, itemsToEmit) := assignIds uuid allDataInStore items in
  _ ← txAll storePut itemsToAdd;
  mret (true, itemsToEmit).

(** The callbacks of [updateManyInStore] and [deleteManyFromStore] *)
Definition putManyCallback (items : list DatabaseItem) : Tx bool :=
  _ ← txAll storePut items; mret true.

Definition deleteManyCallback (ids : list Id) : Tx bool :=
  let normalizedIds := map normalizeId ids in
  _ ← txAll storeDelete normalizedIds; mret true.

Definition addManyToStore (uuid : string) (storeName : string)
    (items : list PartialItem) (m : IndexedDBManager)
  : IndexedDBManager * Settlement bool :=
  match
    executeTransaction storeName readwrite
      (promised (addManyCallback uuid items)) m
  with
  | (m', Resolved success) =>
      (match success with
       | Some (true, itemsToEmit) =>
           emitAll fst (λ x, DataItem x.2) itemsToEmit m'
       | _ => m'
       end, Resolved (Some true))
  | (m', Rejected err) => (m', Resolved (Some false))
  | (m', Pending) => (m', Pending)
  end.

Definition updateManyInStore (storeName : string)
    (items : list DatabaseItem) (m : IndexedDBManager)
  : IndexedDBManager * Settlement bool :=
  let itemsToEmit := items in
  match
    executeTransaction storeName readwrite
      (promised (putManyCallback items)) m
  with
  | (m', Resolved success) =>
      (if default false success
       then emitAll (λ _, EvUpdate) DataItem itemsToEmit m' else m',
       Resolved (Some true))
  | (m', Rejected err) => (m', Resolved (Some false))
  | (m', Pending) => (m', Pending)
  end.

Definition deleteManyFromStore (storeName : string) (ids : list Id)
    (m : IndexedDBManager) : IndexedDBManager * Settlement bool :=
  let idsToEmit := map normalizeId ids in
  match
    executeTransaction storeName readwrite
      (promised (deleteManyCallback ids)) m
  with
  | (m', Resolved success) =>
      (if default false success
       then emitAll (λ _, EvDelete) DataId idsToEmit m' else m',
       Resolved (Some true))
  | (m', Rejected err) => (m', Resolved (Some false))
  | (m', Pending) => (m', Pending)
  end.

Fixpoint getManyLoop (storeName : string) (ids : list JsValue)
    (results : list DatabaseItem) (m : IndexedDBManager)
  : IndexedDBManager * Settlement (list DatabaseItem) :=
  match ids with
  | [] => (m, Resolved (Some results))
  | id :: rest =>
      match getDataByIdFromStore storeName id m with
      | (m1, Resolved (Some (Some item))) =>
          getManyLoop storeName rest (results ++ [item]) m1
      | (m1, Resolved _) => getManyLoop storeName rest results m1
      | (m1, Rejected reason) => (m1, Rejected reason)
      | (m1, Pending) => (m1, Pending)
      end
  end.

Definition getManyFromStore (storeName : string) (ids : list JsValue)
    (m : IndexedDBManager)
  : IndexedDBManager * Settlement (list DatabaseItem) :=
  getManyLoop storeName ids [] m.

Record DatabaseStats := {
  totalRecords : nat;
  stats_storeName : string;
  databaseName : string;
  stats_version : nat;
}.

Definition getStatsForStore (storeName : string) (m : IndexedDBManager)
  : IndexedDBManager * Settlement DatabaseStats :=
  match getAllDataFromStore storeName m with
  | (m1, Resolved (Some allData)) =>
      (m1, Resolved (Some {| totalRecords := length allData;
                             stats_storeName := storeName;
                             databaseName := cfg_name (dbConfig m1);
                             stats_version := cfg_version (dbConfig m1) |}))
  | (m1, Resolved None) => (m1, Rejected (VError "TypeError"))
  | (m1, Rejected reason) => (m1, Rejected reason)
  | (m1, Pending) => (m1, Pending)
  end.

End Operations.

(** ** The manager's own [update] and [delete] *)

Section Facade.
Context {R : JsRuntime}.

(** A [DatabaseItem] passed where a [Partial<DatabaseItem>] is expected. *)
Definition asPartial (item : DatabaseItem) : PartialItem :=
  {| partial_id := idValue (item_id item); partial_props := item_props item |}.

(** [update(item)]: [updateDataById(item.id, item)], and
    [throw new Error(`Item with id ${item.id} not found`)] on a null. *)
Definition update (item : DatabaseItem) (m : IndexedDBManager)
  : IndexedDBManager * Settlement DatabaseItem :=
  match
    updateDataByIdInStore (cfg_store (dbConfig m)) (idValue (item_id item))
      (asPartial item) m
  with
  | (m1, Resolved (Some (Some result))) => (m1, Resolved (Some result))
  | (m1, Resolved _) =>
      (m1, Rejected (VError ("Item with id "
                             +:+ ToString (idValue (item_id item))
                             +:+ " not found")))
  | (m1, Rejected reason) => (m1, Rejected reason)
  | (m1, Pending) => (m1, Pending)
  end.

(** [delete(id)]: [try { await this.deleteData(id); return true }
    catch { return false }] *)
Definition delete_ (id : JsValue) (m : IndexedDBManager)
  : IndexedDBManager * Settlement bool :=
  match deleteDataFromStore (cfg_store (dbConfig m)) id m with
  | (m1, Resolved _) => (m1, Resolved (Some true))
  | (m1, Rejected _) => (m1, Resolved (Some false))
  | (m1, Pending) => (m1, Pending)
  end.

End Facade.

(** ** core/Emitter.ts

    The [events] object maps an event name to the array of its listeners.
    A listener is a function, known by its reference.  The functions of
    the caller are numbered; they do what they do outside the emitter,
    return or throw, and do not call the emitter back.  The closure that
    [once] creates is a function of its own, a new one at each call.
    Event names are own keys of [events]: the names [Object.prototype]
    defines are left out. *)

Section EmitterModel.
Context {D : Type}.

Inductive Listener :=
| EventCallback (ref : nat)
| OnceCallback (serial : nat) (callback : nat).

#[global] Instance Listener_eq_dec : EqDecision Listener.
Proof. solve_decision. Defined.

Record Emitter := {
  events : gmap string (list Listener);
  (** the closures [once] has created so far *)
  created : nat;
  (** the calls of the caller's functions with their argument, oldest
      first *)
  calls : list (nat * D);
}.

Definition newEmitter : Emitter :=
  {| events := ∅; created := 0; calls := [] |}.

Definition setEvents (ev : gmap string (list Listener)) (e : Emitter)
  : Emitter :=
  {| events := ev; created := created e; calls := calls e |}.

(** [on(event, callback)] *)
Definition on (event : string) (callback : Listener) (e : Emitter)
  : Emitter :=
  setEvents (<[event := default [] (events e !! event) ++ [callback]]>
               (events e)) e.

(** [l.splice(l.indexOf(callback), 1)] when the index is not [-1] *)
Fixpoint removeFirst (callback : Listener) (l : list Listener)
  : list Listener :=
  match l with
  | [] => []
  | x :: r => if decide (x = callback) then r else x :: removeFirst callback r
  end.

(** [off(event, callback?)] *)
Definition off (event : string) (callback : option Listener) (e : Emitter)
  : Emitter :=
  match events e !! event with
  | None => e
  | Some l =>
      match callback with
      | Some callback =>
          setEvents (<[event := removeFirst callback l]> (events e)) e
      | None => setEvents (delete event (events e)) e
      end
  end.

(** [once(event, callback)] *)
Definition once (event : string) (callback : nat) (e : Emitter) : Emitter :=
  let onceCallback := OnceCallback (created e) callback in
  on event onceCallback
     {| events := events e; created := S (created e); calls := calls e |}.

(** Whether the caller's function [ref] throws on the argument. *)
Context (throws : nat → D → bool).

Definition call (ref : nat) (data : D) (e : Emitter) : Emitter :=
  {| events := events e; created := created e;
     calls := calls e ++ [(ref, data)] |}.

(** One turn of [callbacks.forEach(callback => { try { callback(data) }
    catch ... })]; the closure of [once] is
    [(data) => { callback(data); this.off(event, onceCallback) }]. *)
Definition invoke (event : string) (data : D) (e : Emitter)
    (listener : Listener) : Emitter :=
  match listener with
  | EventCallback ref => call ref data e
  | OnceCallback serial ref =>
      let e' := call ref data e in
      if throws ref data then e' else off event (Some listener) e'
  end.

(** [emit(event, data)] *)
Definition emit (event : string) (data : D) (e : Emitter) : Emitter :=
  match events e !! event with
  | None => e
  | Some l =>
      let callbacks := l in
      fold_left (invoke event data) callbacks e
  end.

(** [getEvents()], as a set *)
Definition getEvents (e : Emitter) : gset string := dom (events e).

(** [listenerCount(event)] *)
Definition listenerCount (event : string) (e : Emitter) : nat :=
  length (default [] (events e !! event)).

(** [removeAllListeners()] *)
Definition removeAllListeners (e : Emitter) : Emitter := setEvents ∅ e.

(** [hasListeners(event)] *)
Definition hasListeners (event : string) (e : Emitter) : bool :=
  (0 <? listenerCount event e)%nat.

(** What a user of the emitter can do. *)
Inductive EmitterCall :=
| CallOn (event : string) (callback : nat)
| CallOnce (event : string) (callback : nat)
| CallOff (event : string) (callback : option nat)
| CallEmit (event : string) (data : D)
| CallRemoveAllListeners.

Definition perform (e : Emitter) (c : EmitterCall) : Emitter :=
  match c with
  | CallOn event callback => on event (EventCallback callback) e
  | CallOnce event callback => once event callback e
  | CallOff event callback => off event (EventCallback <$> callback) e
  | CallEmit event data => emit event data e
  | CallRemoveAllListeners => removeAllListeners e
  end.

Definition performAll (cs : list EmitterCall) : Emitter :=
  fold_left perform cs newEmitter.

End EmitterModel.

Arguments Listener : clear implicits.
Arguments Emitter : clear implicits.
Arguments EmitterCall : clear implicits.

(** ** utils/helpers.ts: [findMissingIds]

    The loops count with numbers, and a number that is large or not
    finite does not move when one is added to it: each loop gets [fuel]
    turns, and [None] tells that they were not enough. *)

Section FindMissingIds.
Context {R : JsRuntime}.

(** [a <= b] *)
Definition num_leb (a b : number) : bool :=
  num_ltb a b || negb (isNaN a) && bool_decide (a = b).

(** [l.map(...).filter((id) => !isNaN(id)).sort((a, b) => a - b)] *)
Definition sortedNumbers (l : list number) : list number :=
  sortNumbers (filter (λ n, isNaN n = false) l).

(** [while (expectedId < id) { missingIds.push(expectedId); expectedId++; }] *)
Fixpoint whileBelow (fuel : nat) (id expectedId : number)
    (missingIds : list number) : option (number * list number) :=
  if num_ltb expectedId id then
    match fuel with
    | O => None
    | S fuel' =>
        whileBelow fuel' id (num_add expectedId (ofZ 1))
                   (missingIds ++ [expectedId])
    end
  else Some (expectedId, missingIds).

(** [for (const id of ids) { while ...; expectedId = id + 1; }] *)
Fixpoint missingBetween (fuel : nat) (ids : list number)
    (expectedId : number) (missingIds : list number)
  : option (list number) :=
  match ids with
  | [] => Some missingIds
  | id :: rest =>
      match whileBelow fuel id expectedId missingIds with
      | Some (_, missingIds') =>
          missingBetween fuel rest (num_add id (ofZ 1)) missingIds'
      | None => None
      end
  end.

(** [for (let i = start; i <= end; i++)
      if (!numericIds.includes(i)) missingIds.push(i);] *)
Fixpoint missingInRange (fuel : nat) (numericIds : list number)
    (end_ i : number) (missingIds : list Id) : option (list Id) :=
  if num_leb i end_ then
    match fuel with
    | O => None
    | S fuel' =>
        missingInRange fuel' numericIds end_ (num_add i (ofZ 1))
          (if arrayIncludes numericIds i then missingIds
           else missingIds ++ [IdNum i])
    end
  else Some missingIds.

(** [s.charCodeAt(0)]; [None] is the [NaN] of the empty string. *)
Definition charCodeAt0 (s : string) : option Z :=
  match s with
  | EmptyString => None
  | String c _ => Some (Z.of_N (N_of_ascii c))
  end.

(** [String.fromCharCode(i)] *)
Definition fromCharCode (i : Z) : string :=
  String (ascii_of_N (Z.to_N i)) EmptyString.

(** [for (let i = startCode; i <= endCode; i++) { ... }] over the codes
    of two characters *)
Definition missingChars (ids : list Id) (startCode endCode : Z) : list Id :=
  map (λ i, IdStr (fromCharCode i))
      (filter (λ i, IdStr (fromCharCode i) ∉ ids)
              (seqZ startCode (endCode - startCode + 1))).

Definition findMissingIds (fuel : nat) (existingIds : IdSource)
    (start end_ : option Id) : option (list Id) :=
  match existingIds with
  | Items ((_ :: _) as items) =>
      let ids :=
        sortedNumbers (map (λ item, Number (item_id item)) items) in
      option_map (map IdNum) (missingBetween fuel ids (ofZ 0) [])
  | Items [] | Ids _ =>
      let ids :=
        match existingIds with Ids ids => ids | Items _ => [] end in
      match start, end_ with
      | None, _ | _, None => Some []
      | Some (IdNum start), Some (IdNum end_) =>
          let numericIds := sortedNumbers (map Number ids) in
          missingInRange fuel numericIds end_ start []
      | Some (IdStr start), Some (IdStr end_) =>
          match charCodeAt0 start, charCodeAt0 end_ with
          | Some startCode, Some endCode =>
              Some (missingChars ids startCode endCode)
          | _, _ => Some []
          end
      | _, _ => Some []
      end
  end.

End FindMissingIds.

(** ** Searching with options, and searching text *)

Section Searching.
Context {R : JsRuntime}.





(** [filteredData.sort(compare)] for the property and the direction; the
    comparator orders mixed values as the engine makes of it. *)
Context (sortBy : string → bool → list DatabaseItem → list DatabaseItem).





(** [search(query, options)]: the text search of the manager;
    [fields] is [options?.fields]. *)
Definition search (query : string) (fields : option (list string))
    (m : IndexedDBManager)
  : IndexedDBManager * Settlement (list DatabaseItem) :=
  match getAllDataFromStore (cfg_store (dbConfig m)) m with
  | (m1, Resolved (Some allData)) =>
      let searchFields := default ["name"; "title"; "description"] fields in
      (m1, Resolved (Some (List.filter
         (λ item,
            existsb (λ field,
                       match getField item field with
                       | VString value =>
                           Str.includes (Str.toLowerCase query)
                                        (Str.toLowerCase value)
                       | _ => false
                       end)
                    searchFields)
         allData)))
  | (m1, Resolved None) => (m1, Rejected (VError "TypeError"))
  | (m1, Rejected reason) => (m1, Rejected reason)
  | (m1, Pending) => (m1, Pending)
  end.

End Searching.

(** ** Facts of ECMAScript numbers the proofs rely on

    Integers up to [2^53] in magnitude are numbers of their own, and
    compare and add exactly; [String(n)] of a number above
    [MAX_SAFE_INTEGER] carries no white space and reads back as [n]. *)

Class JsRuntimeLaws (R : JsRuntime) : Prop := {
  finite_not_nan : ∀ n : number, isFinite n = true → isNaN n = false;
  ltb_not_nan : ∀ a b : number, num_ltb a b = true → isNaN b = false;
  ofZ_finite : ∀ z, Z.abs z ≤ 2 ^ 53 → isFinite (ofZ z) = true;
  ofZ_inj : ∀ a b,
    Z.abs a ≤ 2 ^ 53 → Z.abs b ≤ 2 ^ 53 → ofZ a = ofZ b → a = b;
  ofZ_ltb : ∀ a b,
    Z.abs a ≤ 2 ^ 53 → Z.abs b ≤ 2 ^ 53 → num_ltb (ofZ a) (ofZ b) = (a <? b);
  ofZ_add : ∀ a b,
    Z.abs a ≤ 2 ^ 53 → Z.abs b ≤ 2 ^ 53 → Z.abs (a + b) ≤ 2 ^ 53 →
    num_add (ofZ a) (ofZ b) = ofZ (a + b);
  negInfinity_not_nan : isNaN negInfinity = false;
  negInfinity_least : ∀ n : number,
    isFinite n = true → num_ltb negInfinity n = true;
  toString_trimmed : ∀ n : number,
    num_gtb n MAX_SAFE_INTEGER = true →
    Str.trim (NumberToString n) = NumberToString n
    ∧ Str.isEmpty (NumberToString n) = false;
  toString_reads_back : ∀ n : number,
    num_gtb n MAX_SAFE_INTEGER = true →
    StringToNumber (NumberToString n) = n;
}.

(** ** A runtime of exact integers

    An executable [JsRuntime]: the integers with [NaN] and the two
    infinities.  It reads the decimal integer literals of ECMAScript (with
    sign, leading zeros and surrounding white space) and [Infinity], and
    takes any other text for [NaN]; it agrees with ECMAScript on integers
    up to [2^53] in magnitude. *)

Module IntRuntime.

Inductive num :=
| NaN
| Inf (negative : bool)
| Int (z : Z).

#[global] Instance num_eq_dec : EqDecision num.
Proof. solve_decision. Defined.

#[global] Instance num_countable : Countable num :=
  inj_countable'
    (λ n, match n with
          | NaN => inl ()
          | Inf b => inr (inl b)
          | Int z => inr (inr z)
          end)
    (λ x, match x with
          | inl _ => NaN
          | inr (inl b) => Inf b
          | inr (inr z) => Int z
          end)
    (λ n, match n with NaN | Inf _ | Int _ => eq_refl end).

Definition isNaN (n : num) : bool :=
  match n with NaN => true | _ => false end.

Definition isFinite (n : num) : bool :=
  match n with Int _ => true | _ => false end.

Definition ltb (a b : num) : bool :=
  match a, b with
  | NaN, _ | _, NaN => false
  | Inf true, Inf true => false
  | Inf true, _ => true
  | _, Inf true => false
  | Inf false, _ => false
  | Int _, Inf false => true
  | Int x, Int y => x <? y
  end.

Definition add (a b : num) : num :=
  match a, b with
  | NaN, _ | _, NaN => NaN
  | Inf x, Inf y => if bool_decide (x = y) then Inf x else NaN
  | Inf x, Int _ | Int _, Inf x => Inf x
  | Int x, Int y => Int (x + y)
  end.

Definition parseDigits (s : string) : option Z :=
  option_map (λ d, Z.of_N (N.of_uint d))
             (DecimalString.NilZero.uint_of_string s).

Definition printDigits (n : N) : string :=
  DecimalString.NilZero.string_of_uint (N.to_uint n).

Definition parseUnsigned (negative : bool) (s : string) : num :=
  if bool_decide (s = "Infinity") then Inf negative
  else match parseDigits s with
       | Some z => Int (if negative then - z else z)
       | None => NaN
       end.

Definition parseNumber (s : string) : num :=
  match Str.trim s with
  | EmptyString => Int 0
  | String "+" r => parseUnsigned false r
  | String "-" r => parseUnsigned true r
  | t => parseUnsigned false t
  end.

Definition printNumber (n : num) : string :=
  match n with
  | NaN => "NaN"
  | Inf false => "Infinity"
  | Inf true => "-Infinity"
  | Int z =>
      if z <? 0 then String "-" (printDigits (Z.to_N (- z)))
      else printDigits (Z.to_N z)
  end.

Definition runtime : JsRuntime :=
  Build_JsRuntime num num_eq_dec num_countable
    Int (Inf true) isNaN isFinite ltb add parseNumber printNumber.

End IntRuntime.

(** * Properties *)

(** ** Strings *)

Module StrFacts.
Import Str.

Definition startsNonWhite (s : string) : Prop :=
  match s with
  | EmptyString => True
  | String c _ => isWhiteSpace c = false
  end.

Fixpoint allWhite (s : string) : bool :=
  match s with
  | EmptyString => true
  | String c r => isWhiteSpace c && allWhite r
  end.

Fixpoint noWhite (s : string) : bool :=
  match s with
  | EmptyString => true
  | String c r => negb (isWhiteSpace c) && noWhite r
  end.

Lemma trimStart_startsNonWhite s : startsNonWhite (trimStart s).
Proof.
  induction s as [|c r IH]; simpl; [done|].
  destruct (isWhiteSpace c) eqn:E; [exact IH | exact E].
Qed.

Lemma trimStart_fixed s : startsNonWhite s → trimStart s = s.
Proof. destruct s as [|c r]; simpl; [done|]. by intros ->. Qed.

Lemma trimEnd_startsNonWhite s : startsNonWhite s → startsNonWhite (trimEnd s).
Proof.
  destruct s as [|c r]; simpl; [done|]. intros H.
  destruct (trimEnd r); simpl; [by rewrite H | done].
Qed.

Lemma trimEnd_idem s : trimEnd (trimEnd s) = trimEnd s.
Proof.
  induction s as [|c r IH]; simpl; [done|].
  destruct (trimEnd r) as [|d r'] eqn:E.
  - destruct (isWhiteSpace c) eqn:W; simpl; [done | by rewrite W].
  - change (trimEnd (String c (String d r'))) with
      (match trimEnd (String d r') with
       | EmptyString =>
           if isWhiteSpace c then EmptyString else String c EmptyString
       | r'' => String c r''
       end).
    by rewrite IH.
Qed.

Lemma trim_idem s : trim (trim s) = trim s.
Proof.
  unfold trim.
  rewrite (trimStart_fixed (trimEnd (trimStart s))).
  - apply trimEnd_idem.
  - apply trimEnd_startsNonWhite, trimStart_startsNonWhite.
Qed.

Lemma trim_allWhite s : allWhite s = true → trim s = EmptyString.
Proof.
  unfold trim. induction s as [|c r IH]; simpl; [done|].
  intros [-> H]%andb_true_iff. by apply IH.
Qed.

Lemma trimEnd_noWhite s : noWhite s = true → trimEnd s = s.
Proof.
  induction s as [|c r IH]; simpl; [done|].
  intros [Hc Hr]%andb_true_iff. rewrite (IH Hr).
  destruct r; [|done]. by destruct (isWhiteSpace c).
Qed.

Lemma trim_noWhite s : noWhite s = true → trim s = s.
Proof.
  intros H. unfold trim. rewrite trimStart_fixed.
  - by apply trimEnd_noWhite.
  - destruct s as [|c r]; simpl in *; [done|].
    apply andb_true_iff in H as [Hc _]. by destruct (isWhiteSpace c).
Qed.

Lemma startsWith_spec needle hay :
  startsWith needle hay = true ↔ ∃ post, hay = needle +:+ post.
Proof.
  revert hay. induction needle as [|a n IH]; intros hay; simpl.
  - split; [intros _; by exists hay | done].
  - destruct hay as [|b h].
    + split; [done | intros [post H]; discriminate H].
    + rewrite andb_true_iff, bool_decide_eq_true, IH. split.
      * intros [-> [post ->]]. by exists post.
      * intros [post H]. injection H as -> ->. split; [done | by exists post].
Qed.

Lemma includes_spec needle hay :
  includes needle hay = true ↔ ∃ pre post, hay = pre +:+ needle +:+ post.
Proof.
  induction hay as [|b h IH]; simpl.
  - rewrite orb_false_r, startsWith_spec. split.
    + intros [post H]. by exists EmptyString, post.
    + intros [pre [post H]]. destruct pre; [by exists post | discriminate H].
  - rewrite orb_true_iff, startsWith_spec, IH. split.
    + intros [[post H] | [pre [post H]]].
      * by exists EmptyString, post.
      * exists (String b pre), post. simpl. by rewrite H.
    + intros [pre [post H]]. destruct pre as [|c pre]; simpl in H.
      * left. by exists post.
      * right. injection H as -> ->. by exists pre, post.
Qed.

End StrFacts.

(** ** The promise of [executeTransaction] *)

Section CoordinatorFacts.
Context {R : JsRuntime} {T : Type}.
Implicit Types (s : Sync T) (sig : Signal T) (ss : list (Signal T)).

Lemma settled_checkCompletion s :
  settled (checkCompletion s) =
  match settled s with
  | Pending =>
      if isCallbackDone s && isTransactionDone s then
        if truthy (callbackError s) then Rejected (callbackError s)
        else Resolved (callbackResult s)
      else Pending
  | st => st
  end.
Proof.
  unfold checkCompletion, reject, resolve.
  destruct (isCallbackDone s && isTransactionDone s), (truthy (callbackError s));
    destruct (settled s) eqn:E; simpl; by rewrite ?E.
Qed.

Lemma fields_checkCompletion s :
  callbackResult (checkCompletion s) = callbackResult s
  ∧ callbackError (checkCompletion s) = callbackError s
  ∧ isCallbackDone (checkCompletion s) = isCallbackDone s
  ∧ isTransactionDone (checkCompletion s) = isTransactionDone s
  ∧ abortCalls (checkCompletion s) = abortCalls s.
Proof.
  unfold checkCompletion, reject, resolve.
  destruct (isCallbackDone s && isTransactionDone s), (truthy (callbackError s));
    destruct (settled s); done.
Qed.

Lemma settled_reject reason s :
  settled (reject reason s) =
  match settled s with Pending => Rejected reason | st => st end.
Proof. unfold reject. destruct (settled s) eqn:E; simpl; by rewrite ?E. Qed.

Lemma fields_reject reason s :
  callbackResult (reject reason s) = callbackResult s
  ∧ callbackError (reject reason s) = callbackError s
  ∧ isCallbackDone (reject reason s) = isCallbackDone s
  ∧ isTransactionDone (reject reason s) = isTransactionDone s
  ∧ abortCalls (reject reason s) = abortCalls s.
Proof. unfold reject. destruct (settled s); done. Qed.

(** Once settled, the promise keeps its outcome whatever arrives. *)
Lemma step_settled_stable abortAvailable s sig :
  isSettled (settled s) = true →
  settled (step abortAvailable s sig) = settled s.
Proof.
  intros H. destruct sig; simpl;
    unfold onFulfilled, onRejected, oncomplete, onerror, onabort;
    try destruct abortAvailable; simpl;
    rewrite ?settled_checkCompletion, ?settled_reject; simpl;
    destruct (settled s); done.
Qed.

Lemma run_settled_stable abortAvailable ss s :
  isSettled (settled s) = true →
  settled (run abortAvailable s ss) = settled s.
Proof.
  revert s. induction ss as [|sig ss IH]; intros s H; [done|].
  change (settled (run abortAvailable (step abortAvailable s sig) ss)
          = settled s).
  rewrite IH.
  - by apply step_settled_stable.
  - by rewrite step_settled_stable.
Qed.

Lemma run_app abortAvailable s ss ss' :
  run abortAvailable s (ss ++ ss') =
  run abortAvailable (run abortAvailable s ss) ss'.
Proof. apply fold_left_app. Qed.

(** Never both: a settlement is final, under any further signals. *)
Lemma settles_at_most_once abortAvailable c ss ss' :
  isSettled (settled (run abortAvailable (start abortAvailable c) ss)) = true →
  settled (run abortAvailable (start abortAvailable c) (ss ++ ss')) =
  settled (run abortAvailable (start abortAvailable c) ss).
Proof. intros H. rewrite run_app. by apply run_settled_stable. Qed.

(** A transaction error or abort signal settles the promise. *)
Lemma engine_failure_settles abortAvailable s ss error :
  In (TxAbort error) ss ∨ In (TxError error) ss →
  isSettled (settled (run abortAvailable s ss)) = true.
Proof.
  revert s. induction ss as [|sig ss IH]; intros s H.
  - destruct H as [[]|[]].
  - change (isSettled (settled (run abortAvailable
                                    (step abortAvailable s sig) ss)) = true).
    destruct (decide (isSettled (settled (step abortAvailable s sig)) = true))
      as [Hs|Hs].
    + by rewrite run_settled_stable.
    + apply IH. destruct H as [[->|H]|[->|H]]; [|by left| |by right];
        exfalso; apply Hs; simpl; unfold onabort, onerror;
        rewrite settled_reject; by destruct (settled s).
Qed.

(** What the flags and a resolution say about the signals received. *)
Record Justified ss s : Prop := {
  just_result : ∀ result,
    callbackResult s = Some result → In (CallbackFulfilled result) ss;
  just_value : existsb isFalsyRejection ss = false →
    isCallbackDone s = true → truthy (callbackError s) = false →
    is_Some (callbackResult s);
  just_transaction : isTransactionDone s = true → In TxComplete ss;
  just_callback : isCallbackDone s = true →
    existsb isCallbackSignal ss = true;
  just_resolved : ∀ value,
    settled s = Resolved value →
    In TxComplete ss ∧ existsb isCallbackSignal ss = true
    ∧ (existsb isFalsyRejection ss = false →
       ∃ result, value = Some result ∧ In (CallbackFulfilled result) ss);
}.

Lemma justified_start abortAvailable c : Justified [] (start abortAvailable c).
Proof. destruct c, abortAvailable; split; simpl; try done. Qed.

Lemma justified_checkCompletion ss s :
  Justified ss s → Justified ss (checkCompletion s).
Proof.
  intros [J1 J2 J3 J4 J5].
  destruct (fields_checkCompletion s) as (E1 & E2 & E3 & E4 & _).
  split; rewrite ?E1, ?E2, ?E3, ?E4; try done.
  intros value. rewrite settled_checkCompletion.
  destruct (settled s) eqn:Es; [|apply J5|done].
  destruct (isCallbackDone s) eqn:Hc, (isTransactionDone s) eqn:Ht;
    simpl; try done.
  destruct (truthy (callbackError s)) eqn:He; [done|].
  intros [= <-]. split_and!; [by apply J3 | by apply J4 |].
  intros Hf. destruct (J2 Hf eq_refl eq_refl) as [result Hr].
  exists result. split; [done | by apply J1].
Qed.

Lemma justified_weaken ss sig s :
  Justified ss s → Justified (ss ++ [sig]) s.
Proof.
  intros [J1 J2 J3 J4 J5].
  assert (Hin : ∀ x, In x ss → In x (ss ++ [sig]))
    by (intros; apply in_or_app; by left).
  assert (Hcb : existsb isCallbackSignal ss = true →
                existsb isCallbackSignal (ss ++ [sig]) = true)
    by (intros H; by rewrite existsb_app, H).
  assert (Hf : existsb isFalsyRejection (ss ++ [sig]) = false →
               existsb isFalsyRejection ss = false)
    by (rewrite existsb_app; by intros [? _]%orb_false_iff).
  split; eauto.
  intros value Hv. destruct (J5 value Hv) as (H1 & H2 & H3).
  split_and!; eauto.
  intros Hn. destruct (H3 (Hf Hn)) as (result & -> & Hr). eauto.
Qed.

Lemma justified_step abortAvailable ss s sig :
  Justified ss s → Justified (ss ++ [sig]) (step abortAvailable s sig).
Proof.
  intros J. pose proof (justified_weaken ss sig s J) as [J1 J2 J3 J4 J5].
  assert (Hlast : In sig (ss ++ [sig])) by (apply in_or_app; right; by left).
  destruct sig; simpl.
  - apply justified_checkCompletion. split; simpl; eauto.
    + by intros ? [= <-].
    + intros _. rewrite existsb_app. simpl. by rewrite orb_true_r.
  - assert (Justified (ss ++ [CallbackRejected err])
              {| callbackResult := callbackResult s; callbackError := err;
                 isCallbackDone := true;
                 isTransactionDone := isTransactionDone s;
                 settled := settled s; abortCalls := abortCalls s |}) as J'.
    { split; simpl; eauto.
      - rewrite existsb_app. simpl. rewrite orb_false_r.
        intros [_ H]%orb_false_iff H' He. rewrite He in H. done.
      - intros _. rewrite existsb_app. simpl. by rewrite orb_true_r. }
    unfold onRejected. destruct abortAvailable.
    + destruct J' as [K1 K2 K3 K4 K5]. split; simpl; eauto.
    + by apply justified_checkCompletion.
  - apply justified_checkCompletion. split; simpl; eauto.
  - unfold onerror.
    destruct (fields_reject error s) as (E1 & E2 & E3 & E4 & _).
    split; rewrite ?E1, ?E2, ?E3, ?E4; eauto.
    intros value. rewrite settled_reject.
    destruct (settled s) eqn:Es; [done| |done]. intros [= <-]. by apply J5.
  - unfold onabort.
    destruct (fields_reject
                (if truthy error then error else VError "Transaction aborted") s)
      as (E1 & E2 & E3 & E4 & _).
    split; rewrite ?E1, ?E2, ?E3, ?E4; eauto.
    intros value. rewrite settled_reject.
    destruct (settled s) eqn:Es; [done| |done]. intros [= <-]. by apply J5.
Qed.

Lemma justified_run abortAvailable c ss :
  Justified ss (run abortAvailable (start abortAvailable c) ss).
Proof.
  induction ss as [|sig ss IH] using rev_ind.
  - apply justified_start.
  - rewrite run_app. simpl. by apply justified_step.
Qed.

Lemma abortCalls_onRejected abortAvailable err s :
  abortCalls (onRejected abortAvailable err s) =
  if abortAvailable then S (abortCalls s) else abortCalls s.
Proof.
  unfold onRejected. destruct abortAvailable; simpl; [done|].
  by destruct (fields_checkCompletion
    {| callbackResult := callbackResult s; callbackError := err;
       isCallbackDone := true; isTransactionDone := isTransactionDone s;
       settled := settled s; abortCalls := abortCalls s |})
    as (_ & _ & _ & _ & ->).
Qed.

End CoordinatorFacts.

Section CoordinatorLiveness.
Context {R : JsRuntime} {T : Type}.
Implicit Types (s : Sync T) (sig : Signal T) (ss : list (Signal T)).

Lemma step_keeps_flags abortAvailable s sig :
  (isCallbackDone s = true →
   isCallbackDone (step abortAvailable s sig) = true)
  ∧ (isTransactionDone s = true →
     isTransactionDone (step abortAvailable s sig) = true).
Proof.
  destruct sig; simpl;
    unfold onFulfilled, onRejected, oncomplete, onerror, onabort;
    try destruct abortAvailable; simpl;
    repeat match goal with
           | |- context [checkCompletion ?x] =>
               destruct (fields_checkCompletion x) as (_ & _ & -> & -> & _)
           | |- context [reject ?e ?x] =>
               destruct (fields_reject e x) as (_ & _ & -> & -> & _)
           end; simpl; done.
Qed.

Lemma complete_after_callback abortAvailable ss s :
  isCallbackDone s = true → In TxComplete ss →
  isSettled (settled (run abortAvailable s ss)) = true.
Proof.
  revert s. induction ss as [|sig ss IH]; intros s Hc Hin; [done|].
  change (isSettled (settled (run abortAvailable
                                  (step abortAvailable s sig) ss)) = true).
  destruct Hin as [->|Hin].
  - rewrite run_settled_stable; simpl; unfold oncomplete;
      rewrite settled_checkCompletion; simpl; rewrite Hc; simpl;
      destruct (settled s), (truthy (callbackError s)); done.
  - apply IH; [|done]. by apply step_keeps_flags.
Qed.

Lemma fulfilment_after_complete abortAvailable ss s result :
  isTransactionDone s = true → In (CallbackFulfilled result) ss →
  isSettled (settled (run abortAvailable s ss)) = true.
Proof.
  revert s. induction ss as [|sig ss IH]; intros s Ht Hin; [done|].
  change (isSettled (settled (run abortAvailable
                                  (step abortAvailable s sig) ss)) = true).
  destruct Hin as [->|Hin].
  - rewrite run_settled_stable; simpl; unfold onFulfilled;
      rewrite settled_checkCompletion; simpl; rewrite Ht; simpl;
      destruct (settled s), (truthy (callbackError s)); done.
  - apply IH; [|done]. by apply step_keeps_flags.
Qed.

(** The join: a fulfilled callback and a completed commit settle the
    promise, in whichever order they arrive and whatever else arrives. *)
Lemma fulfilment_and_complete_settle abortAvailable ss s result :
  In (CallbackFulfilled result) ss → In TxComplete ss →
  isSettled (settled (run abortAvailable s ss)) = true.
Proof.
  revert s. induction ss as [|sig ss IH]; intros s Hf Hc; [done|].
  change (isSettled (settled (run abortAvailable
                                  (step abortAvailable s sig) ss)) = true).
  destruct Hf as [->|Hf].
  - destruct Hc as [Hc|Hc]; [done|].
    apply complete_after_callback; [|done]. simpl. unfold onFulfilled.
    by destruct (fields_checkCompletion
      {| callbackResult := Some result; callbackError := callbackError s;
         isCallbackDone := true; isTransactionDone := isTransactionDone s;
         settled := settled s; abortCalls := abortCalls s |})
      as (_ & _ & -> & _).
  - destruct Hc as [->|Hc]; [|by apply IH].
    apply (fulfilment_after_complete _ _ _ result); [|done].
    simpl. unfold oncomplete.
    by destruct (fields_checkCompletion
      {| callbackResult := callbackResult s;
         callbackError := callbackError s;
         isCallbackDone := isCallbackDone s; isTransactionDone := true;
         settled := settled s; abortCalls := abortCalls s |})
      as (_ & _ & _ & -> & _).
Qed.

End CoordinatorLiveness.

(** *** Claims on the coordination protocol *)

(** C1 (exactly one settlement for every ordering of the signals).
    The code settles at most once ([settles_at_most_once]) but not always
    once: when the commit-completed signal arrives first and the
    unit-of-work fails afterwards, the catch handler records the error and
    calls [transaction.abort()] without calling [checkCompletion]; a
    completed transaction fires no abort, so both flags are set and the
    promise stays pending for good. *)
Theorem executeTransaction_pending_when_failure_follows_commit
    {R : JsRuntime} {T : Type} (err : JsValue) :
  let s := run (T := T) true (start true Returned)
               [TxComplete; CallbackRejected err] in
  settled s = Pending
  ∧ isCallbackDone s = true ∧ isTransactionDone s = true
  ∧ callbackError s = err ∧ abortCalls s = 1%nat.
Proof. done. Qed.

(** C2 (no successful resolution before the unit-of-work has produced
    its value and the commit has completed; a failure aborts).  The code
    waits for both signals, in either order, and a failing unit-of-work
    makes it call [transaction.abort()] without settling by itself.  But
    the promise does resolve without a value of the unit-of-work: when the
    unit-of-work's promise rejects with a falsy reason and the
    commit-completed signal still arrives, as it does when [abort()] came
    too late to stop the commit, [checkCompletion] tests the recorded
    reason instead of the fact that one was recorded, and resolves with
    the [undefined] that [callbackResult] still holds.  With a truthy
    reason the same signals reject with it.  That is the only way to a
    resolution without a produced value. *)
Theorem executeTransaction_resolves_after_falsy_failure
    {R : JsRuntime} {T : Type} :
  let s := run (T := T) true (start true Returned)
               [CallbackRejected VUndefined; TxComplete] in
  (settled s = Resolved None
   ∧ callbackResult s = None ∧ callbackError s = VUndefined
   ∧ isCallbackDone s = true ∧ isTransactionDone s = true
   ∧ abortCalls s = 1%nat)
  ∧ (∀ err,
       settled (run (T := T) true (start true Returned)
                    [CallbackRejected err; TxComplete])
       = if truthy err then Rejected err else Resolved None)
  ∧ (∀ abortAvailable c (ss : list (Signal T)) value,
       settled (run abortAvailable (start abortAvailable c) ss)
       = Resolved value →
       c = Returned
       ∧ In TxComplete ss
       ∧ existsb isCallbackSignal ss = true
       ∧ ((∃ result, value = Some result ∧ In (CallbackFulfilled result) ss)
          ∨ existsb isFalsyRejection ss = true))
  ∧ (∀ result : T,
       settled (run true (start true Returned) [CallbackFulfilled result])
       = Pending
       ∧ settled (run (T := T) true (start true Returned) [TxComplete])
         = Pending
       ∧ settled (run true (start true Returned)
                      [CallbackFulfilled result; TxComplete])
         = Resolved (Some result)
       ∧ settled (run true (start true Returned)
                      [TxComplete; CallbackFulfilled result])
         = Resolved (Some result))
  ∧ (∀ (s' : Sync T) err,
       abortCalls (step true s' (CallbackRejected err)) = S (abortCalls s')
       ∧ settled (step true s' (CallbackRejected err)) = settled s')
  ∧ (∀ error,
       settled (start (T := T) true (Threw error)) = Rejected error
       ∧ abortCalls (start (T := T) true (Threw error)) = 1%nat).
Proof.
  intros s. split_and!; try done.
  - intros err. simpl. unfold oncomplete.
    rewrite settled_checkCompletion. simpl. by destruct (truthy err).
  - intros abortAvailable c ss value Hv.
    destruct (justified_run abortAvailable c ss) as [_ _ _ _ J].
    destruct (J value Hv) as (H1 & H2 & H3). split_and!; try done.
    + destruct c as [|error]; [done|]. exfalso.
      rewrite run_settled_stable in Hv.
      * simpl in Hv. destruct abortAvailable; discriminate Hv.
      * by destruct abortAvailable.
    + destruct (existsb isFalsyRejection ss); [by right|].
      left. by apply H3.
Qed.

(** C3 (a failing unit-of-work rejects with its own error).  The code
    does so only when the callback throws synchronously.  When the
    callback's promise rejects and [abort] is available, the recorded
    [callbackError] is never read: the abort handler rejects with
    [transaction.error], which is null after an explicit [abort()], hence
    with the generic error, whatever the unit-of-work raised. *)
Theorem executeTransaction_rejection_loses_callback_error
    {R : JsRuntime} {T : Type} (err : JsValue) :
  let s := run (T := T) true (start true Returned)
               [CallbackRejected err; TxAbort VNull] in
  settled s = Rejected (VError "Transaction aborted")
  ∧ callbackError s = err
  ∧ settled (start (T := T) true (Threw err)) = Rejected err.
Proof. done. Qed.

(** ** Identifiers *)

Section IdentifierFacts.
Context {R : JsRuntime}.

Lemma normalizeId_idem {L : JsRuntimeLaws R} (x : Id) :
  normalizeId (normalizeId x) = normalizeId x.
Proof.
  destruct x as [s|n]; simpl.
  - destruct (Str.isEmpty (Str.trim s)) eqn:E; simpl; [by rewrite E|].
    destruct (isNaN (StringToNumber (Str.trim s))) eqn:N; simpl.
    + by rewrite StrFacts.trim_idem, E, N.
    + destruct (num_gtb (StringToNumber (Str.trim s)) MAX_SAFE_INTEGER) eqn:G;
        simpl; [by rewrite StrFacts.trim_idem, E, N, G | by rewrite G].
  - destruct (num_gtb n MAX_SAFE_INTEGER) eqn:G; simpl; [|by rewrite G].
    destruct (toString_trimmed n G) as [-> ->].
    rewrite (toString_reads_back n G), (ltb_not_nan _ _ G). simpl.
    by rewrite G.
Qed.

(** A numeric string within the safe range becomes its number. *)
Lemma normalizeId_numeric_string (s : string) :
  Str.isEmpty (Str.trim s) = false →
  isNaN (StringToNumber (Str.trim s)) = false →
  num_gtb (StringToNumber (Str.trim s)) MAX_SAFE_INTEGER = false →
  normalizeId (IdStr s) = IdNum (StringToNumber (Str.trim s))
  ∧ normalizeId (IdNum (StringToNumber (Str.trim s))) =
    IdNum (StringToNumber (Str.trim s)).
Proof. intros E N G. simpl. by rewrite E, N, G. Qed.

(** The key of a valid identifier is a key the engine accepts. *)
Lemma normalizeId_validKey {L : JsRuntimeLaws R} (id : JsValue) (i : Id) :
  validId id = Some i → validKey (normalizeId i) = true.
Proof.
  unfold validId. destruct (isValidId id) eqn:V; [|done].
  destruct id; try done; intros [= <-]; simpl in *.
  - destruct (num_gtb n MAX_SAFE_INTEGER); simpl; [done|].
    by rewrite (finite_not_nan n V).
  - destruct (Str.isEmpty (Str.trim s)); [done|].
    destruct (isNaN (StringToNumber (Str.trim s))) eqn:N; simpl; [done|].
    destruct (num_gtb _ _); simpl; [done | by rewrite N].
Qed.

(** The identifiers that C10 calls invalid, in its words. *)
Inductive InvalidIdentifier : JsValue → Prop :=
| invalid_null : InvalidIdentifier VNull
| invalid_undefined : InvalidIdentifier VUndefined
| invalid_blank (s : string) :
    StrFacts.allWhite s = true → InvalidIdentifier (VString s)
| invalid_not_finite (n : number) :
    isFinite n = false → InvalidIdentifier (VNumber n)
| invalid_other (v : JsValue) :
    (∀ s, v ≠ VString s) → (∀ n, v ≠ VNumber n) → InvalidIdentifier v.

Lemma trimEnd_empty_allWhite s :
  Str.trimEnd s = EmptyString → StrFacts.allWhite s = true.
Proof.
  induction s as [|c r IH]; simpl; [done|].
  destruct (Str.trimEnd r); [|done].
  destruct (Str.isWhiteSpace c); [|done]. intros _. by apply IH.
Qed.

Lemma trim_empty_allWhite s :
  Str.trim s = EmptyString → StrFacts.allWhite s = true.
Proof.
  unfold Str.trim. intros H%trimEnd_empty_allWhite.
  induction s as [|c r IH]; simpl in *; [done|].
  destruct (Str.isWhiteSpace c) eqn:W; simpl; [by apply IH|].
  simpl in H. by rewrite W in H.
Qed.

Lemma isValidId_false_iff (id : JsValue) :
  isValidId id = false ↔ InvalidIdentifier id.
Proof.
  split.
  - destruct id; simpl; intros H; try by constructor.
    + apply invalid_blank, trim_empty_allWhite.
      by destruct (Str.trim s).
  - intros [| |s H|n H|v Hs Hn]; simpl; try done.
    + by rewrite (StrFacts.trim_allWhite s H).
    + destruct v; try done; [by destruct (Hn n) | by destruct (Hs s)].
Qed.

Lemma validId_None_iff (id : JsValue) :
  validId id = None ↔ isValidId id = false.
Proof.
  unfold validId. destruct (isValidId id) eqn:V; [|done].
  destruct id; done.
Qed.

End IdentifierFacts.

(** C8, amended (idempotence of [normalizeId]).  Normalising twice is
    normalising once, for every string and every number.  A numeric string
    whose value does not exceed [Number.MAX_SAFE_INTEGER] normalises to its
    number, which is the key of that number too; above that bound the code
    keeps the trimmed spelling of the string and turns the number into
    [String(n)]. *)
Theorem normalizeId_idempotent {R : JsRuntime} {L : JsRuntimeLaws R} :
  (∀ x : Id, normalizeId (normalizeId x) = normalizeId x)
  ∧ (∀ s : string,
       Str.isEmpty (Str.trim s) = false →
       isNaN (StringToNumber (Str.trim s)) = false →
       num_gtb (StringToNumber (Str.trim s)) MAX_SAFE_INTEGER = false →
       normalizeId (IdStr s) =
       normalizeId (IdNum (StringToNumber (Str.trim s)))).
Proof.
  split; [apply normalizeId_idem|].
  intros s E N G.
  destruct (normalizeId_numeric_string s E N G) as [-> ->]. done.
Qed.

(** C10 (an invalid identifier reads as null, untouched).
    [getDataByIdFromStore] answers null for every invalid identifier and
    hands the manager back as it was: no [indexedDB.open], no
    transaction, no change to any store or to the emitted events. *)
Theorem getDataByIdFromStore_invalid_id {R : JsRuntime}
    (storeName : string) (id : JsValue) (m : IndexedDBManager) :
  InvalidIdentifier id →
  getDataByIdFromStore storeName id m = (m, Resolved (Some None)).
Proof.
  intros H%isValidId_false_iff%validId_None_iff.
  unfold getDataByIdFromStore. by rewrite H.
Qed.

(** ** Search criteria *)

Section SearchFacts.
Context {R : JsRuntime}.

(** The rule of C9, in its words. *)
Definition statusTokens : list string :=
  ["active"; "inactive"; "pending"; "draft"; "published"; "archived"].

Definition isStatusToken (value : string) : Prop :=
  Str.toLowerCase value ∈ statusTokens.

Definition containsSeparator (value : string) : Prop :=
  ∃ pre post, value = pre +:+ "." +:+ post.

Definition substringIgnoringCase (needle hay : string) : Prop :=
  ∃ pre post, Str.toLowerCase hay = pre +:+ Str.toLowerCase needle +:+ post.

Definition equalIgnoringCase (a b : string) : Prop :=
  Str.toLowerCase a = Str.toLowerCase b.

Definition stringCriterionRule (value field : string) : Prop :=
  (containsSeparator value ∧ ¬ isStatusToken value
   ∧ substringIgnoringCase value field)
  ∨ (¬ (containsSeparator value ∧ ¬ isStatusToken value)
     ∧ equalIgnoringCase field value).

(** The text the criterion is matched against: [String(item[key] || '')]. *)
Definition fieldText (item : DatabaseItem) (key : string) : string :=
  ToString (if truthy (getField item key) then getField item key
            else VString EmptyString).

Lemma criterionMatches_string (item : DatabaseItem) (key value : string) :
  criterionMatches item key (VString value) = true ↔
  stringCriterionRule value (fieldText item key).
Proof.
  unfold criterionMatches, stringCriterionRule. fold (fieldText item key).
  assert (Hdot : Str.includes "." value = true ↔ containsSeparator value)
    by apply StrFacts.includes_spec.
  assert (Htok : bool_decide (Str.toLowerCase value ∈ commonExactValues) = true
                 ↔ isStatusToken value) by apply bool_decide_eq_true.
  destruct (Str.includes "." value) eqn:D;
    destruct (bool_decide (Str.toLowerCase value ∈ commonExactValues)) eqn:K;
    simpl.
  - rewrite bool_decide_eq_true. split.
    + intros H. right. split; [|done]. intros [_ Hn]. apply Hn. by apply Htok.
    + intros [(_ & Hn & _)|[_ H]]; [|done]. destruct Hn. by apply Htok.
  - rewrite StrFacts.includes_spec. split.
    + intros H. left. split_and!; [by apply Hdot | | done].
      intros Ht%Htok. done.
    + intros [(_ & _ & H)|[Hn _]]; [done|]. destruct Hn. split.
      * by apply Hdot.
      * intros Ht%Htok. done.
  - rewrite bool_decide_eq_true. split.
    + intros H. right. split; [|done]. intros [Hc%Hdot _]. done.
    + intros [(Hc%Hdot & _)|[_ H]]; done.
  - rewrite bool_decide_eq_true. split.
    + intros H. right. split; [|done]. intros [Hc%Hdot _]. done.
    + intros [(Hc%Hdot & _)|[_ H]]; done.
Qed.

(** No status token contains the separator. *)
Lemma statusToken_no_separator (value : string) :
  isStatusToken value → Str.includes "." (Str.toLowerCase value) = false.
Proof.
  unfold isStatusToken, statusTokens. intros H.
  repeat (apply elem_of_cons in H as [->|H]; [done|]).
  by apply elem_of_nil in H.
Qed.

Lemma matchesQuery_single (item : DatabaseItem) (key : string) (value : JsValue) :
  matchesQuery {| partial_id := VUndefined; partial_props := {[key := value]} |}
               item
  = criterionMatches item key value.
Proof.
  unfold matchesQuery, entries. simpl.
  rewrite map_to_list_singleton. simpl. apply andb_true_r.
Qed.

(** What a criterion of any kind asks of a record: nothing when the
    value is null or undefined, the rule when it is a string, strict
    equality with the field otherwise. *)
Definition criterionHolds (item : DatabaseItem) (key : string)
    (value : JsValue) : Prop :=
  match value with
  | VUndefined | VNull => True
  | VString value => stringCriterionRule value (fieldText item key)
  | other => strictEquals (getField item key) other = true
  end.

Lemma criterionMatches_holds (item : DatabaseItem) (key : string)
    (value : JsValue) :
  criterionMatches item key value = true ↔ criterionHolds item key value.
Proof.
  destruct value; try done.
  apply criterionMatches_string.
Qed.

Lemma matchesQuery_holds (query : PartialItem) (item : DatabaseItem) :
  matchesQuery query item = true ↔
  ∀ key value, In (key, value) (entries query) → criterionHolds item key value.
Proof.
  unfold matchesQuery. rewrite forallb_forall. split.
  - intros H key value Hin. apply criterionMatches_holds. exact (H _ Hin).
  - intros H [key value] Hin. simpl. apply criterionMatches_holds. by apply H.
Qed.

Lemma entries_single (key : string) (value : JsValue) :
  entries {| partial_id := VUndefined; partial_props := {[key := value]} |}
  = [(key, value)].
Proof. unfold entries. simpl. by rewrite map_to_list_singleton. Qed.

End SearchFacts.

(** C9 (how a string criterion of [searchDataInStore] matches).  With a
    query that has a criterion, [searchDataInStore] resolves to the
    records of the store, in the store's order, that meet every
    criterion, and to their number.  A string criterion is met exactly
    when the rule holds of the record's field read as text,
    [String(item[key] || '')]: a case-insensitive substring match when
    the value contains ['.'] and is not a status token, a
    case-insensitive equality otherwise.  So the query of one string
    criterion returns exactly the records of the store that the rule
    accepts. *)
Theorem searchDataInStore_string_criterion {R : JsRuntime}
    (storeName : string) (query : PartialItem) (m m1 : IndexedDBManager)
    (allData : list DatabaseItem) :
  getAllDataFromStore storeName m = (m1, Resolved (Some allData)) →
  entries query ≠ [] →
  ∃ result,
    searchDataInStore storeName query m = (m1, Resolved (Some result))
    ∧ items result = List.filter (matchesQuery query) allData
    ∧ total result = length (items result)
    ∧ (∀ item,
         In item (items result) ↔
         In item allData
         ∧ ∀ key value, In (key, value) (entries query) →
                        criterionHolds item key value)
    ∧ (∀ key value,
         query = {| partial_id := VUndefined;
                    partial_props := {[key := VString value]} |} →
         ∀ item,
           In item (items result) ↔
           In item allData ∧ stringCriterionRule value (fieldText item key))
    ∧ (∀ item key value,
         criterionMatches item key (VString value) = true ↔
         stringCriterionRule value (fieldText item key))
    ∧ (∀ item key value,
         matchesQuery {| partial_id := VUndefined;
                         partial_props := {[key := VString value]} |} item
         = true ↔
         stringCriterionRule value (fieldText item key)).
Proof.
  intros Hall Hne. unfold searchDataInStore. rewrite Hall.
  destruct (length (entries query) =? 0)%nat eqn:E.
  { apply Nat.eqb_eq in E. by destruct (entries query). }
  eexists. split; [reflexivity|]. simpl. split_and!; try done.
  - intros item. rewrite filter_In. by rewrite matchesQuery_holds.
  - intros key value -> item. rewrite filter_In, matchesQuery_holds.
    rewrite entries_single. split.
    + intros [Hin H]. split; [done|]. apply (H key (VString value)). by left.
    + intros [Hin H]. split; [done|]. by intros k v [[= <- <-]|[]].
  - intros item key value. apply criterionMatches_string.
  - intros item key value. rewrite matchesQuery_single.
    apply criterionMatches_string.
Qed.

(** ** Identifier generation *)

Section GenerateFacts.
Context {R : JsRuntime} {L : JsRuntimeLaws R}.

Definition numericIdsOf (items : list DatabaseItem) : list number :=
  sortNumbers
    (filter (λ n, Is_true (isNumericId n))
            (map (λ item, Number (item_id item)) items)).

Lemma ofZ_numeric z : Z.abs z ≤ 2 ^ 53 → isNumericId (ofZ z) = true.
Proof.
  intros H. unfold isNumericId.
  by rewrite (finite_not_nan _ (ofZ_finite z H)), (ofZ_finite z H).
Qed.

Lemma ofZ_not_nan z : Z.abs z ≤ 2 ^ 53 → isNaN (ofZ z) = false.
Proof. intros H. apply finite_not_nan. by apply ofZ_finite. Qed.

Lemma sortNumbers_In (l : list number) (x : number) :
  In x (sortNumbers l) ↔ In x l.
Proof.
  unfold sortNumbers. split; apply Permutation_in;
    [|symmetry]; apply merge_sort_Permutation.
Qed.

Lemma sortNumbers_length (l : list number) :
  length (sortNumbers l) = length l.
Proof. apply Permutation_length, merge_sort_Permutation. Qed.

Lemma numericIdsOf_In (items : list DatabaseItem) (n : number) :
  In n (numericIdsOf items) ↔
  isNumericId n = true ∧ ∃ item, In item items ∧ Number (item_id item) = n.
Proof.
  unfold numericIdsOf. rewrite sortNumbers_In, <- list_elem_of_In.
  rewrite list_elem_of_filter, list_elem_of_In, in_map_iff.
  rewrite Is_true_true. split.
  - intros [Hn (item & E & Hi)]. split; [done|]. by exists item.
  - intros [Hn (item & Hi & E)]. split; [done|]. by exists item.
Qed.

Lemma numericIdsOf_length (items : list DatabaseItem) :
  (length (numericIdsOf items) ≤ length items)%nat.
Proof.
  unfold numericIdsOf. rewrite sortNumbers_length.
  etrans; [apply length_filter|]. by rewrite length_map.
Qed.

(** An integer that is not among the numeric ids is the [Number] of no id. *)
Lemma not_numeric_fresh (items : list DatabaseItem) (k : Z) :
  Z.abs k ≤ 2 ^ 53 → ¬ In (ofZ k) (numericIdsOf items) →
  ∀ item, In item items → Number (item_id item) ≠ ofZ k.
Proof.
  intros Hk Hn item Hi E. apply Hn, numericIdsOf_In.
  split; [by apply ofZ_numeric | by exists item].
Qed.

Lemma arrayIncludes_false (l : list number) (x : number) :
  arrayIncludes l x = false → ¬ In x l.
Proof.
  unfold arrayIncludes. intros H Hin.
  assert (existsb (sameValueZero x) l = true) as E; [|by rewrite E in H].
  apply existsb_exists. exists x. split; [done|].
  unfold sameValueZero. rewrite bool_decide_true by done. apply orb_true_r.
Qed.

Lemma arrayIncludes_true (l : list number) (z : Z) :
  Z.abs z ≤ 2 ^ 53 → arrayIncludes l (ofZ z) = true → In (ofZ z) l.
Proof.
  unfold arrayIncludes, sameValueZero. intros Hz.
  rewrite existsb_exists. intros (y & Hy & E).
  rewrite (ofZ_not_nan z Hz) in E. simpl in E.
  apply bool_decide_eq_true in E. by subst.
Qed.

Lemma firstGap_Some (l : list number) (fuel : nat) (i0 i : Z) :
  firstGap l i0 fuel = Some i →
  i0 ≤ i < i0 + Z.of_nat fuel ∧ arrayIncludes l (ofZ i) = false.
Proof.
  revert i0. induction fuel as [|fuel IH]; intros i0; simpl; [done|].
  destruct (arrayIncludes l (ofZ i0)) eqn:E; simpl.
  - intros [H1 H2]%IH. split; [lia | done].
  - intros [= <-]. split; [lia | done].
Qed.

Lemma firstGap_None (l : list number) (fuel : nat) (i0 : Z) :
  firstGap l i0 fuel = None →
  ∀ i, i0 ≤ i < i0 + Z.of_nat fuel → arrayIncludes l (ofZ i) = true.
Proof.
  revert i0. induction fuel as [|fuel IH]; intros i0; simpl; [lia|].
  destruct (arrayIncludes l (ofZ i0)) eqn:E; simpl; [|done].
  intros H i Hi. destruct (decide (i = i0)) as [->|Hne]; [done|].
  apply (IH (i0 + 1)); [done | lia].
Qed.

Lemma max2_ofZ (a b : Z) :
  Z.abs a ≤ 2 ^ 53 → Z.abs b ≤ 2 ^ 53 → max2 (ofZ a) (ofZ b) = ofZ (Z.max a b).
Proof.
  intros Ha Hb. unfold max2.
  rewrite (ofZ_not_nan a Ha), (ofZ_not_nan b Hb), (ofZ_ltb a b Ha Hb).
  destruct (Z.ltb_spec a b); f_equal; lia.
Qed.

Lemma fold_max2_ofZ (zs : list Z) (a : Z) :
  Z.abs a ≤ 2 ^ 53 → Forall (λ z, Z.abs z ≤ 2 ^ 53) zs →
  fold_left max2 (map ofZ zs) (ofZ a) = ofZ (fold_left Z.max zs a).
Proof.
  revert a. induction zs as [|z zs IH]; intros a Ha Hzs; simpl; [done|].
  apply Forall_cons in Hzs as [Hz Hzs].
  rewrite max2_ofZ by done. apply IH; [lia | done].
Qed.

Lemma fold_Zmax_bounds (zs : list Z) (a top : Z) :
  a ≤ top → Forall (λ z, z ≤ top) zs → (a = top ∨ In top zs) →
  fold_left Z.max zs a = top.
Proof.
  revert a. induction zs as [|z zs IH]; intros a Ha Hzs Hin; simpl.
  - by destruct Hin as [?|[]].
  - apply Forall_cons in Hzs as [Hz Hzs]. apply IH; [lia | done |].
    destruct Hin as [->|[->|Hin]]; [left; lia | left; lia | by right].
Qed.

Lemma mathMax_range (l : list number) (top : Z) :
  1 ≤ top ≤ 2 ^ 53 →
  (∀ n, In n l → ∃ i, 1 ≤ i ≤ top ∧ n = ofZ i) →
  In (ofZ top) l →
  mathMax l = ofZ top.
Proof.
  intros Htop Hall Hin.
  assert (∃ zs, l = map ofZ zs ∧ Forall (λ z, 1 ≤ z ≤ top) zs)
    as (zs & -> & Hzs).
  { clear Hin. induction l as [|n l IH].
    - by exists [].
    - destruct (Hall n) as (i & Hi & ->); [by left|].
      destruct IH as (zs & -> & Hzs); [intros; apply Hall; by right|].
      exists (i :: zs). split; [done | by constructor]. }
  assert (In top zs) as Hin'.
  { apply in_map_iff in Hin as (z & E & Hz).
    rewrite Forall_forall in Hzs. pose proof (Hzs z) as Hb.
    rewrite list_elem_of_In in Hb. specialize (Hb Hz).
    apply ofZ_inj in E; [by subst | lia | lia]. }
  destruct zs as [|z zs]; [done|].
  apply Forall_cons in Hzs as [Hz Hzs].
  unfold mathMax. simpl. unfold max2 at 2.
  rewrite negInfinity_not_nan, ofZ_not_nan by lia.
  rewrite negInfinity_least by (apply ofZ_finite; lia).
  rewrite fold_max2_ofZ.
  - f_equal. apply fold_Zmax_bounds; [lia | |].
    + eapply Forall_impl; [exact Hzs|]. simpl. lia.
    + destruct Hin' as [->|?]; [by left | by right].
  - lia.
  - eapply Forall_impl; [exact Hzs|]. simpl. lia.
Qed.

(** When no gap is found, the numeric ids are exactly [1 .. length]. *)
Lemma firstGap_None_range (l : list number) :
  Z.of_nat (length l) < 2 ^ 53 →
  firstGap l 1 (length l) = None →
  (∀ i, 1 ≤ i ≤ Z.of_nat (length l) → In (ofZ i) l)
  ∧ (∀ n, In n l → ∃ i, 1 ≤ i ≤ Z.of_nat (length l) ∧ n = ofZ i).
Proof.
  intros Hlen Hnone.
  assert (Hall : ∀ i, 1 ≤ i ≤ Z.of_nat (length l) → In (ofZ i) l).
  { intros i Hi. apply arrayIncludes_true; [lia|].
    apply (firstGap_None _ _ _ Hnone). lia. }
  split; [done|].
  set (range := map ofZ (seqZ 1 (Z.of_nat (length l)))).
  assert (List.NoDup range) as Hnd.
  { apply NoDup_ListNoDup, NoDup_fmap_2_strong; [|apply NoDup_seqZ].
    intros a b Ha%elem_of_seqZ Hb%elem_of_seqZ.
    apply ofZ_inj; lia. }
  assert (incl l range) as Hincl.
  { apply NoDup_length_incl; [done | |].
    - unfold range. rewrite length_map, length_seqZ. lia.
    - intros n (i & <- & Hi%list_elem_of_In%elem_of_seqZ)%in_map_iff.
      apply Hall. lia. }
  intros n Hn. apply Hincl, in_map_iff in Hn as (i & <- & Hi).
  apply list_elem_of_In, elem_of_seqZ in Hi. exists i. split; [lia | done].
Qed.

Lemma generateNextId_fresh (uuid : string) (items : list DatabaseItem) :
  Z.of_nat (length items) < 2 ^ 53 →
  ∃ k, 1 ≤ k ≤ Z.of_nat (length items) + 1
       ∧ generateNextId uuid (Items items) = IdNum (ofZ k)
       ∧ ∀ item, In item items → Number (item_id item) ≠ ofZ k.
Proof.
  intros Hlen. destruct items as [|x rest]; [exists 1; simpl; by split_and!|].
  set (items := x :: rest) in *.
  change (generateNextId uuid (Items items)) with
    (if (length (numericIdsOf items) =? 0)%nat then IdNum (ofZ 1)
     else match firstGap (numericIdsOf items) 1
                         (length (numericIdsOf items)) with
          | Some i => IdNum (ofZ i)
          | None => IdNum (num_add (mathMax (numericIdsOf items)) (ofZ 1))
          end).
  pose proof (numericIdsOf_length items) as Hle.
  destruct (Nat.eqb_spec (length (numericIdsOf items)) 0) as [E0|Hne].
  - exists 1. split_and!; [lia | lia | done |].
    apply not_numeric_fresh; [lia|]. intros Hin.
    destruct (numericIdsOf items); [destruct Hin | discriminate E0].
  - destruct (firstGap (numericIdsOf items) 1 (length (numericIdsOf items)))
      as [i|] eqn:G.
    + apply firstGap_Some in G as [Hi Hinc]. exists i.
      split_and!; [lia | lia | done |].
      apply not_numeric_fresh; [lia|]. by apply arrayIncludes_false.
    + destruct (firstGap_None_range (numericIdsOf items)) as [Hall Honly];
        [lia | done |].
      set (top := Z.of_nat (length (numericIdsOf items))) in *.
      rewrite (mathMax_range _ top); [|lia|done|apply Hall; lia].
      rewrite ofZ_add by lia.
      exists (top + 1). split_and!; [lia | lia | done |].
      apply not_numeric_fresh; [lia|].
      intros (i & Hi & E)%Honly. apply ofZ_inj in E; lia.
Qed.

End GenerateFacts.

(** ** Identifiers of a batch *)

Section BatchFacts.
Context {R : JsRuntime} {L : JsRuntimeLaws R}.

(** The record [addManyToStore] builds for an item without a valid id,
    the items [before] it having been processed. *)
Definition generatedItem (uuid : string) (allDataInStore before : list DatabaseItem)
    (item : PartialItem) : DatabaseItem :=
  {| item_id := generateNextId uuid (Items (allDataInStore ++ before));
     item_props := partial_props item |}.

Lemma assignId_invalid (uuid : string) (allDataInStore : list DatabaseItem)
    (itemsToAdd : list DatabaseItem)
    (itemsToEmit : list (EmitEvents * DatabaseItem)) (item : PartialItem) :
  isValidId (partial_id item) = false →
  assignId uuid allDataInStore (itemsToAdd, itemsToEmit) item =
  (itemsToAdd ++ [generatedItem uuid allDataInStore itemsToAdd item],
   itemsToEmit ++ [(EvAdd, generatedItem uuid allDataInStore itemsToAdd item)]).
Proof.
  intros H%validId_None_iff. unfold assignId. by rewrite H.
Qed.

(** What holds of the records assigned so far. *)
Record FreshBatch (allDataInStore added : list DatabaseItem) : Prop := {
  fresh_nodup : List.NoDup (map item_id added);
  fresh_generated : ∀ x, In x added →
    ∃ k, 1 ≤ k ≤ Z.of_nat (length allDataInStore + length added)
         ∧ item_id x = IdNum (ofZ k);
  fresh_new : ∀ x, In x added → ¬ In (item_id x) (map item_id allDataInStore);
}.

Lemma FreshBatch_nil (allDataInStore : list DatabaseItem) :
  FreshBatch allDataInStore [].
Proof. split; simpl; [constructor | done | done]. Qed.

Lemma FreshBatch_snoc (uuid : string) (allDataInStore added : list DatabaseItem)
    (item : PartialItem) :
  Z.of_nat (length allDataInStore + length added) < 2 ^ 53 →
  FreshBatch allDataInStore added →
  FreshBatch allDataInStore
    (added ++ [generatedItem uuid allDataInStore added item]).
Proof.
  intros Hlen [Hnd Hgen Hnew].
  destruct (generateNextId_fresh uuid (allDataInStore ++ added))
    as (k & Hk & Ek & Hfresh); [by rewrite length_app|].
  rewrite length_app in Hk.
  assert (Hid : item_id (generatedItem uuid allDataInStore added item)
                = IdNum (ofZ k)) by done.
  split.
  - rewrite map_app. cbn [map]. rewrite Hid.
    apply NoDup_ListNoDup, NoDup_app. split_and!.
    + by apply NoDup_ListNoDup.
    + intros i Hi%list_elem_of_In%in_map_iff Hin.
      destruct Hi as (x & <- & Hx).
      apply list_elem_of_singleton in Hin.
      destruct (Hgen x Hx) as (j & Hj & Ej).
      apply (Hfresh x); [apply in_or_app; by right|].
      rewrite Ej in Hin |- *. simpl. by injection Hin.
    + apply NoDup_singleton.
  - intros x [Hx| [<-|[]]]%in_app_or; rewrite length_app; simpl.
    + destruct (Hgen x Hx) as (j & Hj & Ej). exists j. split; [lia | done].
    + exists k. split; [lia | done].
  - intros x [Hx| [<-|[]]]%in_app_or; [by apply Hnew|].
    rewrite Hid. intros (y & Ey & Hy)%in_map_iff.
    apply (Hfresh y); [apply in_or_app; by left|]. by rewrite Ey.
Qed.

Lemma assignIds_fold (uuid : string) (allDataInStore : list DatabaseItem)
    (items : list PartialItem) :
  ∀ (added : list DatabaseItem) (emits : list (EmitEvents * DatabaseItem)),
  (∀ item, In item items → isValidId (partial_id item) = false) →
  Z.of_nat (length allDataInStore + length added + length items) < 2 ^ 53 →
  FreshBatch allDataInStore added →
  let res := fold_left (assignId uuid allDataInStore) items (added, emits) in
  FreshBatch allDataInStore res.1
  ∧ length res.1 = (length added + length items)%nat
  ∧ take (length added) res.1 = added
  ∧ (∀ k item, items !! k = Some item →
       res.1 !! (length added + k)%nat =
       Some (generatedItem uuid allDataInStore
               (take (length added + k) res.1) item))
  ∧ res.2 = emits ++ map (λ x, (EvAdd, x)) (drop (length added) res.1).
Proof.
  induction items as [|item rest IH]; intros added emits Hinv Hlen Hfresh.
  - simpl. split_and!; [done | lia | | done |].
    + by rewrite firstn_all.
    + by rewrite drop_all, app_nil_r.
  - cbv zeta. cbn [fold_left].
    rewrite assignId_invalid by (apply Hinv; by left).
    set (new := generatedItem uuid allDataInStore added item).
    simpl in Hlen.
    destruct (IH (added ++ [new]) (emits ++ [(EvAdd, new)]))
      as (IH1 & IH2 & IH3 & IH4 & IH5).
    { intros; apply Hinv; by right. }
    { rewrite length_app. simpl. lia. }
    { apply FreshBatch_snoc; [lia | done]. }
    set (res := fold_left (assignId uuid allDataInStore) rest
                          (added ++ [new], emits ++ [(EvAdd, new)])) in *.
    rewrite length_app in IH2, IH3, IH4, IH5. simpl in IH2, IH3, IH4, IH5.
    assert (Hpre : take (length added) res.1 = added).
    { rewrite <- (take_app_length added [new]) at 2. rewrite <- IH3.
      rewrite take_take. f_equal. lia. }
    assert (Hnew : res.1 !! length added = Some new).
    { rewrite <- (lookup_take_lt _ (length added + 1)) by lia.
      rewrite IH3. rewrite lookup_app_r by lia.
      by rewrite Nat.sub_diag. }
    simpl. split_and!; [done | lia | done | |].
    + intros [|k] x Hx; simpl in Hx.
      * injection Hx as <-. rewrite Nat.add_0_r, Hpre. done.
      * replace (length added + S k)%nat with (length added + 1 + k)%nat by lia.
        by apply IH4.
    + rewrite IH5, <- app_assoc. f_equal.
      rewrite (drop_S _ new (length added)) by done. simpl. do 3 f_equal.
      lia.
Qed.

End BatchFacts.

(** ** Transactions of the manager *)

Section ManagerFacts.
Context {R : JsRuntime}.

Lemma openDatabase_keeps (m : IndexedDBManager) :
  dbConfig (openDatabase m).1 = dbConfig m
  ∧ emitted (openDatabase m).1 = emitted m
  ∧ transactions (openDatabase m).1 = transactions m
  ∧ commitFaults (openDatabase m).1 = commitFaults m.
Proof.
  unfold openDatabase. destruct (db m); [done|].
  destruct (negb _ && negb _); [done|].
  destruct (hostOpen _ _ _); done.
Qed.

Lemma openDatabase_open (m : IndexedDBManager) (conn : IDBDatabase) :
  db m = Some conn → openDatabase m = (m, inr conn).
Proof. intros H. unfold openDatabase. by rewrite H. Qed.

(** What one transaction makes of its callback and of the engine's
    decision at commit. *)
Definition outcomeOf {T} (completion : Completion T) (fault : option JsValue)
  : Settlement T :=
  settled (run true (start true (startOf completion))
               (signalsOf completion fault)).

Lemma outcomeOf_eq {T} (completion : Completion T) (fault : option JsValue) :
  outcomeOf completion fault =
  match completion, fault with
  | Fulfils result, None => Resolved (Some result)
  | Fulfils _, Some error =>
      Rejected (if truthy error then error else VError "Transaction aborted")
  | Rejects _, _ => Rejected (VError "Transaction aborted")
  | Throws error, _ => Rejected error
  end.
Proof. by destruct completion, fault. Qed.

(** The store is missing: nothing runs, nothing changes past the opening. *)
Lemma executeTransaction_store_missing {T} (storeName : string)
    (mode : IDBTransactionMode) (callback : Callback T)
    (m m1 : IndexedDBManager) (conn : IDBDatabase) :
  openDatabase m = (m1, inr conn) →
  storeName ∉ objectStoreNames conn →
  executeTransaction storeName mode callback m =
  (m1, Rejected (storeNotFound storeName (objectStoreNames conn))).
Proof.
  intros Ho Hn. unfold executeTransaction. rewrite Ho.
  unfold contains. by rewrite bool_decide_false.
Qed.

(** The two ways a transaction with a promise-returning callback ends:
    before the callback runs, with a rejection and no event; or after it,
    with the events of the callback and the outcome of the join. *)
Lemma executeTransaction_promised_cases {T} (storeName : string)
    (mode : IDBTransactionMode) (body : Tx T) (m : IndexedDBManager) :
  dbConfig (executeTransaction storeName mode (promised body) m).1 = dbConfig m
  ∧ ((emitted (executeTransaction storeName mode (promised body) m).1
      = emitted m
      ∧ ∃ reason,
          (executeTransaction storeName mode (promised body) m).2
          = Rejected reason)
     ∨ ∃ st fault,
         emitted (executeTransaction storeName mode (promised body) m).1
         = txEmitted (body {| txMode := mode; txStore := st;
                              txEmitted := emitted m |}).2
         ∧ (executeTransaction storeName mode (promised body) m).2
           = match (body {| txMode := mode; txStore := st;
                            txEmitted := emitted m |}).1 with
             | inr result =>
                 match fault with
                 | None => Resolved (Some result)
                 | Some error =>
                     Rejected (if truthy error then error
                               else VError "Transaction aborted")
                 end
             | inl _ => Rejected (VError "Transaction aborted")
             end).
Proof.
  unfold executeTransaction.
  destruct (openDatabase_keeps m) as (Hc & He & _ & _).
  destruct (openDatabase m) as [m1 [error|conn]]; simpl in *.
  { split; [done|]. left. split; [done | by eexists]. }
  destruct (contains (objectStoreNames conn) storeName); simpl.
  2: { split; [done|]. left. split; [done | by eexists]. }
  destruct (beginTransaction storeName mode (indexedDB m1)) as [error|st].
  { split; [done|]. left. split; [done | by eexists]. }
  unfold nextCommitFault, promised. simpl.
  destruct (commitFaults m1) as [|fault rest]; simpl; rewrite He;
    destruct (body {| txMode := mode; txStore := st; txEmitted := emitted m |})
      as [[err|result] ts] eqn:Eb; simpl.
  - split; [done|]. right. exists st, None. rewrite Eb. done.
  - split; [done|]. right. exists st, None. rewrite Eb. done.
  - split; [done|]. right. exists st, None. rewrite Eb. done.
  - destruct fault as [error|]; simpl.
    + split; [done|]. right. exists st, (Some error). rewrite Eb. done.
    + split; [done|]. right. exists st, None. rewrite Eb. done.
Qed.

(** Callbacks that emit nothing. *)
Definition Quiet {A} (c : Tx A) : Prop :=
  ∀ ts, txEmitted (c ts).2 = txEmitted ts.

Lemma quiet_ret {A} (a : A) : Quiet (txRet a).
Proof. done. Qed.

Lemma quiet_bind {A B} (c : Tx A) (k : A → Tx B) :
  Quiet c → (∀ a, Quiet (k a)) → Quiet (txBind c k).
Proof.
  intros Hc Hk ts. unfold txBind. specialize (Hc ts).
  destruct (c ts) as [[err|a] ts']; simpl in *; [done|].
  by rewrite Hk.
Qed.

Lemma quiet_storePut item : Quiet (storePut item).
Proof.
  intros ts. unfold storePut.
  destruct (isReadOnly _); [done|]. by destruct (negb _).
Qed.

Lemma quiet_storeGet key : Quiet (storeGet key).
Proof. intros ts. unfold storeGet. by destruct (negb _). Qed.

Lemma quiet_storeDelete key : Quiet (storeDelete key).
Proof.
  intros ts. unfold storeDelete.
  destruct (isReadOnly _); [done|]. by destruct (negb _).
Qed.

Lemma quiet_storeGetAll : Quiet storeGetAll.
Proof. done. Qed.

Lemma quiet_storeCount : Quiet storeCount.
Proof. done. Qed.

Lemma quiet_txAll {A} (request : A → Tx unit) (l : list A) :
  (∀ x, Quiet (request x)) → Quiet (txAll request l).
Proof.
  intros Hq. induction l as [|x l IH]; intros ts; simpl; [done|].
  specialize (Hq x ts).
  destruct (request x ts) as [[err|[]] ts']; simpl in *; by rewrite IH.
Qed.

(** A transaction whose callback emits nothing leaves the events alone,
    and it settles. *)
Lemma executeTransaction_quiet {T} (storeName : string)
    (mode : IDBTransactionMode) (body : Tx T) (m : IndexedDBManager) :
  Quiet body →
  dbConfig (executeTransaction storeName mode (promised body) m).1 = dbConfig m
  ∧ emitted (executeTransaction storeName mode (promised body) m).1 = emitted m
  ∧ (executeTransaction storeName mode (promised body) m).2 ≠ Pending.
Proof.
  intros Hq.
  destruct (executeTransaction_promised_cases storeName mode body m)
    as [Hc [[He [reason Hr]]|(st & fault & He & Hr)]].
  - split_and!; [done | done | by rewrite Hr].
  - split_and!; [done | by rewrite He, Hq |].
    rewrite Hr. destruct (body _).1; [done|]. by destruct fault.
Qed.

End ManagerFacts.

(** ** Operations on a missing store *)

Section MissingStore.
Context {R : JsRuntime}.
Context (storeName : string) (m m1 : IndexedDBManager) (conn : IDBDatabase).
Context (Hopen : openDatabase m = (m1, inr conn)).
Context (Hmissing : storeName ∉ objectStoreNames conn).

Abbreviation notFound := (storeNotFound storeName (objectStoreNames conn)).

Lemma missing_executeTransaction {T} mode (callback : Callback T) :
  executeTransaction storeName mode callback m = (m1, Rejected notFound).
Proof. by apply executeTransaction_store_missing. Qed.

Lemma missing_names_store :
  ∃ pre post, notFound = VError (pre +:+ storeName +:+ post).
Proof. by eexists "Store '", _. Qed.

Lemma missing_idExistsInStore id :
  idExistsInStore storeName id m = (m1, Rejected notFound).
Proof. apply missing_executeTransaction. Qed.

Lemma missing_getAllDataFromStore :
  getAllDataFromStore storeName m = (m1, Rejected notFound).
Proof. apply missing_executeTransaction. Qed.

Lemma missing_single_operations :
  (∀ id i, validId id = Some i →
     getDataByIdFromStore storeName id m = (m1, Rejected notFound))
  ∧ (∀ id i updatedData, validId id = Some i →
       updateDataByIdInStore storeName id updatedData m
       = (m1, Rejected notFound))
  ∧ (∀ id i, validId id = Some i →
       deleteDataFromStore storeName id m = (m1, Rejected notFound))
  ∧ (∀ data stamp,
       saveDataToStore storeName (Some data) stamp m
       = (m1, Rejected notFound))
  ∧ getAllDataFromStore storeName m = (m1, Rejected notFound)
  ∧ clearStore storeName m = (m1, Rejected notFound)
  ∧ countInStore storeName m = (m1, Rejected notFound)
  ∧ (∀ query, searchDataInStore storeName query m = (m1, Rejected notFound))
  ∧ (∀ criteria, filterInStore storeName criteria m = (m1, Rejected notFound))
  ∧ getStatsForStore storeName m = (m1, Rejected notFound).
Proof.
  split_and!.
  - intros id i Hv. unfold getDataByIdFromStore. rewrite Hv.
    apply missing_executeTransaction.
  - intros id i updatedData Hv. unfold updateDataByIdInStore.
    by rewrite Hv, missing_idExistsInStore.
  - intros id i Hv. unfold deleteDataFromStore.
    by rewrite Hv, missing_executeTransaction.
  - intros data stamp. unfold saveDataToStore.
    destruct (validId (partial_id data)).
    + by rewrite missing_idExistsInStore.
    + by rewrite missing_executeTransaction.
  - apply missing_getAllDataFromStore.
  - apply missing_executeTransaction.
  - apply missing_executeTransaction.
  - intros query. unfold searchDataInStore.
    by rewrite missing_getAllDataFromStore.
  - intros criteria. unfold filterInStore.
    by rewrite missing_getAllDataFromStore.
  - unfold getStatsForStore. by rewrite missing_getAllDataFromStore.
Qed.

Lemma missing_batch_operations :
  (∀ uuid items,
     addManyToStore uuid storeName items m = (m1, Resolved (Some false)))
  ∧ (∀ items, updateManyInStore storeName items m = (m1, Resolved (Some false)))
  ∧ (∀ ids, deleteManyFromStore storeName ids m = (m1, Resolved (Some false))).
Proof.
  split_and!; intros;
    unfold addManyToStore, updateManyInStore, deleteManyFromStore;
    by rewrite missing_executeTransaction.
Qed.

End MissingStore.

(** The reading of C4 for one operation: its promise rejects with an
    error whose message names the store. *)
Definition rejectsNaming {R : JsRuntime} {T} (storeName : string)
    (outcome : Settlement T) : Prop :=
  ∃ pre post, outcome = Rejected (VError (pre +:+ storeName +:+ post)).

(** C4, amended (a store absent from the open connection).  Let the
    connection, already open or opened by this call, lack the store.
    Then [executeTransaction] rejects with the error that names the store
    and lists the stores there are, before any transaction is created and
    with nothing changed past the opening, so no store is created; the
    single-record, search and statistics operations that reach it pass
    that rejection on; the three batch operations catch it and resolve to
    [false]. *)
Theorem executeTransaction_rejects_missing_store {R : JsRuntime}
    (storeName : string) (m m1 : IndexedDBManager) (conn : IDBDatabase) :
  openDatabase m = (m1, inr conn) →
  storeName ∉ objectStoreNames conn →
  let notFound := storeNotFound storeName (objectStoreNames conn) in
  (∀ T mode (callback : Callback T),
     executeTransaction storeName mode callback m = (m1, Rejected notFound)
     ∧ rejectsNaming storeName
         (executeTransaction storeName mode callback m).2)
  ∧ transactions m1 = transactions m
  ∧ (db m = Some conn → m1 = m)
  ∧ ((∀ id i, validId id = Some i →
        getDataByIdFromStore storeName id m = (m1, Rejected notFound))
     ∧ (∀ id i updatedData, validId id = Some i →
          updateDataByIdInStore storeName id updatedData m
          = (m1, Rejected notFound))
     ∧ (∀ id i, validId id = Some i →
          deleteDataFromStore storeName id m = (m1, Rejected notFound))
     ∧ (∀ data stamp,
          saveDataToStore storeName (Some data) stamp m
          = (m1, Rejected notFound))
     ∧ getAllDataFromStore storeName m = (m1, Rejected notFound)
     ∧ clearStore storeName m = (m1, Rejected notFound)
     ∧ countInStore storeName m = (m1, Rejected notFound)
     ∧ (∀ query,
          searchDataInStore storeName query m = (m1, Rejected notFound))
     ∧ (∀ criteria,
          filterInStore storeName criteria m = (m1, Rejected notFound))
     ∧ getStatsForStore storeName m = (m1, Rejected notFound))
  ∧ ((∀ uuid items,
        addManyToStore uuid storeName items m = (m1, Resolved (Some false)))
     ∧ (∀ items,
          updateManyInStore storeName items m = (m1, Resolved (Some false)))
     ∧ (∀ ids,
          deleteManyFromStore storeName ids m = (m1, Resolved (Some false)))).
Proof.
  intros Hopen Hmissing notFound. split; [|split; [|split; [|split]]].
  - intros T mode callback.
    rewrite (missing_executeTransaction storeName m m1 conn Hopen Hmissing).
    split; [done|]. destruct (missing_names_store storeName conn) as (pre & post & E).
    exists pre, post. simpl. by rewrite E.
  - destruct (openDatabase_keeps m) as (_ & _ & Ht & _).
    by rewrite Hopen in Ht.
  - intros Hdb. rewrite (openDatabase_open m conn Hdb) in Hopen.
    by injection Hopen.
  - exact (missing_single_operations storeName m m1 conn Hopen Hmissing).
  - exact (missing_batch_operations storeName m m1 conn Hopen Hmissing).
Qed.

(** ** Events of the mutating operations *)

Section EventFacts.
Context {R : JsRuntime}.

Lemma quiet_existsCallback key : Quiet (existsCallback key).
Proof. apply quiet_bind; [apply quiet_storeGet | intros; apply quiet_ret]. Qed.

Lemma quiet_putCallback item : Quiet (putCallback item).
Proof. apply quiet_bind; [apply quiet_storePut | intros; apply quiet_ret]. Qed.

Lemma quiet_deleteCallback key : Quiet (deleteCallback key).
Proof. apply quiet_bind; [apply quiet_storeDelete | intros; apply quiet_ret]. Qed.

Lemma quiet_putManyCallback l : Quiet (putManyCallback l).
Proof.
  apply quiet_bind; [|intros; apply quiet_ret].
  apply quiet_txAll, quiet_storePut.
Qed.

Lemma quiet_deleteManyCallback ids : Quiet (deleteManyCallback ids).
Proof.
  apply quiet_bind; [|intros; apply quiet_ret].
  apply quiet_txAll, quiet_storeDelete.
Qed.

Lemma quiet_addManyCallback uuid l : Quiet (addManyCallback uuid l).
Proof.
  apply quiet_bind; [apply quiet_storeGetAll|]. intros allDataInStore.
  destruct (assignIds uuid allDataInStore l) as [itemsToAdd itemsToEmit].
  apply quiet_bind; [|intros; apply quiet_ret].
  apply quiet_txAll, quiet_storePut.
Qed.

Lemma emitEvent_emitted event data m :
  emitted (emitEvent event data m)
  = emitted m ++ [eventData (dbConfig m) event data]
  ∧ dbConfig (emitEvent event data m) = dbConfig m.
Proof. done. Qed.

Lemma emitAll_emitted {A} (event : A → EmitEvents) (data : A → EventPayload)
    (l : list A) (m : IndexedDBManager) :
  emitted (emitAll event data l m)
  = emitted m ++ map (λ x, eventData (dbConfig m) (event x) (data x)) l
  ∧ dbConfig (emitAll event data l m) = dbConfig m.
Proof.
  revert m. induction l as [|x l IH]; intros m.
  - simpl. by rewrite app_nil_r.
  - change (emitAll event data (x :: l) m)
      with (emitAll event data l (emitEvent (event x) (data x) m)).
    destruct (IH (emitEvent (event x) (data x) m)) as [-> ->].
    simpl. by rewrite <- app_assoc.
Qed.

Lemma assignIds_lengths uuid allDataInStore (l : list PartialItem) :
  ∀ acc,
    length (fold_left (assignId uuid allDataInStore) l acc).1
    = (length acc.1 + length l)%nat
    ∧ length (fold_left (assignId uuid allDataInStore) l acc).2
      = (length acc.2 + length l)%nat.
Proof.
  induction l as [|item l IH]; intros [added emits]; [simpl; lia|].
  cbn [fold_left].
  destruct (IH (assignId uuid allDataInStore (added, emits) item)) as [-> ->].
  unfold assignId.
  destruct (validId (partial_id item)); simpl; rewrite !length_app; simpl; lia.
Qed.

(** What the callback of [updateDataByIdInStore] emits. *)
Lemma updateCallback_emits cfg key updatedData ts :
  match (updateCallback cfg key updatedData ts).1 with
  | inr (Some item) =>
      txEmitted (updateCallback cfg key updatedData ts).2
      = txEmitted ts ++ [eventData cfg EvUpdate (DataItem item)]
  | inr None =>
      txEmitted (updateCallback cfg key updatedData ts).2 = txEmitted ts
  | inl _ => True
  end.
Proof.
  unfold updateCallback, mbind, Tx_bind, txBind, storeGet.
  destruct (negb (validKey key)); simpl; [done|].
  destruct (txStore ts !! key) as [stored|]; simpl; [|done].
  unfold storePut. simpl.
  destruct (isReadOnly (txMode ts)); simpl; [done|].
  destruct (negb (validKey key)); simpl; done.
Qed.

Lemma clearCallback_emits cfg ts :
  match (clearCallback cfg ts).1 with
  | inr _ =>
      txEmitted (clearCallback cfg ts).2
      = txEmitted ts ++ [eventData cfg EvClear DataNull]
  | inl _ => True
  end.
Proof.
  unfold clearCallback, mbind, Tx_bind, txBind, storeClear.
  destruct (isReadOnly (txMode ts)); simpl; done.
Qed.

Lemma idExistsInStore_quiet storeName id m :
  dbConfig (idExistsInStore storeName id m).1 = dbConfig m
  ∧ emitted (idExistsInStore storeName id m).1 = emitted m
  ∧ (idExistsInStore storeName id m).2 ≠ Pending.
Proof. apply executeTransaction_quiet, quiet_existsCallback. Qed.

Lemma saveDataToStore_events storeName data stamp m :
  match (saveDataToStore storeName data stamp m).2 with
  | Resolved saved =>
      ∃ event, (event = EvAdd ∨ event = EvUpdate)
        ∧ emitted (saveDataToStore storeName data stamp m).1
          = emitted m ++ [eventData (dbConfig m) event (itemPayload saved)]
  | Rejected _ => emitted (saveDataToStore storeName data stamp m).1 = emitted m
  | Pending => False
  end.
Proof.
  unfold saveDataToStore. destruct data as [data|]; [|done].
  assert (Hput : ∀ targetId (isUpdate : bool) m0,
    dbConfig m0 = dbConfig m → emitted m0 = emitted m →
    let res :=
      match
        executeTransaction storeName readwrite
          (promised (putCallback {| item_id := targetId;
                                    item_props := partial_props data |})) m0
      with
      | (m', Resolved savedData) =>
          (emitEvent (if isUpdate then EvUpdate else EvAdd)
                     (itemPayload savedData) m', Resolved savedData)
      | (m', outcome) => (m', outcome)
      end in
    match res.2 with
    | Resolved saved =>
        ∃ event, (event = EvAdd ∨ event = EvUpdate)
          ∧ emitted res.1
            = emitted m ++ [eventData (dbConfig m) event (itemPayload saved)]
    | Rejected _ => emitted res.1 = emitted m
    | Pending => False
    end).
  { intros targetId isUpdate m0 Hc0 He0.
    destruct (executeTransaction_quiet storeName readwrite
                (putCallback {| item_id := targetId;
                                item_props := partial_props data |}) m0
                (quiet_putCallback _)) as (Hc & He & Hp).
    destruct (executeTransaction _ _ _ m0) as [m' [|saved|reason]];
      simpl in *; [done | | congruence].
    exists (if isUpdate then EvUpdate else EvAdd).
    split; [destruct isUpdate; auto | congruence]. }
  cbv zeta. destruct (validId (partial_id data)) as [id|].
  - destruct (idExistsInStore_quiet storeName (normalizeId id) m)
      as (Hc & He & Hp).
    destruct (idExistsInStore storeName (normalizeId id) m)
      as [m1 [|isUpdate|reason]]; simpl in *; [done | | done].
    by apply (Hput (normalizeId id) (default false isUpdate) m1).
  - by apply (Hput (IdNum stamp) false m).
Qed.

Lemma updateDataByIdInStore_events storeName id updatedData m :
  match (updateDataByIdInStore storeName id updatedData m).2 with
  | Resolved (Some (Some item)) =>
      emitted (updateDataByIdInStore storeName id updatedData m).1
      = emitted m ++ [eventData (dbConfig m) EvUpdate (DataItem item)]
  | Resolved (Some None) =>
      emitted (updateDataByIdInStore storeName id updatedData m).1 = emitted m
  | Resolved None => False
  | Rejected _ => True
  | Pending => False
  end.
Proof.
  unfold updateDataByIdInStore. destruct (validId id) as [i|]; [|done].
  destruct (idExistsInStore_quiet storeName (normalizeId i) m)
    as (Hc & He & Hp).
  destruct (idExistsInStore storeName (normalizeId i) m)
    as [m1 [|exists_|reason]]; simpl in *; [done | | done].
  destruct (negb (default false exists_)); [done|].
  destruct (executeTransaction_promised_cases storeName readwrite
              (updateCallback (dbConfig m1) (normalizeId i) updatedData) m1)
    as [_ [[_ [reason Hr]]|(st & fault & He' & Hr)]].
  - by rewrite Hr.
  - rewrite Hr, He'.
    pose proof (updateCallback_emits (dbConfig m1) (normalizeId i) updatedData
                  {| txMode := readwrite; txStore := st;
                     txEmitted := emitted m1 |}) as Hem.
    destruct (updateCallback _ _ _ _).1 as [err|[item|]]; [done | |];
      destruct fault; try done; simpl in Hem; by rewrite Hem, He, ?Hc.
Qed.

Lemma deleteDataFromStore_events storeName id m :
  match (deleteDataFromStore storeName id m).2 with
  | Resolved deleted =>
      emitted (deleteDataFromStore storeName id m).1
      = emitted m ++ [eventData (dbConfig m) EvDelete (idPayload deleted)]
  | Rejected _ => emitted (deleteDataFromStore storeName id m).1 = emitted m
  | Pending => False
  end.
Proof.
  unfold deleteDataFromStore. destruct (validId id) as [i|]; [|done].
  destruct (executeTransaction_quiet storeName readwrite
              (deleteCallback (normalizeId i)) m (quiet_deleteCallback _))
    as (Hc & He & Hp).
  destruct (executeTransaction _ _ _ m) as [m' [|deleted|reason]];
    simpl in *; [done | | done].
  by rewrite He, Hc.
Qed.

Lemma clearStore_events storeName m :
  match (clearStore storeName m).2 with
  | Resolved _ =>
      emitted (clearStore storeName m).1
      = emitted m ++ [eventData (dbConfig m) EvClear DataNull]
  | Rejected _ => True
  | Pending => False
  end.
Proof.
  unfold clearStore.
  destruct (executeTransaction_promised_cases storeName readwrite
              (clearCallback (dbConfig m)) m)
    as [_ [[_ [reason Hr]]|(st & fault & He' & Hr)]].
  - by rewrite Hr.
  - rewrite Hr, He'.
    pose proof (clearCallback_emits (dbConfig m)
                  {| txMode := readwrite; txStore := st;
                     txEmitted := emitted m |}) as Hem.
    destruct (clearCallback _ _).1 as [err|?]; [done|].
    by destruct fault.
Qed.

Lemma addManyToStore_events uuid storeName l m :
  match (addManyToStore uuid storeName l m).2 with
  | Resolved (Some true) =>
      ∃ itemsToEmit : list (EmitEvents * DatabaseItem),
        length itemsToEmit = length l
        ∧ emitted (addManyToStore uuid storeName l m).1
          = emitted m
            ++ map (λ x, eventData (dbConfig m) x.1 (DataItem x.2)) itemsToEmit
  | Resolved (Some false) =>
      emitted (addManyToStore uuid storeName l m).1 = emitted m
  | _ => False
  end.
Proof.
  unfold addManyToStore.
  destruct (executeTransaction_quiet storeName readwrite
              (addManyCallback uuid l) m (quiet_addManyCallback _ _))
    as (Hc & He & _).
  destruct (executeTransaction_promised_cases storeName readwrite
              (addManyCallback uuid l) m)
    as [_ [[_ [reason Hr]]|(st & fault & _ & Hr)]];
    destruct (executeTransaction _ _ _ m) as [m' r]; simpl in *; subst r.
  - done.
  - unfold addManyCallback, mbind, Tx_bind, txBind, storeGetAll at 1.
    simpl.
    pose proof (assignIds_lengths uuid (map snd (map_to_list st)) l ([], []))
      as [_ Hlen]. fold (assignIds uuid (map snd (map_to_list st)) l) in Hlen.
    destruct (assignIds uuid (map snd (map_to_list st)) l)
      as [itemsToAdd itemsToEmit]. simpl in Hlen.
    destruct (txAll storePut itemsToAdd _) as [[err|[]] ts]; simpl; [done|].
    destruct fault; simpl; [done|].
    exists itemsToEmit. split; [done|].
    destruct (emitAll_emitted fst (λ x, DataItem x.2) itemsToEmit m') as [-> _].
    by rewrite He, Hc.
Qed.

Lemma updateManyInStore_events storeName l m :
  match (updateManyInStore storeName l m).2 with
  | Resolved (Some true) =>
      emitted (updateManyInStore storeName l m).1
      = emitted m ++ map (λ x, eventData (dbConfig m) EvUpdate (DataItem x)) l
  | Resolved (Some false) =>
      emitted (updateManyInStore storeName l m).1 = emitted m
  | _ => False
  end.
Proof.
  unfold updateManyInStore.
  destruct (executeTransaction_quiet storeName readwrite
              (putManyCallback l) m (quiet_putManyCallback _))
    as (Hc & He & _).
  destruct (executeTransaction_promised_cases storeName readwrite
              (putManyCallback l) m)
    as [_ [[_ [reason Hr]]|(st & fault & _ & Hr)]];
    destruct (executeTransaction _ _ _ m) as [m' r]; simpl in *; subst r.
  - done.
  - unfold putManyCallback, mbind, Tx_bind, txBind. simpl.
    destruct (txAll storePut l _) as [[err|[]] ts]; simpl; [done|].
    destruct fault; simpl; [done|].
    destruct (emitAll_emitted (λ _, EvUpdate) DataItem l m') as [-> _].
    by rewrite He, Hc.
Qed.

Lemma deleteManyFromStore_events storeName ids m :
  match (deleteManyFromStore storeName ids m).2 with
  | Resolved (Some true) =>
      emitted (deleteManyFromStore storeName ids m).1
      = emitted m
        ++ map (λ id, eventData (dbConfig m) EvDelete (DataId (normalizeId id)))
               ids
  | Resolved (Some false) =>
      emitted (deleteManyFromStore storeName ids m).1 = emitted m
  | _ => False
  end.
Proof.
  unfold deleteManyFromStore.
  destruct (executeTransaction_quiet storeName readwrite
              (deleteManyCallback ids) m (quiet_deleteManyCallback _))
    as (Hc & He & _).
  destruct (executeTransaction_promised_cases storeName readwrite
              (deleteManyCallback ids) m)
    as [_ [[_ [reason Hr]]|(st & fault & _ & Hr)]];
    destruct (executeTransaction _ _ _ m) as [m' r]; simpl in *; subst r.
  - done.
  - unfold deleteManyCallback, mbind, Tx_bind, txBind. simpl.
    destruct (txAll storeDelete _ _) as [[err|[]] ts]; simpl; [done|].
    destruct fault; simpl; [done|].
    destruct (emitAll_emitted (λ _, EvDelete) DataId (map normalizeId ids) m')
      as [-> _].
    by rewrite He, Hc, map_map.
Qed.

End EventFacts.

(** C6, amended (events of the mutating operations).  An operation that
    completes emits one event per request it was given, whether or not a
    record existed under the id: [saveDataToStore] one [add] or [update];
    [updateDataByIdInStore] one [update] when it returns the merged record
    and none when it returns null; [deleteDataFromStore] one [delete];
    [clearStore] one [clear]; [addManyToStore] and [updateManyInStore] one
    per submitted item, [deleteManyFromStore] one per submitted id.
    [saveDataToStore], [deleteDataFromStore] and the three batch
    operations emit nothing when they fail, the batch operations failing
    by resolving to [false]. *)
Theorem mutating_operations_emit_per_request {R : JsRuntime}
    (storeName : string) (m : IndexedDBManager) :
  (∀ data stamp,
     match (saveDataToStore storeName data stamp m).2 with
     | Resolved saved =>
         ∃ event, (event = EvAdd ∨ event = EvUpdate)
           ∧ emitted (saveDataToStore storeName data stamp m).1
             = emitted m ++ [eventData (dbConfig m) event (itemPayload saved)]
     | Rejected _ =>
         emitted (saveDataToStore storeName data stamp m).1 = emitted m
     | Pending => False
     end)
  ∧ (∀ id updatedData,
       match (updateDataByIdInStore storeName id updatedData m).2 with
       | Resolved (Some (Some item)) =>
           emitted (updateDataByIdInStore storeName id updatedData m).1
           = emitted m ++ [eventData (dbConfig m) EvUpdate (DataItem item)]
       | Resolved (Some None) =>
           emitted (updateDataByIdInStore storeName id updatedData m).1
           = emitted m
       | Resolved None => False
       | Rejected _ => True
       | Pending => False
       end)
  ∧ (∀ id,
       match (deleteDataFromStore storeName id m).2 with
       | Resolved deleted =>
           emitted (deleteDataFromStore storeName id m).1
           = emitted m ++ [eventData (dbConfig m) EvDelete (idPayload deleted)]
       | Rejected _ => emitted (deleteDataFromStore storeName id m).1 = emitted m
       | Pending => False
       end)
  ∧ match (clearStore storeName m).2 with
    | Resolved _ =>
        emitted (clearStore storeName m).1
        = emitted m ++ [eventData (dbConfig m) EvClear DataNull]
    | Rejected _ => True
    | Pending => False
    end
  ∧ (∀ uuid l,
       match (addManyToStore uuid storeName l m).2 with
       | Resolved (Some true) =>
           ∃ itemsToEmit : list (EmitEvents * DatabaseItem),
             length itemsToEmit = length l
             ∧ emitted (addManyToStore uuid storeName l m).1
               = emitted m
                 ++ map (λ x, eventData (dbConfig m) x.1 (DataItem x.2))
                        itemsToEmit
       | Resolved (Some false) =>
           emitted (addManyToStore uuid storeName l m).1 = emitted m
       | _ => False
       end)
  ∧ (∀ l,
       match (updateManyInStore storeName l m).2 with
       | Resolved (Some true) =>
           emitted (updateManyInStore storeName l m).1
           = emitted m
             ++ map (λ x, eventData (dbConfig m) EvUpdate (DataItem x)) l
       | Resolved (Some false) =>
           emitted (updateManyInStore storeName l m).1 = emitted m
       | _ => False
       end)
  ∧ (∀ ids,
       match (deleteManyFromStore storeName ids m).2 with
       | Resolved (Some true) =>
           emitted (deleteManyFromStore storeName ids m).1
           = emitted m
             ++ map (λ id, eventData (dbConfig m) EvDelete
                             (DataId (normalizeId id))) ids
       | Resolved (Some false) =>
           emitted (deleteManyFromStore storeName ids m).1 = emitted m
       | _ => False
       end).
Proof.
  split; [|split; [|split; [|split; [|split; [|split]]]]].
  - intros. apply saveDataToStore_events.
  - intros. apply updateDataByIdInStore_events.
  - intros. apply deleteDataFromStore_events.
  - apply clearStore_events.
  - intros. apply addManyToStore_events.
  - intros. apply updateManyInStore_events.
  - intros. apply deleteManyFromStore_events.
Qed.

(** ** Transactions that commit *)

Section CommitFacts.
Context {R : JsRuntime}.

(** On an open connection that has the store, with an engine that
    commits, a transaction ends as its callback does. *)
Lemma executeTransaction_commits {T} (storeName : string)
    (mode : IDBTransactionMode) (body : Tx T) (m : IndexedDBManager)
    (conn : IDBDatabase) (st : gmap Id DatabaseItem) :
  db m = Some conn →
  storeName ∈ objectStoreNames conn →
  host_stores (indexedDB m) !! storeName = Some st →
  mode ≠ versionchange →
  commitFaults m = [] →
  let ran := body {| txMode := mode; txStore := st; txEmitted := emitted m |} in
  ∃ m',
    executeTransaction storeName mode (promised body) m
    = (m', match ran.1 with
           | inr result => Resolved (Some result)
           | inl _ => Rejected (VError "Transaction aborted")
           end)
    ∧ db m' = db m ∧ dbConfig m' = dbConfig m ∧ commitFaults m' = []
    ∧ emitted m' = txEmitted ran.2
    ∧ transactions m' = transactions m ++ [(storeName, mode)]
    ∧ host_stores (indexedDB m')
      = match ran.1 with
        | inr _ => <[storeName := txStore ran.2]> (host_stores (indexedDB m))
        | inl _ => host_stores (indexedDB m)
        end.
Proof.
  intros Hdb Hin Hst Hmode Hf ran.
  unfold executeTransaction. rewrite (openDatabase_open m conn Hdb).
  unfold contains. rewrite bool_decide_true by done. simpl.
  assert (beginTransaction storeName mode (indexedDB m) = inr st) as ->.
  { unfold beginTransaction. rewrite Hst. by destruct mode. }
  unfold nextCommitFault. simpl. rewrite Hf. unfold promised. simpl.
  fold ran. destruct ran as [[err|result] ts]; simpl.
  - eexists. split; [done|]. by split_and!.
  - eexists. split; [done|]. by split_and!.
Qed.

End CommitFacts.

(** ** A batch of new records *)

Section BatchRunFacts.
Context {R : JsRuntime} {L : JsRuntimeLaws R}.

(** The store after the [store.put] of each record of [l], in order. *)
Definition putAll (l : list DatabaseItem) (st : gmap Id DatabaseItem)
  : gmap Id DatabaseItem :=
  fold_left (λ st x, <[item_id x := x]> st) l st.

Lemma txAll_storePut_run (l : list DatabaseItem) (ts : TxState) :
  txMode ts = readwrite →
  (∀ x, In x l → validKey (item_id x) = true) →
  txAll storePut l ts = (inr (), withStore (putAll l (txStore ts)) ts).
Proof.
  revert ts. induction l as [|x l IH]; intros ts Hm Hk.
  - by destruct ts.
  - cbn [txAll]. unfold storePut at 1. rewrite Hm. simpl.
    rewrite (Hk x) by (by left). simpl.
    rewrite IH; [done | done | intros; apply Hk; by right].
Qed.

Lemma assignIds_validKey (uuid : string) (allDataInStore : list DatabaseItem)
    (items : list PartialItem) :
  (∀ item, In item items → isValidId (partial_id item) = false) →
  Z.of_nat (length allDataInStore + length items) < 2 ^ 53 →
  ∀ x, In x (assignIds uuid allDataInStore items).1 →
       validKey (item_id x) = true.
Proof.
  intros Hinv Hlen x Hx.
  destruct (assignIds_fold uuid allDataInStore items [] [] Hinv)
    as ([_ Hgen _] & Hl & _); [simpl; lia | apply FreshBatch_nil |].
  destruct (Hgen x Hx) as (k & Hk & ->). simpl in *.
  rewrite Hl in Hk. simpl in Hk.
  rewrite ofZ_not_nan; [done | lia].
Qed.

Lemma addManyCallback_run (uuid : string) (items : list PartialItem)
    (ts : TxState) :
  txMode ts = readwrite →
  (∀ item, In item items → isValidId (partial_id item) = false) →
  Z.of_nat (size (txStore ts) + length items) < 2 ^ 53 →
  let assigned := assignIds uuid (map snd (map_to_list (txStore ts))) items in
  addManyCallback uuid items ts
  = (inr (true, assigned.2), withStore (putAll assigned.1 (txStore ts)) ts).
Proof.
  intros Hm Hinv Hlen assigned.
  unfold addManyCallback, mbind, Tx_bind, txBind, storeGetAll. 
  fold assigned.
  pose proof (assignIds_validKey uuid (map snd (map_to_list (txStore ts)))
                items Hinv) as Hk.
  fold assigned in Hk.
  destruct assigned as [itemsToAdd itemsToEmit]. simpl in *.
  rewrite txAll_storePut_run; [done | done |].
  apply Hk. by rewrite length_map, length_map_to_list.
Qed.


Lemma emitAll_keeps {A} (event : A → EmitEvents) (data : A → EventPayload)
    (l : list A) (m : IndexedDBManager) :
  transactions (emitAll event data l m) = transactions m
  ∧ indexedDB (emitAll event data l m) = indexedDB m.
Proof.
  revert m. induction l as [|x l IH]; intros m; [done|].
  change (emitAll event data (x :: l) m)
    with (emitAll event data l (emitEvent (event x) (data x) m)).
  by destruct (IH (emitEvent (event x) (data x) m)) as [-> ->].
Qed.

Lemma addManyToStore_run (uuid storeName : string) (items : list PartialItem)
    (m : IndexedDBManager) (conn : IDBDatabase) (st : gmap Id DatabaseItem) :
  db m = Some conn →
  storeName ∈ objectStoreNames conn →
  host_stores (indexedDB m) !! storeName = Some st →
  commitFaults m = [] →
  (∀ item, In item items → isValidId (partial_id item) = false) →
  Z.of_nat (size st + length items) < 2 ^ 53 →
  let itemsToAdd := (assignIds uuid (map snd (map_to_list st)) items).1 in
  let res := addManyToStore uuid storeName items m in
  res.2 = Resolved (Some true)
  ∧ transactions res.1 = transactions m ++ [(storeName, readwrite)]
  ∧ host_stores (indexedDB res.1)
    = <[storeName := putAll itemsToAdd st]> (host_stores (indexedDB m))
  ∧ emitted res.1
    = emitted m
      ++ map (λ x, eventData (dbConfig m) EvAdd (DataItem x)) itemsToAdd.
Proof.
  intros Hdb Hin Hst Hf Hinv Hlen itemsToAdd res.
  destruct (executeTransaction_commits storeName readwrite
              (addManyCallback uuid items) m conn st Hdb Hin Hst
              ltac:(done) Hf)
    as (m' & He & _ & Hc & _ & Hem & Htx & Hs).
  rewrite addManyCallback_run in He, Hem, Hs by done. simpl in He, Hem, Hs.
  subst res. unfold addManyToStore. rewrite He. simpl.
  destruct (assignIds_fold uuid (map snd (map_to_list st)) items [] [] Hinv)
    as (_ & _ & _ & _ & Hemit);
    [simpl; rewrite length_map, length_map_to_list; lia
    | apply FreshBatch_nil |].
  simpl in Hemit. rewrite drop_0 in Hemit.
  fold (assignIds uuid (map snd (map_to_list st)) items) in Hemit.
  fold itemsToAdd in Hemit.
  destruct (emitAll_emitted fst (λ x : EmitEvents * DatabaseItem, DataItem x.2)
              (assignIds uuid (map snd (map_to_list st)) items).2 m')
    as [Hall Hcfg].
  destruct (emitAll_keeps fst (λ x : EmitEvents * DatabaseItem, DataItem x.2)
              (assignIds uuid (map snd (map_to_list st)) items).2 m')
    as [Hkt Hkh].
  split_and!; [done | by rewrite Hkt | by rewrite Hkh |].
  rewrite Hall, Hemit, Hem, Hc, map_map. done.
Qed.

(** Records are stored under their [id], the key path of every store. *)
Definition keyedById (st : gmap Id DatabaseItem) : Prop :=
  ∀ k x, st !! k = Some x → item_id x = k.

Lemma putAll_size (l : list DatabaseItem) (st : gmap Id DatabaseItem) :
  List.NoDup (map item_id l) →
  (∀ x, In x l → st !! item_id x = None) →
  size (putAll l st) = (size st + length l)%nat.
Proof.
  revert st. induction l as [|x l IH]; intros st Hnd Hnew; simpl; [lia|].
  inversion Hnd as [|? ? Hx Hnd']; subst.
  unfold putAll in *. rewrite IH; [| done |].
  - rewrite map_size_insert_None by (apply Hnew; by left). lia.
  - intros y Hy. rewrite lookup_insert_ne; [apply Hnew; by right|].
    intros E. apply Hx. rewrite E. by apply in_map.
Qed.

Lemma assigned_absent (st : gmap Id DatabaseItem) (x : DatabaseItem) :
  keyedById st →
  ¬ In (item_id x) (map item_id (map snd (map_to_list st))) →
  st !! item_id x = None.
Proof.
  intros Hkey Hnew. destruct (st !! item_id x) as [y|] eqn:E; [|done].
  destruct Hnew. apply in_map_iff. exists y. split; [by apply Hkey|].
  apply in_map_iff. exists (item_id x, y). split; [done|].
  by apply list_elem_of_In, elem_of_map_to_list.
Qed.

End BatchRunFacts.

(** C5 (the ids assigned in one batch are pairwise distinct).  Take a
    batch in which no record carries a valid id.  The loop of
    [addManyToStore] assigns one id per record; the ids are pairwise
    distinct and none is the id of a record read from the store; the id
    of each record is [generateNextId] of the records read from the store
    followed by the records assigned before it in the batch; and each
    record is announced as an [add].  On an open connection with an
    engine that commits, [addManyToStore] does this in one read-write
    transaction: it resolves to [true], the records assigned are put in
    the store in order and one [add] event is emitted for each; when the
    store keeps its records under their ids, it grows by the size of the
    batch.  The lengths are those of JavaScript arrays. *)
Theorem addManyToStore_assigns_distinct_ids
    {R : JsRuntime} {L : JsRuntimeLaws R}
    (uuid : string) (items : list PartialItem) :
  (∀ item, In item items → isValidId (partial_id item) = false) →
  (∀ allDataInStore : list DatabaseItem,
     Z.of_nat (length allDataInStore + length items) < 2 ^ 53 →
     let itemsToAdd := (assignIds uuid allDataInStore items).1 in
     let itemsToEmit := (assignIds uuid allDataInStore items).2 in
     length itemsToAdd = length items
     ∧ List.NoDup (map item_id itemsToAdd)
     ∧ (∀ x, In x itemsToAdd →
          ¬ In (item_id x) (map item_id allDataInStore))
     ∧ (∀ k item, items !! k = Some item →
          itemsToAdd !! k =
          Some {| item_id :=
                    generateNextId uuid
                      (Items (allDataInStore ++ take k itemsToAdd));
                  item_props := partial_props item |})
     ∧ itemsToEmit = map (λ x, (EvAdd, x)) itemsToAdd)
  ∧ (∀ (storeName : string) (m : IndexedDBManager) (conn : IDBDatabase)
       (st : gmap Id DatabaseItem),
       db m = Some conn →
       storeName ∈ objectStoreNames conn →
       host_stores (indexedDB m) !! storeName = Some st →
       commitFaults m = [] →
       Z.of_nat (size st + length items) < 2 ^ 53 →
       let itemsToAdd :=
         (assignIds uuid (map snd (map_to_list st)) items).1 in
       let res := addManyToStore uuid storeName items m in
       res.2 = Resolved (Some true)
       ∧ transactions res.1 = transactions m ++ [(storeName, readwrite)]
       ∧ host_stores (indexedDB res.1)
         = <[storeName := putAll itemsToAdd st]> (host_stores (indexedDB m))
       ∧ emitted res.1
         = emitted m
           ++ map (λ x, eventData (dbConfig m) EvAdd (DataItem x)) itemsToAdd
       ∧ (keyedById st →
          size (putAll itemsToAdd st) = (size st + length items)%nat)).
Proof.
  intros Hinv.
  assert (Hloop : ∀ allDataInStore : list DatabaseItem,
            Z.of_nat (length allDataInStore + length items) < 2 ^ 53 →
            length (assignIds uuid allDataInStore items).1 = length items
            ∧ List.NoDup (map item_id (assignIds uuid allDataInStore items).1)
            ∧ (∀ x, In x (assignIds uuid allDataInStore items).1 →
                 ¬ In (item_id x) (map item_id allDataInStore))
            ∧ (∀ k item, items !! k = Some item →
                 (assignIds uuid allDataInStore items).1 !! k =
                 Some {| item_id :=
                           generateNextId uuid
                             (Items (allDataInStore
                                     ++ take k (assignIds uuid allDataInStore
                                                  items).1));
                         item_props := partial_props item |})
            ∧ (assignIds uuid allDataInStore items).2
              = map (λ x, (EvAdd, x)) (assignIds uuid allDataInStore items).1).
  { intros allDataInStore Hlen.
    destruct (assignIds_fold uuid allDataInStore items [] [] Hinv)
      as ([H1 H2 H3] & H4 & _ & H5 & H6);
      [simpl; lia | apply FreshBatch_nil |].
    split_and!; done. }
  split; [exact Hloop|].
  intros storeName m conn st Hdb Hin Hst Hf Hlen itemsToAdd res.
  destruct (addManyToStore_run uuid storeName items m conn st
              Hdb Hin Hst Hf Hinv Hlen) as (Hr & Ht & Hs & He).
  split_and!; [done | done | done | done |].
  intros Hkey.
  destruct (Hloop (map snd (map_to_list st))) as (Hl & Hnd & Hnew & _).
  { by rewrite length_map, length_map_to_list. }
  fold itemsToAdd in Hl, Hnd, Hnew.
  rewrite putAll_size; [by rewrite Hl | done |].
  intros x Hx. apply assigned_absent; [done | by apply Hnew].
Qed.

(** ** Updating a record *)

Section UpdateFacts.
Context {R : JsRuntime} {L : JsRuntimeLaws R}.

Lemma existsCallback_run (key : Id) (ts : TxState) :
  validKey key = true →
  existsCallback key ts = (inr (bool_decide (is_Some (txStore ts !! key))), ts).
Proof.
  intros Hk. unfold existsCallback, mbind, Tx_bind, txBind, storeGet.
  by rewrite Hk.
Qed.

Lemma updateCallback_run cfg (key : Id) updatedData (ts : TxState) :
  validKey key = true → txMode ts = readwrite →
  updateCallback cfg key updatedData ts =
  match txStore ts !! key with
  | Some stored =>
      let newData := mergeItem stored updatedData key in
      (inr (Some newData),
       {| txMode := txMode ts;
          txStore := <[key := newData]> (txStore ts);
          txEmitted := txEmitted ts ++ [eventData cfg EvUpdate (DataItem newData)] |})
  | None => (inr None, ts)
  end.
Proof.
  intros Hk Hm. unfold updateCallback, mbind, Tx_bind, txBind, storeGet.
  rewrite Hk. simpl. destruct (txStore ts !! key) as [stored|]; [|done].
  unfold storePut. rewrite Hm. simpl. rewrite Hk. simpl.
  unfold mret, Tx_ret, txRet. by rewrite ?Hm.
Qed.

Lemma updateDataByIdInStore_run (storeName : string) (id : JsValue) (i : Id)
    (updatedData : PartialItem) (m : IndexedDBManager) (conn : IDBDatabase)
    (st : gmap Id DatabaseItem) :
  validId id = Some i →
  db m = Some conn →
  storeName ∈ objectStoreNames conn →
  host_stores (indexedDB m) !! storeName = Some st →
  commitFaults m = [] →
  match st !! normalizeId i with
  | None =>
      (updateDataByIdInStore storeName id updatedData m).2
      = Resolved (Some None)
      ∧ emitted (updateDataByIdInStore storeName id updatedData m).1
        = emitted m
      ∧ host_stores (indexedDB
                       (updateDataByIdInStore storeName id updatedData m).1)
        = host_stores (indexedDB m)
  | Some stored =>
      let merged := mergeItem stored updatedData (normalizeId i) in
      (updateDataByIdInStore storeName id updatedData m).2
      = Resolved (Some (Some merged))
      ∧ emitted (updateDataByIdInStore storeName id updatedData m).1
        = emitted m ++ [eventData (dbConfig m) EvUpdate (DataItem merged)]
      ∧ host_stores (indexedDB
                       (updateDataByIdInStore storeName id updatedData m).1)
        = <[storeName := <[normalizeId i := merged]> st]>
            (host_stores (indexedDB m))
  end.
Proof.
  intros Hv Hdb Hin Hst Hf.
  pose proof (normalizeId_validKey id i Hv) as Hk.
  unfold updateDataByIdInStore, idExistsInStore. rewrite Hv.
  rewrite normalizeId_idem.
  destruct (executeTransaction_commits storeName readonly
              (existsCallback (normalizeId i)) m conn st Hdb Hin Hst
              ltac:(done) Hf)
    as (m1 & -> & Hdb1 & Hc1 & Hf1 & He1 & _ & Hs1).
  rewrite existsCallback_run in He1, Hs1 |- * by done. simpl in *.
  rewrite insert_id in Hs1 by done.
  destruct (st !! normalizeId i) as [stored|] eqn:Hlook; simpl.
  - rewrite ?bool_decide_true by eauto. simpl.
    destruct (executeTransaction_commits storeName readwrite
                (updateCallback (dbConfig m1) (normalizeId i) updatedData)
                m1 conn st)
      as (m2 & -> & _ & _ & _ & He2 & _ & Hs2);
      [congruence | done | by rewrite Hs1 | done | done |].
    rewrite updateCallback_run in He2, Hs2 |- * by done. simpl in *.
    rewrite Hlook in He2, Hs2 |- *. simpl in *.
    rewrite Hs2, Hs1, He2, He1, Hc1. done.
  - rewrite ?bool_decide_false by (intros [? ?]; done). simpl.
    by rewrite He1, Hs1.
Qed.

End UpdateFacts.

(** C7 (update by id: null on a miss, the merged record on a hit).  Let
    the id be valid, the connection open with the store, and the engine
    commit.  If no record is stored under the normalised id, the promise
    resolves to null and neither the store nor the events change.  If one
    is, the promise resolves to the merged record: its id is the
    normalised id, each other field is the supplied one where there is
    one and the stored one otherwise; that record replaces the stored one
    and one [update] event carries it. *)
Theorem updateDataByIdInStore_null_or_merged
    {R : JsRuntime} {L : JsRuntimeLaws R}
    (storeName : string) (id : JsValue) (i : Id) (updatedData : PartialItem)
    (m : IndexedDBManager) (conn : IDBDatabase) (st : gmap Id DatabaseItem) :
  validId id = Some i →
  db m = Some conn →
  storeName ∈ objectStoreNames conn →
  host_stores (indexedDB m) !! storeName = Some st →
  commitFaults m = [] →
  let res := updateDataByIdInStore storeName id updatedData m in
  match st !! normalizeId i with
  | None =>
      res.2 = Resolved (Some None)
      ∧ emitted res.1 = emitted m
      ∧ host_stores (indexedDB res.1) = host_stores (indexedDB m)
  | Some stored =>
      ∃ merged,
        res.2 = Resolved (Some (Some merged))
        ∧ item_id merged = normalizeId i
        ∧ (∀ field,
             item_props merged !! field
             = match partial_props updatedData !! field with
               | Some v => Some v
               | None => item_props stored !! field
               end)
        ∧ emitted res.1
          = emitted m ++ [eventData (dbConfig m) EvUpdate (DataItem merged)]
        ∧ host_stores (indexedDB res.1)
          = <[storeName := <[normalizeId i := merged]> st]>
              (host_stores (indexedDB m))
  end.
Proof.
  intros Hv Hdb Hin Hst Hf res.
  pose proof (updateDataByIdInStore_run storeName id i updatedData m conn st
                Hv Hdb Hin Hst Hf) as H.
  destruct (st !! normalizeId i) as [stored|]; [|exact H].
  destruct H as (H1 & H2 & H3).
  exists (mergeItem stored updatedData (normalizeId i)).
  split_and!; [done | done | | done | done].
  intros field. simpl. rewrite lookup_union.
  destruct (partial_props updatedData !! field), (item_props stored !! field);
    done.
Qed.

(** ** Operations on an open connection *)

Section ReadyFacts.
Context {R : JsRuntime}.

(** The connection is open and has the store, whose records are [st], and
    the engine commits what it is asked to. *)
Record Ready (storeName : string) (st : gmap Id DatabaseItem)
    (m : IndexedDBManager) : Prop := {
  ready_db : ∃ conn, db m = Some conn ∧ storeName ∈ objectStoreNames conn;
  ready_store : host_stores (indexedDB m) !! storeName = Some st;
  ready_commits : commitFaults m = [];
}.

(** The other stores of the engine hold what they held. *)
Definition sameOtherStores (storeName : string) (m m' : IndexedDBManager)
  : Prop :=
  ∀ other, other ≠ storeName →
    host_stores (indexedDB m') !! other = host_stores (indexedDB m) !! other.

Lemma sameOtherStores_refl storeName m : sameOtherStores storeName m m.
Proof. done. Qed.

Lemma sameOtherStores_trans storeName m1 m2 m3 :
  sameOtherStores storeName m1 m2 → sameOtherStores storeName m2 m3 →
  sameOtherStores storeName m1 m3.
Proof. intros H1 H2 o Ho. by rewrite H2, H1. Qed.

Lemma ready_emitEvent storeName st event data m :
  Ready storeName st m → Ready storeName st (emitEvent event data m).
Proof. by intros [? ? ?]. Qed.

Lemma ready_emitAll {A} storeName st (event : A → EmitEvents)
    (data : A → EventPayload) (l : list A) m :
  Ready storeName st m → Ready storeName st (emitAll event data l m).
Proof.
  revert m. induction l as [|x l IH]; intros m H; [done|].
  apply (IH (emitEvent (event x) (data x) m)), ready_emitEvent, H.
Qed.

(** One transaction on a ready manager. *)
Lemma transaction_ready {T} (storeName : string) (mode : IDBTransactionMode)
    (body : Tx T) (m : IndexedDBManager) (st : gmap Id DatabaseItem) :
  Ready storeName st m → mode ≠ versionchange →
  let ran := body {| txMode := mode; txStore := st; txEmitted := emitted m |} in
  ∃ m',
    executeTransaction storeName mode (promised body) m
    = (m', match ran.1 with
           | inr result => Resolved (Some result)
           | inl _ => Rejected (VError "Transaction aborted")
           end)
    ∧ Ready storeName (match ran.1 with
                       | inr _ => txStore ran.2
                       | inl _ => st
                       end) m'
    ∧ emitted m' = txEmitted ran.2
    ∧ dbConfig m' = dbConfig m
    ∧ transactions m' = transactions m ++ [(storeName, mode)]
    ∧ sameOtherStores storeName m m'.
Proof.
  intros [(conn & Hdb & Hin) Hst Hf] Hmode ran.
  destruct (executeTransaction_commits storeName mode body m conn st
              Hdb Hin Hst Hmode Hf)
    as (m' & He & Hdb' & Hc & Hf' & Hem & Htx & Hs).
  exists m'. fold ran in He, Hem, Hs.
  split_and!; [done | | done | done | done |].
  - split; [exists conn; by rewrite Hdb' | | done].
    rewrite Hs. destruct ran.1; [done|]. by rewrite lookup_insert_eq.
  - intros other Ho. rewrite Hs. destruct ran.1; [done|].
    by rewrite lookup_insert_ne.
Qed.


Context {L : JsRuntimeLaws R}.

Lemma ready_getAllDataFromStore storeName st m :
  Ready storeName st m →
  ∃ m', getAllDataFromStore storeName m
        = (m', Resolved (Some (map snd (map_to_list st))))
        ∧ Ready storeName st m' ∧ emitted m' = emitted m
        ∧ dbConfig m' = dbConfig m ∧ sameOtherStores storeName m m'.
Proof.
  intros Hr. unfold getAllDataFromStore.
  destruct (transaction_ready storeName readonly storeGetAll m st Hr)
    as (m' & -> & Hr' & He & Hc & _ & Ho); [done|].
  by exists m'.
Qed.

Lemma ready_countInStore storeName st m :
  Ready storeName st m →
  ∃ m', countInStore storeName m = (m', Resolved (Some (size st)))
        ∧ Ready storeName st m' ∧ emitted m' = emitted m
        ∧ dbConfig m' = dbConfig m ∧ sameOtherStores storeName m m'.
Proof.
  intros Hr. unfold countInStore.
  destruct (transaction_ready storeName readonly storeCount m st Hr)
    as (m' & -> & Hr' & He & Hc & _ & Ho); [done|].
  by exists m'.
Qed.

Lemma ready_idExistsInStore storeName st (k : Id) m :
  Ready storeName st m → validKey (normalizeId k) = true →
  ∃ m', idExistsInStore storeName k m
        = (m', Resolved (Some (bool_decide (is_Some (st !! normalizeId k)))))
        ∧ Ready storeName st m' ∧ emitted m' = emitted m
        ∧ dbConfig m' = dbConfig m ∧ sameOtherStores storeName m m'.
Proof.
  intros Hr Hk. unfold idExistsInStore.
  destruct (transaction_ready storeName readonly
              (existsCallback (normalizeId k)) m st Hr)
    as (m' & -> & Hr' & He & Hc & _ & Ho); [done|].
  rewrite existsCallback_run in Hr', He |- * by done. by exists m'.
Qed.

Lemma ready_getDataByIdFromStore storeName st (id : JsValue) (i : Id) m :
  Ready storeName st m → validId id = Some i →
  ∃ m', getDataByIdFromStore storeName id m
        = (m', Resolved (Some (st !! normalizeId i)))
        ∧ Ready storeName st m' ∧ emitted m' = emitted m
        ∧ dbConfig m' = dbConfig m
        ∧ transactions m' = transactions m ++ [(storeName, readonly)].
Proof.
  intros Hr Hv. unfold getDataByIdFromStore. rewrite Hv.
  pose proof (normalizeId_validKey id i Hv) as Hk.
  destruct (transaction_ready storeName readonly
              (storeGet (normalizeId i)) m st Hr)
    as (m' & -> & Hr' & He & Hc & Ht & _); [done|].
  unfold storeGet in *. rewrite Hk in *. simpl in *. by exists m'.
Qed.

Lemma validId_idValue (k : Id) :
  isValidId (idValue k) = true → validId (idValue k) = Some k.
Proof. intros H. unfold validId. rewrite H. by destruct k. Qed.

(** The record [saveDataToStore] builds: [{ ...data, id: targetId }]. *)
Definition savedRecord (data : PartialItem) (targetId : Id) : DatabaseItem :=
  {| item_id := targetId; item_props := partial_props data |}.

(** The key [saveDataToStore] stores under. *)
Definition targetIdOf (data : PartialItem) (stamp : number) : Id :=
  match validId (partial_id data) with
  | Some id => normalizeId id
  | None => IdNum stamp
  end.

Lemma targetIdOf_validKey data stamp :
  isNaN stamp = false → validKey (targetIdOf data stamp) = true.
Proof.
  intros Hs. unfold targetIdOf.
  destruct (validId (partial_id data)) as [i|] eqn:Hv.
  - by apply (normalizeId_validKey (partial_id data)).
  - simpl. by rewrite Hs.
Qed.

Lemma ready_saveDataToStore storeName st data stamp m :
  Ready storeName st m →
  isNaN stamp = false →
  let key := targetIdOf data stamp in
  let saved := savedRecord data key in
  let action :=
    if bool_decide (is_Some (validId (partial_id data))
                    ∧ is_Some (st !! key))
    then EvUpdate else EvAdd in
  ∃ m', saveDataToStore storeName (Some data) stamp m
        = (m', Resolved (Some saved))
        ∧ Ready storeName (<[key := saved]> st) m'
        ∧ emitted m'
          = emitted m ++ [eventData (dbConfig m) action (DataItem saved)]
        ∧ dbConfig m' = dbConfig m ∧ sameOtherStores storeName m m'.
Proof.
  intros Hr Hs key saved action.
  pose proof (targetIdOf_validKey data stamp Hs) as Hk. fold key in Hk.
  assert (Hput : ∀ (isUpdate : bool) m0,
            Ready storeName st m0 →
            ∃ m',
              match
                executeTransaction storeName readwrite
                  (promised (putCallback saved)) m0
              with
              | (m', Resolved savedData) =>
                  (emitEvent (if isUpdate then EvUpdate else EvAdd)
                             (itemPayload savedData) m', Resolved savedData)
              | (m', outcome) => (m', outcome)
              end = (m', Resolved (Some saved))
              ∧ Ready storeName (<[key := saved]> st) m'
              ∧ emitted m'
                = emitted m0
                  ++ [eventData (dbConfig m0)
                        (if isUpdate then EvUpdate else EvAdd)
                        (DataItem saved)]
              ∧ dbConfig m' = dbConfig m0
              ∧ sameOtherStores storeName m0 m').
  { intros isUpdate m0 Hr0.
    destruct (transaction_ready storeName readwrite (putCallback saved)
                m0 st Hr0) as (m' & -> & Hr' & He & Hc & _ & Ho); [done|].
    unfold putCallback, mbind, Tx_bind, txBind, storePut in *.
    simpl in *. rewrite Hk in *. simpl in *.
    eexists. split; [done|].
    split_and!; [by apply ready_emitEvent | | done | done].
    simpl. by rewrite He, Hc. }
  unfold saveDataToStore. cbv zeta.
  subst key saved action. unfold targetIdOf in *.
  destruct (validId (partial_id data)) as [i|] eqn:Hv.
  - destruct (ready_idExistsInStore storeName st (normalizeId i) m Hr)
      as (m1 & E1 & Hr1 & He1 & Hc1 & Ho1).
    { by rewrite normalizeId_idem. }
    rewrite normalizeId_idem in E1. rewrite E1.
    destruct (Hput (bool_decide (is_Some (st !! normalizeId i))) m1 Hr1)
      as (m' & Hp & Hr' & He & Hc & Ho).
    exists m'. split; [exact Hp|].
    split_and!; [done | | congruence | by eapply sameOtherStores_trans].
    rewrite He, He1, Hc1. do 3 f_equal.
    destruct (st !! normalizeId i) as [x|] eqn:E.
    + rewrite !bool_decide_true by eauto. done.
    + rewrite !bool_decide_false by (by intros [? ?] || by intros [_ [? ?]]).
      done.
  - destruct (Hput false m Hr) as (m' & Hp & Hr' & He & Hc & Ho).
    exists m'. split; [exact Hp|]. split_and!; [done | | done | done].
    rewrite He. by rewrite bool_decide_false by (by intros [[? ?] _]).
Qed.

Lemma ready_deleteDataFromStore storeName st (id : JsValue) (i : Id) m :
  Ready storeName st m → validId id = Some i →
  ∃ m', deleteDataFromStore storeName id m
        = (m', Resolved (Some (normalizeId i)))
        ∧ Ready storeName (delete (normalizeId i) st) m'
        ∧ emitted m'
          = emitted m
            ++ [eventData (dbConfig m) EvDelete (DataId (normalizeId i))]
        ∧ dbConfig m' = dbConfig m ∧ sameOtherStores storeName m m'.
Proof.
  intros Hr Hv. unfold deleteDataFromStore. rewrite Hv.
  pose proof (normalizeId_validKey id i Hv) as Hk.
  destruct (transaction_ready storeName readwrite
              (deleteCallback (normalizeId i)) m st Hr)
    as (m' & -> & Hr' & He & Hc & _ & Ho); [done|].
  unfold deleteCallback, mbind, Tx_bind, txBind, storeDelete in *.
  simpl in *. rewrite Hk in *. simpl in *.
  eexists. split; [done|].
  split_and!; [by apply ready_emitEvent | | done | done].
  simpl. by rewrite He, Hc.
Qed.

Lemma ready_clearStore storeName st m :
  Ready storeName st m →
  ∃ m', clearStore storeName m = (m', Resolved (Some ()))
        ∧ Ready storeName ∅ m'
        ∧ emitted m' = emitted m ++ [eventData (dbConfig m) EvClear DataNull]
        ∧ dbConfig m' = dbConfig m ∧ sameOtherStores storeName m m'.
Proof.
  intros Hr. unfold clearStore.
  destruct (transaction_ready storeName readwrite
              (clearCallback (dbConfig m)) m st Hr)
    as (m' & -> & Hr' & He & Hc & _ & Ho); [done|].
  by exists m'.
Qed.

(** The records [getManyFromStore] finds, in the order of the ids. *)
Definition foundIn (st : gmap Id DatabaseItem) (ids : list JsValue)
  : list DatabaseItem :=
  omap (λ id, i ← validId id; st !! normalizeId i) ids.

Definition validIds (ids : list JsValue) : list JsValue :=
  filter (λ id, isValidId id = true) ids.

Lemma foundIn_cons (st : gmap Id DatabaseItem) (id : JsValue)
    (ids : list JsValue) :
  foundIn st (id :: ids)
  = match validId id with
    | Some i =>
        match st !! normalizeId i with
        | Some item => item :: foundIn st ids
        | None => foundIn st ids
        end
    | None => foundIn st ids
    end.
Proof. unfold foundIn. simpl. by destruct (validId id). Qed.

Lemma ready_getManyLoop storeName st (ids : list JsValue) :
  ∀ (results : list DatabaseItem) m,
    Ready storeName st m →
    ∃ m', getManyLoop storeName ids results m
          = (m', Resolved (Some (results ++ foundIn st ids)))
          ∧ Ready storeName st m' ∧ emitted m' = emitted m
          ∧ transactions m'
            = transactions m
              ++ replicate (length (validIds ids)) (storeName, readonly).
Proof.
  induction ids as [|id ids IH]; intros results m Hr.
  - exists m. simpl. by rewrite !app_nil_r.
  - cbn [getManyLoop]. rewrite foundIn_cons. unfold validIds.
    rewrite filter_cons.
    destruct (validId id) as [i|] eqn:Hv.
    + assert (isValidId id = true) as Hy.
      { unfold validId in Hv. by destruct (isValidId id). }
      destruct (ready_getDataByIdFromStore storeName st id i m Hr Hv)
        as (m1 & -> & Hr1 & He1 & _ & Ht1).
      rewrite decide_True by done. simpl.
      destruct (st !! normalizeId i) as [item|] eqn:E.
      * destruct (IH (results ++ [item]) m1 Hr1) as (m' & -> & Hr' & He & Ht).
        exists m'. rewrite <- app_assoc. split_and!; [done | done | congruence |].
        rewrite Ht, Ht1, <- app_assoc. done.
      * destruct (IH results m1 Hr1) as (m' & -> & Hr' & He & Ht).
        exists m'. split_and!; [done | done | congruence |].
        rewrite Ht, Ht1, <- app_assoc. done.
    + assert (isValidId id = false) as Hy by by apply validId_None_iff.
      unfold getDataByIdFromStore. rewrite Hv.
      rewrite decide_False by (by rewrite Hy). simpl.
      apply IH, Hr.
Qed.

Lemma txAll_storePut_fails (l : list DatabaseItem) (ts : TxState) :
  (∃ x, In x l ∧ validKey (item_id x) = false) →
  ∃ err, (txAll storePut l ts).1 = inl err.
Proof.
  revert ts. induction l as [|x l IH]; intros ts (y & Hy & Hk).
  { destruct Hy. }
  cbn [txAll].
  destruct (storePut x ts) as [[err|[]] ts'] eqn:E; [by eexists|].
  destruct Hy as [->|Hy].
  - unfold storePut in E. rewrite Hk in E.
    destruct (isReadOnly (txMode ts)); discriminate E.
  - apply IH. by exists y.
Qed.

Lemma ready_updateManyInStore storeName st (items : list DatabaseItem) m :
  Ready storeName st m →
  ∃ m', updateManyInStore storeName items m
        = (m', Resolved (Some (forallb (λ x, validKey (item_id x)) items)))
        ∧ (if forallb (λ x, validKey (item_id x)) items
           then Ready storeName (putAll items st) m'
                ∧ emitted m'
                  = emitted m
                    ++ map (λ x, eventData (dbConfig m) EvUpdate (DataItem x))
                           items
           else Ready storeName st m' ∧ emitted m' = emitted m).
Proof.
  intros Hr. unfold updateManyInStore.
  destruct (transaction_ready storeName readwrite (putManyCallback items)
              m st Hr) as (m' & -> & Hr' & He & Hc & _); [done|].
  pose proof (quiet_putManyCallback items
                {| txMode := readwrite; txStore := st;
                   txEmitted := emitted m |}) as Hq.
  rewrite Hq in He. simpl in He.
  unfold putManyCallback, mbind, Tx_bind, txBind in *.
  destruct (forallb (λ x, validKey (item_id x)) items) eqn:F.
  - assert (Hall : ∀ x, In x items → validKey (item_id x) = true).
    { intros x Hx. by apply (proj1 (forallb_forall _ _) F). }
    rewrite (txAll_storePut_run items
               {| txMode := readwrite; txStore := st;
                  txEmitted := emitted m |} eq_refl Hall) in Hr' |- *.
    simpl in *. eexists. split; [done|].
    split; [by apply ready_emitAll|].
    destruct (emitAll_emitted (λ _ : DatabaseItem, EvUpdate) DataItem items m')
      as [-> _]. by rewrite He, Hc.
  - destruct (txAll_storePut_fails items
                {| txMode := readwrite; txStore := st;
                   txEmitted := emitted m |}) as [err E].
    { apply not_true_iff_false in F.
      destruct (existsb (λ x, negb (validKey (item_id x))) items) eqn:X.
      - apply existsb_exists in X as (x & Hx & Hn). exists x.
        split; [done | by apply negb_true_iff].
      - destruct F. apply forallb_forall. intros x Hx.
        destruct (validKey (item_id x)) eqn:K; [done|].
        assert (existsb (λ x, negb (validKey (item_id x))) items = true)
          as X'; [|by rewrite X' in X].
        apply existsb_exists. exists x. by rewrite K. }
    destruct (txAll storePut items _) as [[e|[]] ts']; [|done].
    simpl in *. by eexists.
Qed.

(** The store after the [store.delete] of each key of [keys]. *)
Definition deleteAll (keys : list Id) (st : gmap Id DatabaseItem)
  : gmap Id DatabaseItem :=
  fold_left (λ st k, delete k st) keys st.

Lemma deleteAll_lookup (keys : list Id) (st : gmap Id DatabaseItem) (j : Id) :
  deleteAll keys st !! j = if bool_decide (j ∈ keys) then None else st !! j.
Proof.
  revert st. induction keys as [|k keys IH]; intros st; [done|].
  unfold deleteAll in *. cbn [fold_left]. rewrite IH.
  destruct (decide (j = k)) as [->|Hne].
  - rewrite lookup_delete_eq, (bool_decide_true (k ∈ k :: keys))
      by (apply elem_of_cons; by left).
    by destruct (bool_decide _).
  - rewrite lookup_delete_ne by done.
    destruct (decide (j ∈ keys)) as [Hin|Hin].
    + rewrite (bool_decide_true (j ∈ keys)) by done.
      by rewrite bool_decide_true by (apply elem_of_cons; by right).
    + rewrite (bool_decide_false (j ∈ keys)) by done.
      rewrite bool_decide_false; [done|]. by intros [?|?]%elem_of_cons.
Qed.

Lemma txAll_storeDelete_run (keys : list Id) (ts : TxState) :
  txMode ts = readwrite →
  (∀ k, In k keys → validKey k = true) →
  txAll storeDelete keys ts
  = (inr (), withStore (deleteAll keys (txStore ts)) ts).
Proof.
  revert ts. induction keys as [|k keys IH]; intros ts Hm Hk.
  - by destruct ts.
  - cbn [txAll]. unfold storeDelete at 1. rewrite Hm. simpl.
    rewrite (Hk k) by (by left). simpl.
    rewrite IH; [done | done | intros; apply Hk; by right].
Qed.

Lemma ready_deleteManyFromStore storeName st (ids : list Id) m :
  Ready storeName st m →
  (∀ id, In id ids → validKey (normalizeId id) = true) →
  ∃ m', deleteManyFromStore storeName ids m = (m', Resolved (Some true))
        ∧ Ready storeName (deleteAll (map normalizeId ids) st) m'
        ∧ emitted m'
          = emitted m
            ++ map (λ id, eventData (dbConfig m) EvDelete
                            (DataId (normalizeId id))) ids.
Proof.
  intros Hr Hk. unfold deleteManyFromStore.
  destruct (transaction_ready storeName readwrite (deleteManyCallback ids)
              m st Hr) as (m' & -> & Hr' & He & Hc & _); [done|].
  unfold deleteManyCallback, mbind, Tx_bind, txBind in *.
  assert (Hall : ∀ k, In k (map normalizeId ids) → validKey k = true).
  { intros k (id & <- & Hid)%in_map_iff. by apply Hk. }
  rewrite (txAll_storeDelete_run _
             {| txMode := readwrite; txStore := st;
                txEmitted := emitted m |} eq_refl Hall) in Hr', He |- *.
  simpl in *. eexists. split; [done|].
  split; [by apply ready_emitAll|].
  destruct (emitAll_emitted (λ _ : Id, EvDelete) DataId
              (map normalizeId ids) m') as [-> _].
  by rewrite He, Hc, map_map.
Qed.

End ReadyFacts.

(** X1.  On an open connection with a committing engine,
    [saveDataToStore] resolves to the data with its id set to the key,
    the normalised id when the data carries a valid one and the stamp
    otherwise; that record replaces whatever was stored under the key,
    no field of the old record being kept, and every other key is left
    alone; the event is an [update] exactly when the data carries a
    valid id under which a record was stored, an [add] otherwise. *)
Theorem saveDataToStore_replaces_record
    {R : JsRuntime} {L : JsRuntimeLaws R}
    (storeName : string) (st : gmap Id DatabaseItem) (data : PartialItem)
    (stamp : number) (m : IndexedDBManager) :
  Ready storeName st m →
  isNaN stamp = false →
  let key := targetIdOf data stamp in
  let saved := savedRecord data key in
  let res := saveDataToStore storeName (Some data) stamp m in
  res.2 = Resolved (Some saved)
  ∧ host_stores (indexedDB res.1) !! storeName = Some (<[key := saved]> st)
  ∧ emitted res.1
    = emitted m
      ++ [eventData (dbConfig m)
            (if bool_decide (is_Some (validId (partial_id data))
                             ∧ is_Some (st !! key))
             then EvUpdate else EvAdd)
            (DataItem saved)].
Proof.
  intros Hr Hs key saved res.
  destruct (ready_saveDataToStore storeName st data stamp m Hr Hs)
    as (m' & E & [_ Hst _] & He & _). subst res. rewrite E. done.
Qed.

(** X2.  What [saveDataToStore] saved is what [getDataByIdFromStore]
    reads back: under the id the data carried, and under the id of the
    returned record when [isValidId] accepts it; a record saved without
    an id is read back under its stamp when the stamp is finite and does
    not exceed [Number.MAX_SAFE_INTEGER]. *)
Theorem saveDataToStore_then_getDataByIdFromStore
    {R : JsRuntime} {L : JsRuntimeLaws R}
    (storeName : string) (st : gmap Id DatabaseItem) (data : PartialItem)
    (stamp : number) (m : IndexedDBManager) :
  Ready storeName st m →
  isNaN stamp = false →
  let saved := savedRecord data (targetIdOf data stamp) in
  let m1 := (saveDataToStore storeName (Some data) stamp m).1 in
  (isValidId (partial_id data) = true →
   (getDataByIdFromStore storeName (partial_id data) m1).2
   = Resolved (Some (Some saved)))
  ∧ (isValidId (idValue (item_id saved)) = true →
     num_gtb stamp MAX_SAFE_INTEGER = false →
     (getDataByIdFromStore storeName (idValue (item_id saved)) m1).2
     = Resolved (Some (Some saved))).
Proof.
  intros Hr Hs saved m1.
  destruct (ready_saveDataToStore storeName st data stamp m Hr Hs)
    as (m' & E & Hr' & _). subst m1. rewrite E. simpl.
  split.
  - intros Hv.
    assert (∃ i, validId (partial_id data) = Some i) as [i Hi].
    { unfold validId. rewrite Hv. destruct (partial_id data); by eauto. }
    destruct (ready_getDataByIdFromStore storeName _ _ i m' Hr' Hi)
      as (m2 & -> & _). simpl. do 2 f_equal.
    subst saved. unfold targetIdOf. rewrite Hi. apply lookup_insert_eq.
  - intros Hv Hg.
    change (item_id saved) with (targetIdOf data stamp) in *.
    pose proof (validId_idValue _ Hv) as Hi.
    destruct (ready_getDataByIdFromStore storeName _ _ _ m' Hr' Hi)
      as (m2 & -> & _). simpl. do 2 f_equal.
    assert (normalizeId (targetIdOf data stamp) = targetIdOf data stamp)
      as ->; [|apply lookup_insert_eq].
    unfold targetIdOf.
    destruct (validId (partial_id data)) as [i|]; [apply normalizeId_idem|].
    simpl. by rewrite Hg.
Qed.

(** X3.  [deleteDataFromStore] on a valid id resolves to the normalised
    id whether or not a record was stored under it, removes that key and
    no other, and emits one [delete]; afterwards
    [getDataByIdFromStore] on the same id resolves to null. *)
Theorem deleteDataFromStore_then_getDataByIdFromStore
    {R : JsRuntime} {L : JsRuntimeLaws R}
    (storeName : string) (st : gmap Id DatabaseItem) (id : JsValue) (i : Id)
    (m : IndexedDBManager) :
  Ready storeName st m →
  validId id = Some i →
  let res := deleteDataFromStore storeName id m in
  res.2 = Resolved (Some (normalizeId i))
  ∧ host_stores (indexedDB res.1) !! storeName
    = Some (delete (normalizeId i) st)
  ∧ emitted res.1
    = emitted m
      ++ [eventData (dbConfig m) EvDelete (DataId (normalizeId i))]
  ∧ (getDataByIdFromStore storeName id res.1).2 = Resolved (Some None).
Proof.
  intros Hr Hv res.
  destruct (ready_deleteDataFromStore storeName st id i m Hr Hv)
    as (m' & E & Hr' & He & _). subst res. rewrite E. simpl.
  split_and!; [done | by destruct Hr' | done |].
  destruct (ready_getDataByIdFromStore storeName _ id i m' Hr' Hv)
    as (m2 & -> & _). simpl. by rewrite lookup_delete_eq.
Qed.

(** X4.  After [clearStore] the store is empty: [countInStore] resolves
    to 0 and [getAllDataFromStore] to the empty array, and one [clear]
    event has been emitted. *)
Theorem clearStore_empties
    {R : JsRuntime} {L : JsRuntimeLaws R}
    (storeName : string) (st : gmap Id DatabaseItem) (m : IndexedDBManager) :
  Ready storeName st m →
  let m1 := (clearStore storeName m).1 in
  (clearStore storeName m).2 = Resolved (Some ())
  ∧ emitted m1 = emitted m ++ [eventData (dbConfig m) EvClear DataNull]
  ∧ (countInStore storeName m1).2 = Resolved (Some 0%nat)
  ∧ (getAllDataFromStore storeName m1).2 = Resolved (Some []).
Proof.
  intros Hr m1.
  destruct (ready_clearStore storeName st m Hr) as (m' & E & Hr' & He & _).
  subst m1. rewrite E. simpl.
  destruct (ready_countInStore storeName ∅ m' Hr') as (m2 & -> & _).
  destruct (ready_getAllDataFromStore storeName ∅ m' Hr') as (m3 & -> & _).
  simpl. by rewrite map_size_empty, map_to_list_empty.
Qed.

(** X5.  The three ways of counting agree.  On an open connection,
    [getAllDataFromStore] resolves to the stored records, each key's
    record once; [countInStore] resolves to their number, and so does
    [totalRecords] of [getStatsForStore], which reports the name and the
    version of the configuration. *)
Theorem countInStore_agrees_with_getAllDataFromStore
    {R : JsRuntime} {L : JsRuntimeLaws R}
    (storeName : string) (st : gmap Id DatabaseItem) (m : IndexedDBManager) :
  Ready storeName st m →
  ∃ allData : list DatabaseItem,
    (getAllDataFromStore storeName m).2 = Resolved (Some allData)
    ∧ (∀ x, In x allData ↔ ∃ k, st !! k = Some x)
    ∧ length allData = size st
    ∧ (countInStore storeName m).2 = Resolved (Some (length allData))
    ∧ (getStatsForStore storeName m).2
      = Resolved (Some {| totalRecords := length allData;
                          stats_storeName := storeName;
                          databaseName := cfg_name (dbConfig m);
                          stats_version := cfg_version (dbConfig m) |}).
Proof.
  intros Hr.
  destruct (ready_getAllDataFromStore storeName st m Hr)
    as (m1 & E1 & _ & _ & Hc & _).
  destruct (ready_countInStore storeName st m Hr) as (m2 & E2 & _).
  exists (map snd (map_to_list st)).
  assert (Hlen : length (map snd (map_to_list st)) = size st)
    by by rewrite length_map, length_map_to_list.
  split_and!.
  - by rewrite E1.
  - intros x. rewrite in_map_iff. split.
    + intros ([k y] & <- & Hin). exists k.
      by apply elem_of_map_to_list, list_elem_of_In.
    + intros [k Hk]. exists (k, x). split; [done|].
      by apply list_elem_of_In, elem_of_map_to_list.
  - done.
  - by rewrite E2, Hlen.
  - unfold getStatsForStore. rewrite E1. simpl. by rewrite Hc.
Qed.

(** X6.  [getManyFromStore] resolves to the records found under the
    valid ids, in the order of the ids, one per occurrence of an id;
    invalid ids and ids with no record are skipped without an error.  It
    runs one read-only transaction per valid id and emits nothing. *)
Theorem getManyFromStore_finds_in_order
    {R : JsRuntime} {L : JsRuntimeLaws R}
    (storeName : string) (st : gmap Id DatabaseItem) (ids : list JsValue)
    (m : IndexedDBManager) :
  Ready storeName st m →
  let res := getManyFromStore storeName ids m in
  res.2 = Resolved (Some (foundIn st ids))
  ∧ transactions res.1
    = transactions m
      ++ replicate (length (validIds ids)) (storeName, readonly)
  ∧ emitted res.1 = emitted m
  ∧ host_stores (indexedDB res.1) !! storeName = Some st.
Proof.
  intros Hr res. subst res. unfold getManyFromStore.
  destruct (ready_getManyLoop storeName st ids [] m Hr)
    as (m' & -> & [_ Hst _] & He & Ht).
  done.
Qed.

(** X7.  [updateManyInStore] is all or nothing, and it is an upsert.
    When every record has a key the engine accepts, it resolves to
    [true], every record is stored under its id, those that were not
    there before included, and one [update] event is emitted per record.
    When some record has [NaN] for id, it resolves to [false] and neither
    the store nor the events change. *)
Theorem updateManyInStore_all_or_nothing
    {R : JsRuntime} {L : JsRuntimeLaws R}
    (storeName : string) (st : gmap Id DatabaseItem)
    (items : list DatabaseItem) (m : IndexedDBManager) :
  Ready storeName st m →
  let res := updateManyInStore storeName items m in
  let accepted := forallb (λ x, validKey (item_id x)) items in
  res.2 = Resolved (Some accepted)
  ∧ host_stores (indexedDB res.1) !! storeName
    = Some (if accepted then putAll items st else st)
  ∧ emitted res.1
    = emitted m
      ++ (if accepted
          then map (λ x, eventData (dbConfig m) EvUpdate (DataItem x)) items
          else []).
Proof.
  intros Hr res accepted. subst res accepted.
  destruct (ready_updateManyInStore storeName st items m Hr)
    as (m' & -> & H). simpl.
  destruct (forallb _ items).
  - by destruct H as [[_ Hst _] He].
  - destruct H as [[_ Hst _] He]. by rewrite app_nil_r.
Qed.

(** X8.  [deleteManyFromStore] with ids the engine accepts resolves to
    [true]; afterwards no record is stored under the normalised form of
    any of the ids, every other key holds what it held, and one [delete]
    event per id has been emitted. *)
Theorem deleteManyFromStore_removes_the_ids
    {R : JsRuntime} {L : JsRuntimeLaws R}
    (storeName : string) (st : gmap Id DatabaseItem) (ids : list Id)
    (m : IndexedDBManager) :
  Ready storeName st m →
  (∀ id, In id ids → validKey (normalizeId id) = true) →
  let res := deleteManyFromStore storeName ids m in
  res.2 = Resolved (Some true)
  ∧ (∃ st', host_stores (indexedDB res.1) !! storeName = Some st'
            ∧ ∀ k, st' !! k
                   = if bool_decide (k ∈ map normalizeId ids) then None
                     else st !! k)
  ∧ emitted res.1
    = emitted m
      ++ map (λ id, eventData (dbConfig m) EvDelete (DataId (normalizeId id)))
             ids.
Proof.
  intros Hr Hk res. subst res.
  destruct (ready_deleteManyFromStore storeName st ids m Hr Hk)
    as (m' & -> & [_ Hst _] & He). simpl.
  split_and!; [done | | done].
  eexists. split; [done|]. apply deleteAll_lookup.
Qed.

(** ** What a transaction leaves behind *)

Section TransactionEffects.
Context {R : JsRuntime}.

Lemma host_insert_id (h : HostDatabase) (name : string)
    (st : gmap Id DatabaseItem) :
  host_stores h !! name = Some st →
  {| host_version := host_version h;
     host_stores := <[name := st]> (host_stores h) |} = h.
Proof. intros H. destruct h as [v s]. simpl in *. by rewrite insert_id. Qed.

(** The manager [m'] is [m] with a longer list of transactions and fewer
    commit decisions to come. *)
Record Untouched (m m' : IndexedDBManager) : Prop := {
  untouched_db : db m' = db m;
  untouched_host : indexedDB m' = indexedDB m;
  untouched_emitted : emitted m' = emitted m;
  untouched_config : dbConfig m' = dbConfig m;
  untouched_schema : dbSchema m' = dbSchema m;
  untouched_opens : opens m' = opens m;
}.

Lemma untouched_refl m : Untouched m m.
Proof. done. Qed.

Lemma untouched_trans m1 m2 m3 :
  Untouched m1 m2 → Untouched m2 m3 → Untouched m1 m3.
Proof. intros [] []. split; congruence. Qed.

(** A callback that reads only: it leaves the store and the events. *)
Definition Reading {A} (c : Tx A) : Prop :=
  ∀ ts, txStore (c ts).2 = txStore ts ∧ txEmitted (c ts).2 = txEmitted ts.

Lemma reading_storeGet key : Reading (storeGet key).
Proof. intros ts. unfold storeGet. by destruct (negb _). Qed.

Lemma reading_storeGetAll : Reading storeGetAll.
Proof. done. Qed.

Lemma reading_storeCount : Reading storeCount.
Proof. done. Qed.

Lemma reading_existsCallback key : Reading (existsCallback key).
Proof.
  intros ts. unfold existsCallback, mbind, Tx_bind, txBind.
  pose proof (reading_storeGet key ts) as H.
  by destruct (storeGet key ts) as [[?|?] ?].
Qed.

(** What [executeTransaction] does to an open manager. *)
Lemma executeTransaction_effect {T} (storeName : string)
    (mode : IDBTransactionMode) (callback : Callback T)
    (m : IndexedDBManager) (conn : IDBDatabase) :
  db m = Some conn →
  let res := executeTransaction storeName mode callback m in
  db res.1 = db m ∧ dbConfig res.1 = dbConfig m
  ∧ dbSchema res.1 = dbSchema m ∧ opens res.1 = opens m
  ∧ match res.2 with
    | Rejected _ =>
        indexedDB res.1 = indexedDB m
        ∧ (storeName ∉ objectStoreNames conn ∨ mode = versionchange
           ∨ host_stores (indexedDB m) !! storeName = None →
           emitted res.1 = emitted m ∧ transactions res.1 = transactions m)
    | Resolved result =>
        ∃ st ts value,
          host_stores (indexedDB m) !! storeName = Some st
          ∧ callback {| txMode := mode; txStore := st;
                        txEmitted := emitted m |} = (Fulfils value, ts)
          ∧ result = Some value
          ∧ emitted res.1 = txEmitted ts
          ∧ indexedDB res.1
            = {| host_version := host_version (indexedDB m);
                 host_stores :=
                   <[storeName := txStore ts]> (host_stores (indexedDB m)) |}
    | Pending => False
    end.
Proof.
  intros Hdb res. subst res. unfold executeTransaction.
  rewrite (openDatabase_open m conn Hdb). unfold contains.
  destruct (decide (storeName ∈ objectStoreNames conn)) as [Hin|Hin].
  2: { rewrite bool_decide_false by done. simpl. by split_and!. }
  rewrite bool_decide_true by done. simpl.
  destruct (beginTransaction storeName mode (indexedDB m))
    as [error|st] eqn:Eb.
  { simpl. by split_and!. }
  assert (host_stores (indexedDB m) !! storeName = Some st
          ∧ mode ≠ versionchange) as [Hst Hmode].
  { unfold beginTransaction in Eb. destruct mode; [| |done];
      destruct (host_stores (indexedDB m) !! storeName); by simplify_eq. }
  unfold nextCommitFault. simpl.
  destruct (commitFaults m) as [|fault rest]; simpl.
  - destruct (callback _) as [completion ts] eqn:Ec. simpl.
    fold (outcomeOf completion None). rewrite outcomeOf_eq.
    destruct completion as [value|err|error]; simpl.
    + split_and!; try done. exists st, ts, value. by split_and!.
    + split_and!; try done. intros [?|[?|?]]; by simplify_eq.
    + split_and!; try done. intros [?|[?|?]]; by simplify_eq.
  - destruct (callback _) as [completion ts] eqn:Ec. simpl.
    fold (outcomeOf completion fault). rewrite outcomeOf_eq.
    destruct completion as [value|err|error], fault as [e|]; simpl;
      split_and!; try done;
      try (intros [?|[?|?]]; by simplify_eq).
    exists st, ts, value. by split_and!.
Qed.

(** A transaction that reads only leaves an open manager untouched. *)
Lemma executeTransaction_reading {T} (storeName : string)
    (mode : IDBTransactionMode) (body : Tx T) (m : IndexedDBManager)
    (conn : IDBDatabase) :
  db m = Some conn → Reading body →
  Untouched m (executeTransaction storeName mode (promised body) m).1
  ∧ (executeTransaction storeName mode (promised body) m).2 ≠ Pending.
Proof.
  intros Hdb Hread.
  destruct (executeTransaction_effect storeName mode (promised body) m conn Hdb)
    as (H1 & H2 & H3 & H4 & H5).
  destruct (executeTransaction_quiet storeName mode body m) as (_ & He & Hp).
  { intros ts. apply Hread. }
  split; [|done].
  destruct (executeTransaction storeName mode (promised body) m)
    as [m' [|result|reason]]; simpl in *; [done | |].
  - destruct H5 as (st & ts & value & Hst & Ec & _ & _ & Hh).
    split; try done. rewrite Hh.
    assert (txStore ts = st) as ->; [|by apply host_insert_id].
    unfold promised in Ec. specialize (Hread
      {| txMode := mode; txStore := st; txEmitted := emitted m |}).
    destruct (body _) as [[?|?] ts']; simplify_eq. by destruct Hread.
  - by destruct H5.
Qed.

End TransactionEffects.

Section ReadingFacts.
Context {R : JsRuntime}.

Lemma untouched_getAllDataFromStore storeName m conn :
  db m = Some conn →
  Untouched m (getAllDataFromStore storeName m).1.
Proof.
  intros Hdb. by apply (executeTransaction_reading _ _ _ _ conn).
Qed.

Lemma untouched_getDataByIdFromStore storeName id m conn :
  db m = Some conn →
  Untouched m (getDataByIdFromStore storeName id m).1.
Proof.
  intros Hdb. unfold getDataByIdFromStore.
  destruct (validId id); [|done].
  apply (executeTransaction_reading _ _ _ _ conn); [done|].
  apply reading_storeGet.
Qed.

Lemma untouched_getManyLoop storeName ids :
  ∀ results m conn,
    db m = Some conn →
    Untouched m (getManyLoop storeName ids results m).1.
Proof.
  induction ids as [|id ids IH]; intros results m conn Hdb; [done|].
  cbn [getManyLoop].
  pose proof (untouched_getDataByIdFromStore storeName id m conn Hdb) as Hu.
  destruct (getDataByIdFromStore storeName id m) as [m1 [|[[item|]|]|reason]];
    simpl in *; try done.
  all: eapply untouched_trans; [exact Hu|].
  all: apply (IH _ m1 conn); destruct Hu; congruence.
Qed.

End ReadingFacts.

(** X9.  The reading operations only read.  On an open connection,
    whatever the store name, the argument and the engine's conduct,
    [getAllDataFromStore], [countInStore], [getDataByIdFromStore],
    [getManyFromStore], [searchDataInStore], [filterInStore] and
    [getStatsForStore] leave every store of the engine, the emitted
    events, the connection and the configuration as they were. *)
Theorem reading_operations_change_nothing {R : JsRuntime}
    (storeName : string) (m : IndexedDBManager) (conn : IDBDatabase) :
  db m = Some conn →
  Untouched m (getAllDataFromStore storeName m).1
  ∧ Untouched m (countInStore storeName m).1
  ∧ (∀ id, Untouched m (getDataByIdFromStore storeName id m).1)
  ∧ (∀ ids, Untouched m (getManyFromStore storeName ids m).1)
  ∧ (∀ query, Untouched m (searchDataInStore storeName query m).1)
  ∧ (∀ criteria, Untouched m (filterInStore storeName criteria m).1)
  ∧ Untouched m (getStatsForStore storeName m).1.
Proof.
  intros Hdb.
  pose proof (untouched_getAllDataFromStore storeName m conn Hdb) as Hall.
  split_and!.
  - done.
  - by apply (executeTransaction_reading _ _ _ _ conn).
  - intros id. by apply (untouched_getDataByIdFromStore _ _ _ conn).
  - intros ids. by apply (untouched_getManyLoop _ _ _ _ conn).
  - intros query. unfold searchDataInStore.
    by destruct (getAllDataFromStore storeName m) as [m1 [|[?|]|?]].
  - intros criteria. unfold filterInStore.
    by destruct (getAllDataFromStore storeName m) as [m1 [|[?|]|?]].
  - unfold getStatsForStore.
    by destruct (getAllDataFromStore storeName m) as [m1 [|[?|]|?]].
Qed.

(** ** The manager's own [update] and [delete] *)

Section FacadeFacts.
Context {R : JsRuntime} {L : JsRuntimeLaws R}.

Lemma ready_conn storeName st m :
  Ready storeName st m →
  ∃ conn, db m = Some conn ∧ storeName ∈ objectStoreNames conn.
Proof. by intros []. Qed.

End FacadeFacts.

(** X11.  [update(item)] of the manager rejects where the store-level
    update answers null: for an item with a valid id under which nothing
    is stored, the promise rejects with [Item with id <id> not found] and
    neither the store nor the events change; when a record is stored
    there, it resolves to the stored record overlaid with the item's
    fields. *)
Theorem update_rejects_when_absent {R : JsRuntime} {L : JsRuntimeLaws R}
    (st : gmap Id DatabaseItem) (item : DatabaseItem) (m : IndexedDBManager) :
  Ready (cfg_store (dbConfig m)) st m →
  isValidId (idValue (item_id item)) = true →
  let res := update item m in
  match st !! normalizeId (item_id item) with
  | None =>
      res.2 = Rejected (VError ("Item with id "
                                +:+ ToString (idValue (item_id item))
                                +:+ " not found"))
      ∧ emitted res.1 = emitted m
      ∧ host_stores (indexedDB res.1) = host_stores (indexedDB m)
  | Some stored =>
      res.2 = Resolved (Some (mergeItem stored (asPartial item)
                                        (normalizeId (item_id item))))
  end.
Proof.
  intros Hr Hv res. subst res. unfold update.
  destruct (ready_conn _ _ _ Hr) as (conn & Hdb & Hin).
  destruct Hr as [_ Hst Hf].
  pose proof (updateDataByIdInStore_run (cfg_store (dbConfig m))
                (idValue (item_id item)) (item_id item) (asPartial item)
                m conn st (validId_idValue _ Hv) Hdb Hin Hst Hf) as H.
  destruct (st !! normalizeId (item_id item)) as [stored|].
  - destruct H as (H1 & _).
    destruct (updateDataByIdInStore _ _ _ m) as [m1 r]. simpl in *.
    by subst r.
  - destruct H as (H1 & H2 & H3).
    destruct (updateDataByIdInStore _ _ _ m) as [m1 r]. simpl in *.
    by subst r.
Qed.

(** X12.  [delete(id)] of the manager never rejects: it resolves to a
    boolean.  It resolves to [false] for an invalid id, having touched
    nothing; on an open connection that has the store, with an engine
    that commits, it resolves to [true] for every valid id, whether or
    not a record was stored under it. *)
Theorem delete_never_rejects {R : JsRuntime} {L : JsRuntimeLaws R}
    (id : JsValue) (m : IndexedDBManager) :
  (∃ b, (delete_ id m).2 = Resolved (Some b))
  ∧ (isValidId id = false → delete_ id m = (m, Resolved (Some false)))
  ∧ (∀ st i, Ready (cfg_store (dbConfig m)) st m → validId id = Some i →
       (delete_ id m).2 = Resolved (Some true)
       ∧ host_stores (indexedDB (delete_ id m).1) !! cfg_store (dbConfig m)
         = Some (delete (normalizeId i) st)).
Proof.
  split_and!.
  - unfold delete_.
    pose proof (deleteDataFromStore_events (cfg_store (dbConfig m)) id m) as H.
    destruct (deleteDataFromStore _ id m) as [m1 [|?|?]]; simpl in *;
      [done | by eexists | by eexists].
  - intros Hv%validId_None_iff. unfold delete_, deleteDataFromStore.
    by rewrite Hv.
  - intros st i Hr Hv. unfold delete_.
    destruct (ready_deleteDataFromStore _ st id i m Hr Hv)
      as (m' & -> & [_ Hst _] & _). done.
Qed.

(** ** Opening the database *)

Section OpenFacts.
Context {R : JsRuntime}.

Lemma storeNames_spec (h : HostDatabase) (name : string) :
  name ∈ storeNames h ↔ is_Some (host_stores h !! name).
Proof.
  unfold storeNames. rewrite merge_sort_Permutation.
  rewrite list_elem_of_fmap. split.
  - intros ([k st] & -> & Hin%elem_of_map_to_list). by exists st.
  - intros [st Hst]. exists (name, st). split; [done|].
    by apply elem_of_map_to_list.
Qed.

(** The stores the upgrade asks for. *)
Definition wantedStores (m : IndexedDBManager) : list string :=
  match dbSchema m with
  | Some schema => schema_stores schema
  | None => [cfg_store (dbConfig m)]
  end.

Lemma createIfMissing_lookup stores name other :
  createIfMissing stores name !! other
  = match stores !! other with
    | Some st => Some st
    | None => if bool_decide (other = name) then Some ∅ else None
    end.
Proof.
  unfold createIfMissing. destruct (stores !! name) as [st|] eqn:E.
  - destruct (stores !! other) eqn:E'; [done|].
    rewrite bool_decide_false; [done|]. intros ->. congruence.
  - destruct (decide (other = name)) as [->|Hne].
    + by rewrite lookup_insert_eq, E, bool_decide_true.
    + rewrite lookup_insert_ne by done. rewrite bool_decide_false by done.
      by destruct (stores !! other).
Qed.

Lemma fold_createIfMissing_lookup names :
  ∀ stores other,
    fold_left createIfMissing names stores !! other
    = match stores !! other with
      | Some st => Some st
      | None => if bool_decide (other ∈ names) then Some ∅ else None
      end.
Proof.
  induction names as [|name names IH]; intros stores other.
  - simpl. by destruct (stores !! other).
  - cbn [fold_left]. rewrite IH, createIfMissing_lookup.
    destruct (stores !! other) as [st|]; [done|].
    destruct (decide (other = name)) as [->|Hne].
    + rewrite !bool_decide_true; [done | apply elem_of_cons; by left | done].
    + rewrite (bool_decide_false (other = name)) by done.
      destruct (decide (other ∈ names)).
      * rewrite !bool_decide_true; [done | apply elem_of_cons; by right | done].
      * rewrite !bool_decide_false; [done | | done].
        by intros [?|?]%elem_of_cons.
Qed.

Lemma onupgradeneeded_lookup m stores other :
  onupgradeneeded m stores !! other
  = match stores !! other with
    | Some st => Some st
    | None => if bool_decide (other ∈ wantedStores m) then Some ∅ else None
    end.
Proof.
  unfold onupgradeneeded, wantedStores. destruct (dbSchema m).
  - apply fold_createIfMissing_lookup.
  - rewrite createIfMissing_lookup. destruct (stores !! other); [done|].
    destruct (decide (other = cfg_store (dbConfig m))) as [->|Hne].
    + rewrite !bool_decide_true; [done | by apply list_elem_of_singleton | done].
    + rewrite !bool_decide_false; [done | | done].
      by intros ?%list_elem_of_singleton.
Qed.

End OpenFacts.

(** X13.  What opening does to the stores.  A call of [openDatabase] on
    a closed manager whose configuration is accepted asks the engine
    once.  When it succeeds, the connection lists exactly the stores the
    engine then has, and every store that existed holds the records it
    held.  If the configured version is above the engine's, the stores
    of the schema, or the one store of the configuration, exist
    afterwards, the new ones empty.  If the versions are equal, nothing
    is created: a store the database lacks is still lacking. *)
Theorem openDatabase_creates_stores_only_on_upgrade {R : JsRuntime}
    (m : IndexedDBManager) :
  db m = None →
  is_Some (dbSchema m) ∨ validateDatabaseConfig (dbConfig m) = true →
  let version := cfg_version (dbConfig m) in
  match openDatabase m with
  | (m1, inr conn) =>
      db m1 = Some conn ∧ opens m1 = S (opens m)
      ∧ (host_version (indexedDB m) ≤ version)%nat
      ∧ host_version (indexedDB m1) = version
      ∧ (∀ name, name ∈ objectStoreNames conn
                 ↔ is_Some (host_stores (indexedDB m1) !! name))
      ∧ (∀ name st, host_stores (indexedDB m) !! name = Some st →
                    host_stores (indexedDB m1) !! name = Some st)
      ∧ (if (host_version (indexedDB m) <? version)%nat
         then ∀ name,
                host_stores (indexedDB m) !! name = None →
                host_stores (indexedDB m1) !! name
                = if bool_decide (name ∈ wantedStores m) then Some ∅
                  else None
         else indexedDB m1 = indexedDB m)
  | (m1, inl error) =>
      db m1 = None ∧ opens m1 = S (opens m) ∧ indexedDB m1 = indexedDB m
      ∧ (version = 0%nat ∨ (version < host_version (indexedDB m))%nat)
  end.
Proof.
  intros Hdb Hok version. unfold openDatabase. rewrite Hdb.
  assert (negb (bool_decide (is_Some (dbSchema m)))
          && negb (validateDatabaseConfig (dbConfig m)) = false) as ->.
  { destruct Hok as [Hs| ->]; [|apply andb_false_r].
    by rewrite bool_decide_true. }
  unfold hostOpen. fold version.
  destruct (Nat.eqb_spec version 0) as [E0|N0].
  { simpl. split_and!; [done | done | done | by left]. }
  destruct (Nat.ltb_spec version (host_version (indexedDB m))) as [Hlt|Hge].
  { simpl. split_and!; [done | done | done | by right]. }
  destruct (Nat.ltb_spec (host_version (indexedDB m)) version) as [Hup|Hsame].
  - simpl. split_and!; [done | done | lia | done | apply storeNames_spec | |].
    + intros name st Hst. by rewrite onupgradeneeded_lookup, Hst.
    + intros name Hn. by rewrite onupgradeneeded_lookup, Hn.
  - simpl. assert (host_version (indexedDB m) = version) as Ev by lia.
    split_and!; [done | done | lia | done | apply storeNames_spec | done | done].
Qed.

(** ** The emitter *)

Section EmitterFacts.
Context {D : Type} (throws : nat → D → bool).

(** The function of the caller a listener ends up calling. *)
Definition target (listener : Listener) : nat :=
  match listener with
  | EventCallback ref => ref
  | OnceCallback _ ref => ref
  end.

(** The listeners of an event, in the order of their registration. *)
Definition listeners (event : string) (e : Emitter D) : list Listener :=
  default [] (events e !! event).

(** Whether a listener is still registered after it was called with
    [data]: all are, but the closures of [once] whose callback returned. *)
Definition staysAfter (data : D) (listener : Listener) : bool :=
  match listener with
  | EventCallback _ => true
  | OnceCallback _ ref => throws ref data
  end.

Definition onceSerials (l : list Listener) : list nat :=
  omap (λ x, match x with OnceCallback s _ => Some s | EventCallback _ => None end)
       l.

(** The closures of [once] are registered once each, and were created. *)
Definition WellFormed (e : Emitter D) : Prop :=
  ∀ event l, events e !! event = Some l →
    NoDup (onceSerials l) ∧ ∀ s, s ∈ onceSerials l → (s < created e)%nat.

Lemma onceSerials_app l1 l2 :
  onceSerials (l1 ++ l2) = onceSerials l1 ++ onceSerials l2.
Proof. apply omap_app. Qed.

Lemma onceSerials_elem s l :
  s ∈ onceSerials l ↔ ∃ ref, OnceCallback s ref ∈ l.
Proof.
  unfold onceSerials. rewrite list_elem_of_omap. split.
  - intros ([ref|s' ref] & Hin & E); simplify_eq. by exists ref.
  - intros [ref Hin]. by exists (OnceCallback s ref).
Qed.

Lemma removeFirst_sublist x l : sublist (removeFirst x l) l.
Proof.
  induction l as [|y l IH]; simpl; [done|].
  destruct (decide (y = x)); [by apply sublist_cons | by apply sublist_skip].
Qed.

Lemma onceSerials_sublist l1 l2 :
  sublist l1 l2 → sublist (onceSerials l1) (onceSerials l2).
Proof.
  induction 1 as [|x l1 l2 _ IH|x l1 l2 _ IH]; simpl; [done| |].
  - destruct x; [done | by apply sublist_skip].
  - destruct x; [done | by apply sublist_cons].
Qed.

Lemma removeFirst_absent x l : x ∉ l → removeFirst x l = l.
Proof.
  induction l as [|y l IH]; simpl; [done|]. intros Hn.
  rewrite decide_False; [|intros ->; apply Hn, elem_of_cons; by left].
  rewrite IH; [done|]. intros ?. apply Hn, elem_of_cons. by right.
Qed.

Lemma removeFirst_middle x l1 l2 :
  x ∉ l1 → removeFirst x (l1 ++ x :: l2) = l1 ++ l2.
Proof.
  induction l1 as [|y l1 IH]; simpl; intros Hn.
  - by rewrite decide_True.
  - rewrite decide_False; [|intros ->; apply Hn, elem_of_cons; by left].
    rewrite IH; [done|]. intros ?. apply Hn, elem_of_cons. by right.
Qed.

Lemma wellFormed_new : WellFormed newEmitter.
Proof. intros event l H. simpl in H. by rewrite lookup_empty in H. Qed.

Lemma wellFormed_setEvents_sub (e : Emitter D) event l l' :
  WellFormed e → events e !! event = Some l → sublist l' l →
  WellFormed (setEvents (<[event := l']> (events e)) e).
Proof.
  intros Hwf Hl Hsub ev k. simpl.
  destruct (decide (ev = event)) as [->|Hne].
  - rewrite lookup_insert_eq. intros [= <-].
    destruct (Hwf event l Hl) as [Hnd Hlt].
    pose proof (onceSerials_sublist _ _ Hsub) as Hs. split.
    + by eapply sublist_NoDup.
    + intros s Hin. apply Hlt. by eapply elem_of_sublist.
  - rewrite lookup_insert_ne by done. apply Hwf.
Qed.

Lemma wellFormed_off event callback (e : Emitter D) :
  WellFormed e → WellFormed (off event callback e).
Proof.
  intros Hwf. unfold off. destruct (events e !! event) as [l|] eqn:E; [|done].
  destruct callback as [cb|].
  - eapply wellFormed_setEvents_sub; [done | done | apply removeFirst_sublist].
  - intros ev k. simpl. intros Hk.
    apply lookup_delete_Some in Hk as [_ Hk]. by apply (Hwf ev k).
Qed.

Lemma wellFormed_call ref data (e : Emitter D) :
  WellFormed e → WellFormed (call ref data e).
Proof. done. Qed.

Lemma wellFormed_invoke event data (e : Emitter D) listener :
  WellFormed e → WellFormed (invoke throws event data e listener).
Proof.
  intros Hwf. destruct listener as [ref|s ref]; simpl; [done|].
  destruct (throws ref data); [done|]. by apply wellFormed_off.
Qed.

Lemma wellFormed_fold_invoke event data l :
  ∀ e : Emitter D,
    WellFormed e → WellFormed (fold_left (invoke throws event data) l e).
Proof.
  induction l as [|x l IH]; intros e Hwf; [done|].
  apply IH. by apply wellFormed_invoke.
Qed.

Lemma wellFormed_emit event data (e : Emitter D) :
  WellFormed e → WellFormed (emit throws event data e).
Proof.
  intros Hwf. unfold emit. destruct (events e !! event); [|done].
  by apply wellFormed_fold_invoke.
Qed.

Lemma wellFormed_on event ref (e : Emitter D) :
  WellFormed e → WellFormed (on event (EventCallback ref) e).
Proof.
  intros Hwf ev k. unfold on. simpl.
  destruct (decide (ev = event)) as [->|Hne].
  - rewrite lookup_insert_eq. intros [= <-].
    rewrite onceSerials_app. simpl. rewrite app_nil_r.
    destruct (events e !! event) as [l|] eqn:E; simpl.
    + by apply (Hwf event).
    + split; [constructor | by intros s ?%elem_of_nil].
  - rewrite lookup_insert_ne by done. apply Hwf.
Qed.

Lemma wellFormed_once event ref (e : Emitter D) :
  WellFormed e → WellFormed (once event ref e).
Proof.
  intros Hwf ev k. unfold once, on. simpl.
  destruct (decide (ev = event)) as [->|Hne].
  - rewrite lookup_insert_eq. intros [= <-].
    rewrite onceSerials_app. simpl.
    assert (NoDup (onceSerials (default [] (events e !! event)))
            ∧ ∀ s, s ∈ onceSerials (default [] (events e !! event)) →
                   (s < created e)%nat) as [Hnd Hlt].
    { destruct (events e !! event) as [l|] eqn:E; simpl.
      - by apply (Hwf event).
      - split; [constructor | by intros s ?%elem_of_nil]. }
    split.
    + apply NoDup_app. split_and!; [done | | apply NoDup_singleton].
      intros s Hs ->%list_elem_of_singleton. specialize (Hlt _ Hs). lia.
    + intros s [Hs| ->%list_elem_of_singleton]%elem_of_app; [|lia].
      specialize (Hlt _ Hs). lia.
  - rewrite lookup_insert_ne by done. intros Hk.
    destruct (Hwf ev k Hk) as [Hnd Hlt]. split; [done|].
    intros s Hs. specialize (Hlt _ Hs). lia.
Qed.

Lemma wellFormed_perform (e : Emitter D) (c : EmitterCall D) :
  WellFormed e → WellFormed (perform throws e c).
Proof.
  intros Hwf. destruct c; simpl.
  - by apply wellFormed_on.
  - by apply wellFormed_once.
  - by apply wellFormed_off.
  - by apply wellFormed_emit.
  - intros ev k H. simpl in H. by rewrite lookup_empty in H.
Qed.

Lemma wellFormed_performAll (cs : list (EmitterCall D)) :
  WellFormed (performAll throws cs).
Proof.
  unfold performAll.
  assert (∀ e, WellFormed e → WellFormed (fold_left (perform throws) cs e))
    as H; [|apply H, wellFormed_new].
  induction cs as [|c cs IH]; intros e Hwf; [done|].
  apply IH. by apply wellFormed_perform.
Qed.

(** *** Calls *)

Lemma calls_off event callback (e : Emitter D) :
  calls (off event callback e) = calls e.
Proof.
  unfold off. destruct (events e !! event); [|done]. by destruct callback.
Qed.

Lemma calls_invoke event data (e : Emitter D) listener :
  calls (invoke throws event data e listener)
  = calls e ++ [(target listener, data)].
Proof.
  destruct listener as [ref|s ref]; simpl; [done|].
  destruct (throws ref data); [done|]. by rewrite calls_off.
Qed.

Lemma calls_fold_invoke event data l :
  ∀ e : Emitter D,
    calls (fold_left (invoke throws event data) l e)
    = calls e ++ map (λ x, (target x, data)) l.
Proof.
  induction l as [|x l IH]; intros e; simpl; [by rewrite app_nil_r|].
  by rewrite IH, calls_invoke, <- app_assoc.
Qed.

Lemma calls_emit event data (e : Emitter D) :
  calls (emit throws event data e)
  = calls e ++ map (λ x, (target x, data)) (listeners event e).
Proof.
  unfold emit, listeners. destruct (events e !! event) as [l|]; simpl.
  - apply calls_fold_invoke.
  - by rewrite app_nil_r.
Qed.

(** *** Listeners after an emission *)

Lemma once_not_in_kept s ref kept rest :
  NoDup (onceSerials (kept ++ OnceCallback s ref :: rest)) →
  OnceCallback s ref ∉ kept.
Proof.
  rewrite onceSerials_app. simpl. intros Hnd Hin.
  apply NoDup_app in Hnd as (_ & Hdis & _).
  apply (Hdis s).
  - apply onceSerials_elem. by exists ref.
  - apply elem_of_cons. by left.
Qed.

Lemma events_fold_invoke event data rest :
  ∀ (kept : list Listener) (e : Emitter D),
    events e !! event = Some (kept ++ rest) →
    NoDup (onceSerials (kept ++ rest)) →
    events (fold_left (invoke throws event data) rest e)
    = <[event := kept ++ filter (λ x, staysAfter data x = true) rest]>
        (events e).
Proof.
  induction rest as [|x rest IH]; intros kept e He Hnd.
  - simpl. rewrite app_nil_r in *. by rewrite insert_id.
  - cbn [fold_left]. rewrite filter_cons.
    assert (Hstay : ∀ e' : Emitter D,
              events e' = events e →
              events (fold_left (invoke throws event data) rest e')
              = <[event := kept ++ x :: filter (λ x, staysAfter data x = true)
                                        rest]> (events e)).
    { intros e' Ee. rewrite (IH (kept ++ [x]) e').
      - by rewrite Ee, <- app_assoc.
      - by rewrite Ee, <- app_assoc.
      - by rewrite <- app_assoc. }
    destruct x as [ref|s ref]; simpl.
    + rewrite ?decide_True by done. by apply Hstay.
    + destruct (throws ref data) eqn:Et.
      * rewrite ?decide_True by done. by apply Hstay.
      * rewrite ?decide_False by done.
        pose proof (once_not_in_kept _ _ _ _ Hnd) as Hout.
        assert (Hsub : sublist (kept ++ rest)
                               (kept ++ OnceCallback s ref :: rest)).
        { apply sublist_app; [done | by apply sublist_cons]. }
        rewrite (IH kept).
        -- unfold off, call. simpl. rewrite He. simpl.
           by rewrite insert_insert_eq.
        -- unfold off, call. simpl. rewrite He. simpl.
           rewrite lookup_insert_eq. by rewrite removeFirst_middle.
        -- eapply sublist_NoDup; [exact Hnd|].
           by apply onceSerials_sublist.
Qed.

Lemma events_emit event data (e : Emitter D) :
  WellFormed e →
  events (emit throws event data e)
  = match events e !! event with
    | Some l =>
        <[event := filter (λ x, staysAfter data x = true) l]> (events e)
    | None => events e
    end.
Proof.
  intros Hwf. unfold emit. destruct (events e !! event) as [l|] eqn:E; [|done].
  apply (events_fold_invoke event data l [] e); [done|].
  by apply (Hwf event).
Qed.

End EmitterFacts.

Section EmitterCounting.
Context {D : Type}.

Lemma count_occ_removeFirst (callback x : Listener) (l : list Listener) :
  count_occ Listener_eq_dec (removeFirst callback l) x
  = if decide (x = callback)
    then pred (count_occ Listener_eq_dec l x)
    else count_occ Listener_eq_dec l x.
Proof.
  induction l as [|y l IH]; simpl; [by destruct (decide _)|].
  destruct (decide (y = callback)) as [->|Hy]; simpl.
  - destruct (decide (x = callback)) as [->|Hx];
      destruct (Listener_eq_dec callback _); try done; congruence.
  - rewrite IH.
    destruct (decide (x = callback)) as [->|Hx];
      destruct (Listener_eq_dec y _); try done; congruence.
Qed.

Lemma listeners_off_other event other callback (e : Emitter D) :
  other ≠ event → listeners other (off event callback e) = listeners other e.
Proof.
  intros Hne. unfold listeners, off.
  destruct (events e !! event) as [l|]; [|done].
  destruct callback; simpl.
  - by rewrite lookup_insert_ne.
  - by rewrite lookup_delete_ne.
Qed.

Lemma listeners_off event callback (e : Emitter D) :
  listeners event (off event (Some callback) e)
  = removeFirst callback (listeners event e).
Proof.
  unfold listeners, off. destruct (events e !! event) as [l|] eqn:E; simpl.
  - by rewrite lookup_insert_eq.
  - by rewrite E.
Qed.

End EmitterCounting.

(** X14.  [emit] calls every listener registered for the event, once per
    registration and in the order of registration, with the data: also
    the listeners that follow one that throws, and also those that
    follow a [once] listener, which removes itself while the emission
    runs.  No listener of another event is called. *)
Theorem emit_calls_every_listener_in_order {D : Type}
    (throws : nat → D → bool) (event : string) (data : D) (e : Emitter D) :
  calls (emit throws event data e)
  = calls e ++ map (λ x, (target x, data)) (listeners event e).
Proof. apply calls_emit. Qed.

(** X15.  A [once] listener goes when its callback has returned.  In
    any state the emitter reaches from a new one, an emission removes
    from the event the closures of [once] whose callback returned and no
    other listener: a [once] listener whose callback threw is still
    registered and is called again by the next emission.  The listeners
    of the other events are left alone. *)
Theorem once_listener_removed_when_it_returns {D : Type}
    (throws : nat → D → bool) (cs : list (EmitterCall D))
    (event : string) (first second : D) :
  let e := performAll throws cs in
  let e1 := emit throws event first e in
  listeners event e1
  = filter (λ x, staysAfter throws first x = true) (listeners event e)
  ∧ (∀ other, other ≠ event → listeners other e1 = listeners other e)
  ∧ calls (emit throws event second e1)
    = calls e
      ++ map (λ x, (target x, first)) (listeners event e)
      ++ map (λ x, (target x, second))
             (filter (λ x, staysAfter throws first x = true)
                     (listeners event e)).
Proof.
  intros e e1.
  pose proof (events_emit throws event first e
                (wellFormed_performAll throws cs)) as Hev.
  fold e1 in Hev.
  assert (H1 : listeners event e1
               = filter (λ x, staysAfter throws first x = true)
                        (listeners event e)).
  { unfold listeners. rewrite Hev.
    destruct (events e !! event) as [l|] eqn:E; simpl.
    - by rewrite lookup_insert_eq.
    - by rewrite E. }
  split_and!; [done | |].
  - intros other Hne. unfold listeners. rewrite Hev.
    destruct (events e !! event); [|done]. by rewrite lookup_insert_ne.
  - rewrite calls_emit, H1. subst e1. by rewrite calls_emit, <- app_assoc.
Qed.

(** X16.  [off(event, callback)] removes one registration of the
    callback, the oldest, and nothing else: the listeners before it and
    after it keep their places and their order, later registrations of
    the same callback included, and so does every closure of [once].
    Without a registration of the callback the listeners stay as they
    are.  Hence [once(event, f)] followed by [off(event, f)] leaves the
    [once] listener registered, the last of the event. *)
Theorem off_removes_one_registration {D : Type}
    (event : string) (callback : nat) (e : Emitter D) :
  let e' := off event (Some (EventCallback callback)) e in
  (∀ before after,
     listeners event e = before ++ EventCallback callback :: after →
     EventCallback callback ∉ before →
     listeners event e' = before ++ after)
  ∧ (EventCallback callback ∉ listeners event e →
     listeners event e' = listeners event e)
  ∧ (∀ x, count_occ Listener_eq_dec (listeners event e') x
          = if decide (x = EventCallback callback)
            then pred (count_occ Listener_eq_dec (listeners event e) x)
            else count_occ Listener_eq_dec (listeners event e) x)
  ∧ (∀ other, other ≠ event → listeners other e' = listeners other e)
  ∧ calls e' = calls e
  ∧ (EventCallback callback ∉ listeners event e →
     listeners event
       (off event (Some (EventCallback callback)) (once event callback e))
     = listeners event e ++ [OnceCallback (created e) callback])
  ∧ In (OnceCallback (created e) callback)
       (listeners event
          (off event (Some (EventCallback callback)) (once event callback e))).
Proof.
  intros e'. subst e'.
  assert (Honce : listeners event (once event callback e)
                  = listeners event e ++ [OnceCallback (created e) callback]).
  { unfold listeners, once, on. simpl. by rewrite lookup_insert_eq. }
  split_and!.
  - intros before after Hl Hn. rewrite listeners_off, Hl.
    by apply removeFirst_middle.
  - intros Hn. rewrite listeners_off. by apply removeFirst_absent.
  - intros x. rewrite listeners_off. apply count_occ_removeFirst.
  - intros other Hne. by apply listeners_off_other.
  - apply calls_off.
  - intros Hn. rewrite listeners_off, Honce. apply removeFirst_absent.
    intros [Hin|Hin%list_elem_of_singleton]%elem_of_app; [done | discriminate].
  - rewrite listeners_off. apply (count_occ_In Listener_eq_dec).
    rewrite count_occ_removeFirst. rewrite decide_False by done.
    apply (count_occ_In Listener_eq_dec).
    rewrite Honce. apply in_or_app. right. by left.
Qed.

(** X17.  Removing the last listener of an event with
    [off(event, callback)] leaves the event's name in [getEvents()],
    with [hasListeners(event)] false and [listenerCount(event)] zero;
    [off(event)] without a callback removes the name. *)
Theorem off_keeps_the_event_name {D : Type}
    (event : string) (callback : Listener) (e : Emitter D) :
  (event ∈ getEvents e → event ∈ getEvents (off event (Some callback) e))
  ∧ (listeners event e = [callback] →
     listenerCount event (off event (Some callback) e) = 0%nat
     ∧ hasListeners event (off event (Some callback) e) = false)
  ∧ event ∉ getEvents (off event None e).
Proof.
  unfold getEvents. split_and!.
  - intros [l Hl]%elem_of_dom. unfold off. rewrite Hl. simpl.
    apply elem_of_dom. by rewrite lookup_insert_eq.
  - intros Hl. unfold hasListeners, listenerCount.
    fold (listeners event (off event (Some callback) e)).
    rewrite listeners_off, Hl. simpl. by rewrite decide_True.
  - unfold off. destruct (events e !! event) as [l|] eqn:E; simpl.
    + rewrite dom_delete. intros [_ Hn]%elem_of_difference.
      apply Hn. by apply elem_of_singleton.
    + by apply not_elem_of_dom.
Qed.

(** ** More on identifiers *)

Section MoreIdentifierFacts.
Context {R : JsRuntime} {L : JsRuntimeLaws R}.

Lemma firstGap_Some_least (l : list number) (fuel : nat) (i0 i : Z) :
  firstGap l i0 fuel = Some i →
  ∀ j, i0 ≤ j < i → arrayIncludes l (ofZ j) = true.
Proof.
  revert i0. induction fuel as [|fuel IH]; intros i0; simpl; [done|].
  destruct (arrayIncludes l (ofZ i0)) eqn:E; simpl.
  - intros H j Hj. destruct (decide (j = i0)) as [->|Hne]; [done|].
    apply (IH (i0 + 1)); [done | lia].
  - intros [= <-] j Hj. lia.
Qed.

Lemma numericIdsOf_item (items : list DatabaseItem) (j : Z) :
  In (ofZ j) (numericIdsOf items) →
  ∃ item, In item items ∧ Number (item_id item) = ofZ j.
Proof. by intros [_ H]%numericIdsOf_In. Qed.

(** [Math.max] of integers is the greatest of them. *)
Lemma mathMax_top (l : list number) (top : Z) :
  Z.abs top ≤ 2 ^ 53 →
  (∀ n, In n l → ∃ i, Z.abs i ≤ 2 ^ 53 ∧ i ≤ top ∧ n = ofZ i) →
  In (ofZ top) l →
  mathMax l = ofZ top.
Proof.
  intros Htop Hall Hin.
  assert (∃ zs, l = map ofZ zs
                ∧ Forall (λ z, Z.abs z ≤ 2 ^ 53 ∧ z ≤ top) zs)
    as (zs & -> & Hzs).
  { clear Hin. induction l as [|n l IH].
    - by exists [].
    - destruct (Hall n) as (i & Hi & Hle & ->); [by left|].
      destruct IH as (zs & -> & Hzs); [intros; apply Hall; by right|].
      exists (i :: zs). split; [done | by constructor]. }
  assert (In top zs) as Hin'.
  { apply in_map_iff in Hin as (z & E & Hz).
    rewrite Forall_forall in Hzs. pose proof (Hzs z) as Hb.
    rewrite list_elem_of_In in Hb. specialize (Hb Hz).
    apply ofZ_inj in E; [by subst | lia | lia]. }
  destruct zs as [|z zs]; [done|].
  apply Forall_cons in Hzs as [Hz Hzs].
  unfold mathMax. simpl. unfold max2 at 2.
  rewrite negInfinity_not_nan, ofZ_not_nan by lia.
  rewrite negInfinity_least by (apply ofZ_finite; lia).
  rewrite fold_max2_ofZ.
  - f_equal. apply fold_Zmax_bounds; [lia | |].
    + eapply Forall_impl; [exact Hzs|]. simpl. lia.
    + destruct Hin' as [->|?]; [by left | by right].
  - lia.
  - eapply Forall_impl; [exact Hzs|]. simpl. lia.
Qed.

(** A non-empty list of integers has a greatest element. *)
Lemma greatest_exists (zs : list Z) :
  zs ≠ [] → ∃ top, In top zs ∧ ∀ z, In z zs → z ≤ top.
Proof.
  induction zs as [|z zs IH]; [done|]. intros _.
  destruct zs as [|z' zs'].
  - exists z. split; [by left|]. intros ? [->|[]]. lia.
  - destruct IH as (top & Hin & Hmax); [done|].
    exists (Z.max z top). split.
    + destruct (Z.max_spec z top) as [[_ ->]|[_ ->]]; [by right | by left].
    + intros y [->|Hy]; [lia|]. specialize (Hmax y Hy). lia.
Qed.

End MoreIdentifierFacts.

(** X18.  For a non-empty array of records, [generateNextId] returns the
    least positive integer that is the number of no record's id: it is
    fresh, and every smaller positive integer is taken.  So a gap left
    by a deleted record is filled before a new number is used. *)
Theorem generateNextId_least_unused
    {R : JsRuntime} {L : JsRuntimeLaws R}
    (uuid : string) (items : list DatabaseItem) :
  Z.of_nat (length items) < 2 ^ 53 →
  ∃ k, 1 ≤ k ≤ Z.of_nat (length items) + 1
       ∧ generateNextId uuid (Items items) = IdNum (ofZ k)
       ∧ (∀ item, In item items → Number (item_id item) ≠ ofZ k)
       ∧ (∀ j, 1 ≤ j < k →
            ∃ item, In item items ∧ Number (item_id item) = ofZ j).
Proof.
  intros Hlen. destruct items as [|x rest].
  { exists 1. simpl. split_and!; [lia | lia | done | done | lia]. }
  set (items := x :: rest) in *.
  change (generateNextId uuid (Items items)) with
    (if (length (numericIdsOf items) =? 0)%nat then IdNum (ofZ 1)
     else match firstGap (numericIdsOf items) 1
                         (length (numericIdsOf items)) with
          | Some i => IdNum (ofZ i)
          | None => IdNum (num_add (mathMax (numericIdsOf items)) (ofZ 1))
          end).
  pose proof (numericIdsOf_length items) as Hle.
  destruct (Nat.eqb_spec (length (numericIdsOf items)) 0) as [E0|Hne].
  - exists 1. split_and!; [lia | lia | done | | lia].
    apply not_numeric_fresh; [lia|]. intros Hin.
    destruct (numericIdsOf items); [destruct Hin | discriminate E0].
  - destruct (firstGap (numericIdsOf items) 1 (length (numericIdsOf items)))
      as [i|] eqn:G.
    + pose proof (firstGap_Some_least _ _ _ _ G) as Hleast.
      apply firstGap_Some in G as [Hi Hinc]. exists i.
      split_and!; [lia | lia | done | |].
      * apply not_numeric_fresh; [lia|]. by apply arrayIncludes_false.
      * intros j Hj. apply numericIdsOf_item, arrayIncludes_true; [lia|].
        by apply Hleast.
    + destruct (firstGap_None_range (numericIdsOf items)) as [Hall Honly];
        [lia | done |].
      set (top := Z.of_nat (length (numericIdsOf items))) in *.
      rewrite (mathMax_range _ top); [|lia|done|apply Hall; lia].
      rewrite ofZ_add by lia.
      exists (top + 1). split_and!; [lia | lia | done | |].
      * apply not_numeric_fresh; [lia|].
        intros (i & Hi & E)%Honly. apply ofZ_inj in E; lia.
      * intros j Hj. apply numericIdsOf_item, Hall. lia.
Qed.

Section IdsFacts.
Context {R : JsRuntime} {L : JsRuntimeLaws R}.

Lemma filter_all {A} (P : A → Prop) `{∀ x, Decision (P x)} (l : list A) :
  (∀ x, In x l → P x) → filter P l = l.
Proof.
  induction l as [|x l IH]; intros Hall; [done|].
  rewrite filter_cons, decide_True by (apply Hall; by left).
  f_equal. apply IH. intros; apply Hall; by right.
Qed.

Lemma filter_shorter {A} (P : A → Prop) `{∀ x, Decision (P x)} (l : list A) :
  (∃ x, In x l ∧ ¬ P x) → (length (filter P l) < length l)%nat.
Proof.
  induction l as [|x l IH]; intros (y & Hy & Hn); [destruct Hy|].
  rewrite filter_cons. pose proof (length_filter P l) as Hle.
  destruct (decide (P x)) as [Hp|Hp]; simpl; [|lia].
  destruct Hy as [->|Hy]; [done|].
  assert (length (filter P l) < length l)%nat; [|lia].
  apply IH. by exists y.
Qed.

(** The branch of [generateNextId] for an array of ids, not empty. *)
Lemma generateNextId_ids (uuid : string) (ids : list Id) :
  ids ≠ [] →
  generateNextId uuid (Ids ids)
  = let numericIds :=
      filter (λ n, Is_true (isNumericId n)) (map Number ids) in
    if (length numericIds =? length ids)%nat
    then IdNum (num_add (mathMax (sortNumbers numericIds)) (ofZ 1))
    else if forallb isString ids then IdStr uuid else IdNum (ofZ 1).
Proof. by destruct ids. Qed.

End IdsFacts.

(** X19.  For a non-empty array of ids, [generateNextId] does not fill
    gaps.  When every id is an integer, as a number or as its text, the
    result is the greatest of them plus one.  When every id is a string
    and one of them is not numeric, the result is the random UUID.  When
    the ids are mixed, one not numeric and one not a string, the result
    is 1 whatever the ids are. *)
Theorem generateNextId_of_ids_takes_the_maximum
    {R : JsRuntime} {L : JsRuntimeLaws R}
    (uuid : string) (ids : list Id) :
  ids ≠ [] →
  ((∀ id, In id ids → ∃ z, Z.abs z < 2 ^ 53 ∧ Number id = ofZ z) →
   ∃ top, Z.abs top < 2 ^ 53
          ∧ (∃ id, In id ids ∧ Number id = ofZ top)
          ∧ (∀ id, In id ids → ∃ z, z ≤ top ∧ Number id = ofZ z)
          ∧ generateNextId uuid (Ids ids) = IdNum (ofZ (top + 1)))
  ∧ ((∃ id, In id ids ∧ isNumericId (Number id) = false) →
     generateNextId uuid (Ids ids)
     = if forallb isString ids then IdStr uuid else IdNum (ofZ 1)).
Proof.
  intros Hne. rewrite generateNextId_ids by done. cbv zeta. split.
  - intros Hall.
    assert (∃ zs, map Number ids = map ofZ zs
                  ∧ Forall (λ z, Z.abs z < 2 ^ 53) zs) as (zs & Ezs & Hzs).
    { clear Hne. induction ids as [|id ids IH]; [by exists []|].
      destruct (Hall id) as (z & Hz & Ez); [by left|].
      destruct IH as (zs & Ezs & Hzs); [intros; apply Hall; by right|].
      exists (z :: zs). simpl. rewrite Ez, Ezs. split; [done|].
      by constructor. }
    rewrite Forall_forall in Hzs. setoid_rewrite list_elem_of_In in Hzs.
    rewrite filter_all.
    2: { intros n Hn. rewrite Ezs in Hn.
         apply in_map_iff in Hn as (z & <- & Hz).
         apply Is_true_true, ofZ_numeric. specialize (Hzs z Hz). lia. }
    rewrite length_map, Nat.eqb_refl.
    destruct (greatest_exists zs) as (top & Htop & Hmax).
    { intros ->. destruct ids; [done | discriminate Ezs]. }
    pose proof (Hzs top Htop) as Hb.
    exists top. split_and!; [done | | |].
    + assert (In (ofZ top) (map Number ids)) as Hin.
      { rewrite Ezs. by apply in_map. }
      apply in_map_iff in Hin as (id & E & Hid). by exists id.
    + intros id Hid.
      assert (In (Number id) (map ofZ zs)) as Hin.
      { rewrite <- Ezs. by apply in_map. }
      apply in_map_iff in Hin as (z & E & Hz). exists z.
      split; [by apply Hmax | done].
    + rewrite (mathMax_top _ top).
      * rewrite ofZ_add by lia. done.
      * lia.
      * intros n Hn. apply (proj1 (sortNumbers_In _ _)) in Hn.
        rewrite Ezs in Hn.
        apply in_map_iff in Hn as (z & <- & Hz). exists z.
        specialize (Hzs z Hz). split_and!; [lia | by apply Hmax | done].
      * apply sortNumbers_In. rewrite Ezs. by apply in_map.
  - intros (id & Hid & Hn).
    assert (length (filter (λ n, Is_true (isNumericId n)) (map Number ids))
            < length ids)%nat as Hlt.
    { rewrite <- (length_map Number ids). apply filter_shorter.
      exists (Number id). split; [by apply in_map|].
      rewrite Hn. by intros []. }
    destruct (Nat.eqb_spec
                (length (filter (λ n, Is_true (isNumericId n))
                                (map Number ids)))
                (length ids)); [lia | done].
Qed.

(** X20.  The key [normalizeId] makes of a valid id is one the engine
    accepts: it is never [NaN], and when it is a string it is trimmed and
    not blank.  It is again a valid id, except that the text of a number
    that is not finite and not above [MAX_SAFE_INTEGER], which only
    [-Infinity] is, becomes that number, which [isValidId] refuses. *)
Theorem normalizeId_of_valid_id_is_a_key
    {R : JsRuntime} {L : JsRuntimeLaws R} (id : JsValue) (i : Id) :
  validId id = Some i →
  validKey (normalizeId i) = true
  ∧ (∀ s, normalizeId i = IdStr s →
          Str.trim s = s ∧ Str.isEmpty s = false)
  ∧ (isValidId (idValue (normalizeId i)) = true
     ∨ ∃ s n, i = IdStr s ∧ normalizeId i = IdNum n
              ∧ n = StringToNumber (Str.trim s)
              ∧ isFinite n = false ∧ isNaN n = false
              ∧ num_gtb n MAX_SAFE_INTEGER = false).
Proof.
  intros Hv. split; [by apply (normalizeId_validKey id)|].
  unfold validId in Hv. destruct (isValidId id) eqn:V; [|done].
  destruct id as [| | |n|s| |]; try done; simplify_eq; simpl in V |- *.
  - destruct (num_gtb n MAX_SAFE_INTEGER) eqn:G.
    + destruct (toString_trimmed n G) as [Ht He]. split.
      * by intros s [= <-].
      * left. simpl. by rewrite Ht, He.
    + split; [done|]. left. simpl. done.
  - apply negb_true_iff in V. rewrite V.
    destruct (isNaN (StringToNumber (Str.trim s))) eqn:N; simpl.
    + split.
      * intros s' [= <-]. by rewrite StrFacts.trim_idem.
      * left. simpl. by rewrite StrFacts.trim_idem, V.
    + destruct (num_gtb (StringToNumber (Str.trim s)) MAX_SAFE_INTEGER) eqn:G.
      * split.
        -- intros s' [= <-]. by rewrite StrFacts.trim_idem.
        -- left. simpl. by rewrite StrFacts.trim_idem, V.
      * split; [done|].
        destruct (isFinite (StringToNumber (Str.trim s))) eqn:F.
        -- left. simpl. done.
        -- right. by exists s, (StringToNumber (Str.trim s)).
Qed.

(** ** Missing identifiers *)

Section MissingFacts.
Context {R : JsRuntime} {L : JsRuntimeLaws R}.

Lemma num_leb_ofZ (a b : Z) :
  Z.abs a ≤ 2 ^ 53 → Z.abs b ≤ 2 ^ 53 →
  num_leb (ofZ a) (ofZ b) = (a <=? b).
Proof.
  intros Ha Hb. unfold num_leb.
  rewrite (ofZ_ltb a b Ha Hb), (ofZ_not_nan a Ha). simpl.
  destruct (Z.ltb_spec a b), (Z.leb_spec a b); simpl; try lia; try done.
  - rewrite bool_decide_true; [done|]. f_equal. lia.
  - rewrite bool_decide_false; [done|]. intros E%ofZ_inj; lia.
Qed.

Lemma arrayIncludes_ofZ (l : list number) (j : Z) :
  Z.abs j ≤ 2 ^ 53 →
  arrayIncludes l (ofZ j) = bool_decide (ofZ j ∈ l).
Proof.
  intros Hj. destruct (arrayIncludes l (ofZ j)) eqn:E.
  - apply arrayIncludes_true in E; [|done].
    by rewrite bool_decide_true by by apply list_elem_of_In.
  - apply arrayIncludes_false in E.
    rewrite bool_decide_false; [done|]. by intros ?%list_elem_of_In.
Qed.

Lemma sortedNumbers_ofZ (l : list number) (j : Z) :
  Z.abs j ≤ 2 ^ 53 → ofZ j ∈ sortedNumbers l ↔ ofZ j ∈ l.
Proof.
  intros Hj. unfold sortedNumbers.
  rewrite !list_elem_of_In, sortNumbers_In, <- !list_elem_of_In.
  rewrite list_elem_of_filter. split; [by intros [_ ?]|].
  intros H. split; [by apply ofZ_not_nan | done].
Qed.

Lemma filter_iff_in {A} (P Q : A → Prop) `{∀ x, Decision (P x)}
    `{∀ x, Decision (Q x)} (l : list A) :
  (∀ x, x ∈ l → P x ↔ Q x) → filter P l = filter Q l.
Proof.
  induction l as [|x l IH]; intros Hall; [done|].
  rewrite !filter_cons.
  rewrite IH by (intros y Hy; apply Hall, elem_of_cons; by right).
  pose proof (Hall x ltac:(apply elem_of_cons; by left)) as Hx.
  destruct (decide (P x)) as [p|p], (decide (Q x)) as [q|q]; try done.
  - destruct q. by apply Hx.
  - destruct p. by apply Hx.
Qed.

Lemma missingInRange_run (numericIds : list number) (b : Z) (fuel : nat) :
  Z.abs b < 2 ^ 53 →
  ∀ (a : Z) (missingIds : list Id),
    - 2 ^ 53 < a ≤ 2 ^ 53 →
    (Z.to_nat (b - a + 1) ≤ fuel)%nat →
    missingInRange fuel numericIds (ofZ b) (ofZ a) missingIds
    = Some (missingIds
            ++ map (λ j, IdNum (ofZ j))
                   (filter (λ j, ofZ j ∉ numericIds) (seqZ a (b - a + 1)))).
Proof.
  intros Hb. induction fuel as [|fuel IH]; intros a missingIds Ha Hfuel.
  - assert (b < a) by lia. simpl.
    rewrite num_leb_ofZ by lia.
    destruct (Z.leb_spec a b); [lia|].
    rewrite seqZ_nil by lia. by rewrite app_nil_r.
  - simpl. destruct (Z.le_gt_cases a b) as [Hle|Hgt].
    + rewrite num_leb_ofZ by lia.
      destruct (Z.leb_spec a b); [|lia].
      rewrite ofZ_add by lia. rewrite IH by lia.
      rewrite arrayIncludes_ofZ by lia.
      rewrite (seqZ_cons a) by lia. rewrite filter_cons.
      replace (Z.pred (b - a + 1)) with (b - (a + 1) + 1) by lia.
      replace (Z.succ a) with (a + 1) by lia.
      destruct (decide (ofZ a ∈ numericIds)) as [Hin|Hin].
      * rewrite bool_decide_true by done.
        by rewrite decide_False by (by intros Hn; apply Hn).
      * rewrite bool_decide_false by done.
        rewrite decide_True by done. simpl. by rewrite <- app_assoc.
    + rewrite num_leb_ofZ by lia.
      destruct (Z.leb_spec a b); [lia|].
      rewrite seqZ_nil by lia. by rewrite app_nil_r.
Qed.

End MissingFacts.

(** X21.  For an array of ids and two integers, [findMissingIds] returns,
    in increasing order, the integers from [start] to [end] that are the
    number of no id, an id being counted as its number whether it is a
    number or its text; the array is empty when [end] is below [start].
    As many turns as the range has integers are enough. *)
Theorem findMissingIds_lists_the_unused_of_the_range
    {R : JsRuntime} {L : JsRuntimeLaws R}
    (ids : list Id) (a b : Z) (fuel : nat) :
  Z.abs a < 2 ^ 53 → Z.abs b < 2 ^ 53 →
  (Z.to_nat (b - a + 1) ≤ fuel)%nat →
  findMissingIds fuel (Ids ids) (Some (IdNum (ofZ a))) (Some (IdNum (ofZ b)))
  = Some (map (λ j, IdNum (ofZ j))
              (filter (λ j, ofZ j ∉ map Number ids) (seqZ a (b - a + 1)))).
Proof.
  intros Ha Hb Hfuel. unfold findMissingIds.
  rewrite missingInRange_run by lia. simpl. do 2 f_equal.
  apply filter_iff_in. intros j Hj%elem_of_seqZ.
  by rewrite sortedNumbers_ofZ by lia.
Qed.

(** *** Sorting integers as numbers *)

Section SortNatural.
Context {A B : Type} (f : A → B) (R1 : relation A) (R2 : relation B).
Context `{∀ x y, Decision (R1 x y)} `{∀ x y, Decision (R2 x y)}.
Context (P : A → Prop).
Context (Hagree : ∀ x y, P x → P y → R2 (f x) (f y) ↔ R1 x y).

Lemma list_merge_fmap (l1 l2 : list A) :
  Forall P l1 → Forall P l2 →
  list_merge R2 (f <$> l1) (f <$> l2) = f <$> list_merge R1 l1 l2.
Proof.
  revert l2. induction l1 as [|x1 l1 IH1]; intros l2 H1 H2.
  { by destruct l2. }
  induction l2 as [|x2 l2 IH2]; [done|].
  apply Forall_cons in H1 as [Hx1 H1']. apply Forall_cons in H2 as [Hx2 H2'].
  rewrite !fmap_cons, !list_merge_cons.
  destruct (decide (R1 x1 x2)) as [r|r].
  - rewrite decide_True by by apply Hagree.
    rewrite fmap_cons. f_equal.
    rewrite <- (fmap_cons f x2 l2). apply IH1; [done | by constructor].
  - rewrite decide_False by (by rewrite Hagree).
    rewrite fmap_cons. f_equal.
    rewrite <- (fmap_cons f x1 l1). apply IH2. done.
Qed.

Lemma list_merge_Forall (l1 l2 : list A) :
  Forall P l1 → Forall P l2 → Forall P (list_merge R1 l1 l2).
Proof.
  intros H1 H2. rewrite merge_Permutation. by apply Forall_app.
Qed.

Definition stackP (st : list (option (list A))) : Prop :=
  Forall (λ o, match o with Some l => Forall P l | None => True end) st.

Definition stackMap (st : list (option (list A))) : list (option (list B)) :=
  (λ o : option (list A), fmap (M := list) f <$> o) <$> st.

Lemma merge_list_to_stack_fmap st (l : list A) :
  stackP st → Forall P l →
  merge_list_to_stack R2 (stackMap st) (f <$> l)
  = stackMap (merge_list_to_stack R1 st l)
  ∧ stackP (merge_list_to_stack R1 st l).
Proof.
  revert l. induction st as [|[l'|] st IH]; intros l Hst Hl; simpl.
  - split; [done|]. by repeat constructor.
  - apply Forall_cons in Hst as [Hl' Hst].
    rewrite list_merge_fmap by done.
    destruct (IH (list_merge R1 l' l) Hst (list_merge_Forall _ _ Hl' Hl))
      as [-> Hp].
    split; [done|]. by constructor.
  - apply Forall_cons in Hst as [_ Hst]. split; [done|]. by constructor.
Qed.

Lemma merge_stack_fmap st :
  stackP st →
  merge_stack R2 (stackMap st) = f <$> merge_stack R1 st
  ∧ Forall P (merge_stack R1 st).
Proof.
  induction st as [|[l|] st IH]; intros Hst; simpl.
  - done.
  - apply Forall_cons in Hst as [Hl Hst]. destruct (IH Hst) as [-> Hp].
    split; [by apply list_merge_fmap | by apply list_merge_Forall].
  - apply Forall_cons in Hst as [_ Hst]. by apply IH.
Qed.

Lemma merge_sort_aux_fmap (l : list A) :
  ∀ st, stackP st → Forall P l →
    merge_sort_aux R2 (stackMap st) (f <$> l)
    = f <$> merge_sort_aux R1 st l.
Proof.
  induction l as [|x l IH]; intros st Hst Hl; simpl.
  - by apply merge_stack_fmap.
  - apply Forall_cons in Hl as [Hx Hl].
    destruct (merge_list_to_stack_fmap st [x] Hst) as [E Hp].
    { by repeat constructor. }
    simpl in E. rewrite E. by apply IH.
Qed.

Lemma merge_sort_fmap (l : list A) :
  Forall P l → merge_sort R2 (f <$> l) = f <$> merge_sort R1 l.
Proof.
  intros Hl. unfold merge_sort.
  apply (merge_sort_aux_fmap l []); [constructor | done].
Qed.

End SortNatural.

Section RecordsFacts.
Context {R : JsRuntime} {L : JsRuntimeLaws R}.

Lemma sortNumbers_ofZ (ks : list Z) :
  Forall (λ k, Z.abs k ≤ 2 ^ 53) ks →
  sortNumbers (map ofZ ks) = map ofZ (merge_sort Z.le ks).
Proof.
  intros Hks. unfold sortNumbers.
  apply (merge_sort_fmap ofZ Z.le num_le (λ k, Z.abs k ≤ 2 ^ 53)); [|done].
  intros x y Hx Hy. unfold num_le. rewrite ofZ_ltb by done.
  destruct (Z.ltb_spec y x); split; (done || lia).
Qed.

Lemma whileBelow_run (k : Z) (fuel : nat) :
  Z.abs k ≤ 2 ^ 53 →
  ∀ (e : Z) (missingIds : list number),
    - 2 ^ 53 ≤ e →
    e ≤ k ∨ e ≤ 2 ^ 53 →
    (Z.to_nat (k - e) ≤ fuel)%nat →
    ∃ e', whileBelow fuel (ofZ k) (ofZ e) missingIds
          = Some (e', missingIds ++ map ofZ (seqZ e (k - e))).
Proof.
  intros Hk. induction fuel as [|fuel IH]; intros e missingIds He He' Hfuel.
  - simpl. rewrite ofZ_ltb by lia.
    destruct (Z.ltb_spec e k); [lia|].
    rewrite seqZ_nil by lia. simpl. rewrite app_nil_r. by eexists.
  - simpl. rewrite ofZ_ltb by lia.
    destruct (Z.ltb_spec e k).
    + rewrite ofZ_add by lia.
      destruct (IH (e + 1) (missingIds ++ [ofZ e])) as [e' ->]; [lia..|].
      exists e'. rewrite (seqZ_cons e) by lia. simpl.
      rewrite <- app_assoc. simpl.
      replace (Z.pred (k - e)) with (k - (e + 1)) by lia.
      by replace (Z.succ e) with (e + 1) by lia.
    + rewrite seqZ_nil by lia. simpl. rewrite app_nil_r. by eexists.
Qed.

(** The integers the loop of [findMissingIds] pushes: those between
    [expectedId] and the first id, then those between consecutive ids. *)
Fixpoint gaps (e : Z) (ks : list Z) : list Z :=
  match ks with
  | [] => []
  | k :: rest => seqZ e (k - e) ++ gaps (k + 1) rest
  end.

Lemma missingBetween_run (fuel : nat) (ks : list Z) :
  ∀ (e : Z) (missingIds : list number),
    StronglySorted Z.le ks →
    - 2 ^ 53 < e →
    (∀ k, k ∈ ks → e - 1 ≤ k < 2 ^ 53 ∧ (Z.to_nat (k - e) ≤ fuel)%nat) →
    missingBetween fuel (map ofZ ks) (ofZ e) missingIds
    = Some (missingIds ++ map ofZ (gaps e ks)).
Proof.
  induction ks as [|k rest IH]; intros e missingIds Hs He Hall.
  - simpl. by rewrite app_nil_r.
  - apply StronglySorted_cons in Hs as [Hle Hs].
    destruct (Hall k) as [Hk Hf]; [apply elem_of_cons; by left|].
    cbn [map missingBetween gaps].
    destruct (whileBelow_run k fuel ltac:(lia) e missingIds ltac:(lia)
                ltac:(lia) Hf) as [e' ->].
    rewrite ofZ_add by lia. rewrite IH; [| done | lia |].
    + by rewrite map_app, app_assoc.
    + intros k' Hk'. rewrite Forall_forall in Hle.
      specialize (Hle k' Hk').
      destruct (Hall k') as [Hb Hf']; [apply elem_of_cons; by right|].
      split; lia.
Qed.

Lemma filter_none_in (ks : list Z) (l : list Z) :
  (∀ j, j ∈ l → j ∉ ks) → filter (λ j, j ∉ ks) l = l.
Proof.
  intros H. induction l as [|j l IH]; [done|].
  rewrite filter_cons, decide_True by (apply H, elem_of_cons; by left).
  f_equal. apply IH. intros; apply H, elem_of_cons; by right.
Qed.

Lemma gaps_filter (ks : list Z) :
  ∀ e top,
    StronglySorted Z.le ks →
    (∀ k, k ∈ ks → e - 1 ≤ k ≤ top) →
    (ks = [] → top ≤ e) →
    (ks ≠ [] → top ∈ ks) →
    gaps e ks = filter (λ j, j ∉ ks) (seqZ e (top - e)).
Proof.
  induction ks as [|k rest IH]; intros e top Hs Hall Hnil Hin.
  - simpl. rewrite seqZ_nil; [done|]. specialize (Hnil eq_refl). lia.
  - apply StronglySorted_cons in Hs as [Hle Hs].
    rewrite Forall_forall in Hle.
    destruct (Hall k) as [Hk1 Hk2]; [apply elem_of_cons; by left|].
    assert (Hrest : gaps (k + 1) rest
                    = filter (λ j, j ∉ rest) (seqZ (k + 1) (top - (k + 1)))).
    { apply IH; [done | | |].
      - intros k' Hk'. specialize (Hle k' Hk').
        destruct (Hall k'); [apply elem_of_cons; by right|]. lia.
      - intros ->. pose proof (Hin ltac:(done)) as Ht.
        apply elem_of_cons in Ht as [Ht|Ht]; [lia|].
        by apply elem_of_nil in Ht.
      - intros Hne. pose proof (Hin ltac:(done)) as Ht.
        apply elem_of_cons in Ht as [->|Ht]; [|done].
        destruct rest as [|k' rest']; [done|].
        assert (k' = k) as ->.
        { specialize (Hle k' ltac:(apply elem_of_cons; by left)).
          destruct (Hall k'); [apply elem_of_cons; right;
                               apply elem_of_cons; by left|]. lia. }
        apply elem_of_cons. by left. }
    assert (Hskip : ∀ n, filter (λ j, j ∉ k :: rest) (seqZ (k + 1) n)
                         = filter (λ j, j ∉ rest) (seqZ (k + 1) n)).
    { intros n. apply filter_iff_in. intros j Hj%elem_of_seqZ.
      rewrite not_elem_of_cons. split; [by intros [_ ?]|].
      intros ?. split; [lia | done]. }
    cbn [gaps]. rewrite Hrest.
    destruct (Z.le_gt_cases e k) as [Hek|Hek].
    + replace (top - e) with ((k - e) + (top - k)) by lia.
      rewrite seqZ_app by lia. rewrite filter_app.
      replace (e + (k - e)) with k by lia.
      rewrite (filter_none_in (k :: rest)).
      2: { intros j Hj%elem_of_seqZ [->|Hr]%elem_of_cons; [lia|].
           specialize (Hle j Hr). lia. }
      f_equal.
      destruct (Z.eq_dec k top) as [->|Hne].
      * rewrite !seqZ_nil by lia. done.
      * rewrite (seqZ_cons k) by lia. rewrite filter_cons.
        rewrite decide_False by (intros Hn; apply Hn, elem_of_cons; by left).
        replace (Z.succ k) with (k + 1) by lia.
        replace (Z.pred (top - k)) with (top - (k + 1)) by lia.
        by rewrite Hskip.
    + rewrite <- Hskip. rewrite (seqZ_nil e (k - e)) by lia.
      replace (k + 1) with e by lia. done.
Qed.

End RecordsFacts.

Section RecordsAssembly.
Context {R : JsRuntime} {L : JsRuntimeLaws R}.

Lemma numbers_of_integers (l : list number) (top : Z) :
  (∀ n, In n l → isNaN n = true ∨ ∃ k, 0 ≤ k ≤ top ∧ n = ofZ k) →
  ∃ ks, filter (λ n, isNaN n = false) l = map ofZ ks
        ∧ Forall (λ k, 0 ≤ k ≤ top) ks.
Proof.
  induction l as [|n l IH]; intros Hall; [by exists []|].
  destruct IH as (ks & E & Hks); [intros; apply Hall; by right|].
  rewrite filter_cons.
  destruct (Hall n) as [Hn|(k & Hk & ->)]; [by left | |].
  - rewrite decide_False by (by rewrite Hn). by exists ks.
  - destruct (decide (isNaN (ofZ k) = false)).
    + exists (k :: ks). simpl. rewrite E. split; [done | by constructor].
    + by exists ks.
Qed.

End RecordsAssembly.

(** X22.  For a non-empty array of records, [findMissingIds] ignores
    [start] and [end].  When the ids that are numbers are integers from
    0 on, it returns, in increasing order, the integers from 0 up to the
    greatest id that are the number of no record's id; ids whose number
    is [NaN] are passed over.  As many turns as the greatest id are
    enough. *)
Theorem findMissingIds_of_records_lists_the_gaps
    {R : JsRuntime} {L : JsRuntimeLaws R}
    (fuel : nat) (items : list DatabaseItem) (top : Z)
    (start end_ : option Id) :
  (∀ item, In item items →
     isNaN (Number (item_id item)) = true
     ∨ ∃ k, 0 ≤ k ≤ top ∧ Number (item_id item) = ofZ k) →
  (∃ item, In item items ∧ Number (item_id item) = ofZ top) →
  0 ≤ top < 2 ^ 53 →
  (Z.to_nat top ≤ fuel)%nat →
  findMissingIds fuel (Items items) start end_
  = Some (map (λ j, IdNum (ofZ j))
              (filter (λ j, ofZ j ∉ map (λ item, Number (item_id item)) items)
                      (seqZ 0 top))).
Proof.
  intros Hall (witness & Hw & Ew) Htop Hfuel.
  set (l := map (λ item, Number (item_id item)) items).
  assert (Hl : ∀ n, In n l → isNaN n = true ∨ ∃ k, 0 ≤ k ≤ top ∧ n = ofZ k).
  { intros n (item & <- & Hi)%in_map_iff. by apply Hall. }
  destruct (numbers_of_integers l top Hl) as (ks & Eks & Hks).
  assert (Hmem : ∀ j, Z.abs j ≤ 2 ^ 53 → j ∈ ks ↔ ofZ j ∈ l).
  { intros j Hj. rewrite <- (sortedNumbers_ofZ l j Hj). unfold sortedNumbers.
    rewrite Eks, !list_elem_of_In, sortNumbers_In, in_map_iff. split.
    - intros Hin. by exists j.
    - intros (k & E & Hk). apply ofZ_inj in E; [by subst | | done].
      rewrite Forall_forall in Hks.
      specialize (Hks k (proj2 (list_elem_of_In _ _) Hk)). lia. }
  assert (Hbound : Forall (λ k, Z.abs k ≤ 2 ^ 53) ks).
  { eapply Forall_impl; [exact Hks|]. simpl. lia. }
  set (sks := merge_sort Z.le ks).
  assert (Hperm : sks ≡ₚ ks) by apply merge_sort_Permutation.
  assert (Hsorted : StronglySorted Z.le sks)
    by apply (StronglySorted_merge_sort _).
  assert (Hin : ∀ k, k ∈ sks → 0 ≤ k ≤ top).
  { intros k Hk. rewrite Hperm in Hk. rewrite Forall_forall in Hks.
    by apply Hks. }
  assert (Htopin : top ∈ sks).
  { rewrite Hperm. apply Hmem; [lia|]. rewrite <- Ew.
    apply list_elem_of_In. unfold l.
    by apply (in_map (λ item, Number (item_id item))). }
  destruct items as [|x rest]; [destruct Hw|].
  unfold findMissingIds. fold l. unfold sortedNumbers.
  rewrite Eks, sortNumbers_ofZ by done. fold sks.
  rewrite (missingBetween_run fuel sks 0 []); [| done | lia |].
  2: { intros k Hk. specialize (Hin k Hk). split; lia. }
  simpl. rewrite (gaps_filter sks 0 top); [| done | | |].
  - rewrite Z.sub_0_r, map_map. do 2 f_equal.
    apply filter_iff_in. intros j Hj%elem_of_seqZ.
    rewrite Hperm. by rewrite Hmem by lia.
  - intros k Hk. specialize (Hin k Hk). lia.
  - intros E. rewrite E in Htopin. by apply elem_of_nil in Htopin.
  - done.
Qed.

(** ** Searching with options, and searching text *)

Section SearchingFacts.
Context {R : JsRuntime}.









End SearchingFacts.


(** X24.  The text search of the manager keeps, in the order of the
    store, the records that have, in one of the fields searched, a
    string that contains the query, letter case left aside; a field
    that holds a number or nothing never matches.  The fields are
    [name], [title] and [description] unless others are given, and an
    empty list of fields finds nothing. *)
Theorem search_finds_text_in_fields {R : JsRuntime}
    (query : string) (fields : option (list string))
    (m m1 : IndexedDBManager) (allData : list DatabaseItem) :
  getAllDataFromStore (cfg_store (dbConfig m)) m
  = (m1, Resolved (Some allData)) →
  ∃ found,
    search query fields m = (m1, Resolved (Some found))
    ∧ sublist found allData
    ∧ (∀ item,
         In item found ↔
         In item allData
         ∧ ∃ field value,
             In field (default ["name"; "title"; "description"] fields)
             ∧ getField item field = VString value
             ∧ substringIgnoringCase query value)
    ∧ (fields = Some [] → found = []).
Proof.
  intros Hall. unfold search. rewrite Hall. eexists.
  split; [reflexivity|]. split_and!.
  - clear Hall. induction allData as [|x l IH]; simpl; [done|].
    destruct (existsb _ _); [by apply sublist_skip | by apply sublist_cons].
  - intros item. rewrite filter_In, existsb_exists. split.
    + intros [Hin (field & Hf & Hm)]. split; [done|].
      destruct (getField item field) as [| | | |value| |] eqn:E; try done.
      exists field, value. split_and!; [done | done |].
      by apply StrFacts.includes_spec.
    + intros [Hin (field & value & Hf & E & Hs)]. split; [done|].
      exists field. split; [done|]. rewrite E.
      by apply StrFacts.includes_spec.
  - intros ->. clear Hall. induction allData as [|x l IH]; [done | exact IH].
Qed.

(** ** Filtering and searching, closing and opening again *)

Section FilterFacts.
Context {R : JsRuntime}.

(** The criteria of a filter, read as the query of a search. *)
Definition asQuery (criteria : gmap string JsValue) : PartialItem :=
  {| partial_id := VUndefined; partial_props := criteria |}.

Lemma forallb_same {A} (f g : A → bool) (l : list A) :
  (∀ x, x ∈ l → f x = g x) → forallb f l = forallb g l.
Proof.
  induction l as [|x l IH]; simpl; [done|]. intros H.
  rewrite (H x) by apply elem_of_cons, or_introl, eq_refl.
  rewrite IH; [done|]. intros y Hy. apply H, elem_of_cons. by right.
Qed.

Lemma filter_all_true {A} (f : A → bool) (l : list A) :
  (∀ x, f x = true) → List.filter f l = l.
Proof.
  intros Hf. induction l as [|x l IH]; simpl; [done|].
  by rewrite Hf, IH.
Qed.

End FilterFacts.

(** X25.  Filtering and searching agree where no criterion is a string:
    [searchDataInStore] with the criteria as its query and no options
    settles as [filterInStore] does, with the records [filterInStore]
    keeps as its [items] and their number as its [total]; with no
    criterion at all both keep every record. *)
Theorem searchDataInStore_agrees_with_filterInStore {R : JsRuntime}
    (storeName : string) (criteria : gmap string JsValue)
    (m : IndexedDBManager) :
  (∀ key s, criteria !! key ≠ Some (VString s)) →
  searchDataInStore storeName (asQuery criteria) m
  = match filterInStore storeName criteria m with
    | (m1, Resolved (Some found)) =>
        (m1, Resolved (Some {| items := found; total := length found |}))
    | (m1, Resolved None) => (m1, Rejected (VError "TypeError"))
    | (m1, Rejected reason) => (m1, Rejected reason)
    | (m1, Pending) => (m1, Pending)
    end
  ∧ (∀ m1 allData,
       criteria = ∅ →
       getAllDataFromStore storeName m = (m1, Resolved (Some allData)) →
       filterInStore storeName criteria m = (m1, Resolved (Some allData))).
Proof.
  intros Hs. unfold searchDataInStore, filterInStore, asQuery, entries.
  simpl. destruct (getAllDataFromStore storeName m) as [m1 [|[allData|]|]];
    simpl; [done | | done | done].
  assert (Hsame : List.filter
            (matchesQuery {| partial_id := VUndefined;
                             partial_props := criteria |}) allData
          = List.filter
              (λ item,
                 forallb (λ kv : string * JsValue,
                            match kv.2 with
                            | VUndefined | VNull => true
                            | value => strictEquals (getField item kv.1) value
                            end)
                         (map_to_list criteria)) allData).
  { apply filter_ext. intros item. unfold matchesQuery, entries. simpl.
    apply forallb_same. intros [key value] Hin%elem_of_map_to_list. simpl.
    destruct value; try done. by destruct (Hs key s). }
  split.
  - destruct (length (map_to_list criteria) =? 0)%nat eqn:E.
    + apply Nat.eqb_eq in E. destruct (map_to_list criteria); [|done].
      simpl. by rewrite (filter_all_true (λ _, true)).
    + by rewrite Hsame.
  - intros m2 allData2 -> [= <- <-]. rewrite map_to_list_empty. simpl.
    by rewrite (filter_all_true (λ _, true)).
Qed.

Section ReopenFacts.
Context {R : JsRuntime}.

Lemma contains_spec (names : list string) (name : string) :
  contains names name = true ↔ name ∈ names.
Proof. unfold contains. by rewrite bool_decide_eq_true. Qed.

Lemma executeTransaction_after_open {T} (storeName : string)
    (mode : IDBTransactionMode) (callback : Callback T)
    (m m1 : IndexedDBManager) (conn : IDBDatabase) :
  openDatabase m = (m1, inr conn) → db m1 = Some conn →
  executeTransaction storeName mode callback m
  = executeTransaction storeName mode callback m1.
Proof.
  intros Ho Hdb. unfold executeTransaction.
  by rewrite Ho, (openDatabase_open m1 conn Hdb).
Qed.

End ReopenFacts.

(** X26.  Closing is not final.  After [close()] on a manager whose
    database the engine holds at the version of the configuration, the
    next opening asks the engine once more and gets a connection on the
    stores as they are, nothing created and nothing lost; a transaction
    run on the closed manager is the transaction run on the manager so
    reopened, and [getAllDataFromStore] settles as it did before the
    closing. *)
Theorem close_then_operation_reopens {R : JsRuntime} {T : Type}
    (storeName : string) (st : gmap Id DatabaseItem)
    (mode : IDBTransactionMode) (callback : Callback T)
    (m : IndexedDBManager) :
  Ready storeName st m →
  is_Some (dbSchema m) ∨ validateDatabaseConfig (dbConfig m) = true →
  cfg_version (dbConfig m) = host_version (indexedDB m) →
  (0 < cfg_version (dbConfig m))%nat →
  ∃ m1,
    (openDatabase (close m)).1 = m1
    ∧ Ready storeName st m1
    ∧ opens m1 = S (opens m)
    ∧ indexedDB m1 = indexedDB m
    ∧ emitted m1 = emitted m
    ∧ executeTransaction storeName mode callback (close m)
      = executeTransaction storeName mode callback m1
    ∧ (getAllDataFromStore storeName (close m)).2
      = (getAllDataFromStore storeName m).2.
Proof.
  intros Hr Hvalid Hv Hpos.
  pose proof Hr as [(conn & Hdb & Hin) Hst Hf].
  set (conn' := {| objectStoreNames := storeNames (indexedDB m) |}).
  assert (Ho : openDatabase (close m)
               = (setDb (Some conn') (setHost (indexedDB m)
                    (setOpens (S (opens m)) (close m))), inr conn')).
  { unfold openDatabase, close. simpl.
    assert (negb (bool_decide (is_Some (dbSchema m)))
            && negb (validateDatabaseConfig (dbConfig m)) = false) as ->.
    { destruct Hvalid as [Hs|Hc].
      - by rewrite (bool_decide_true _ Hs).
      - rewrite Hc. by rewrite andb_false_r. }
    unfold hostOpen. rewrite Hv.
    destruct (Nat.eqb_spec (host_version (indexedDB m)) 0); [lia|].
    by rewrite Nat.ltb_irrefl. }
  eexists. split; [by rewrite Ho|]. split_and!; try done.
  - split; [|done|done]. exists conn'. split; [done|].
    apply storeNames_spec. by rewrite Hst.
  - by apply (executeTransaction_after_open _ _ _ _ _ conn').
  - unfold getAllDataFromStore.
    rewrite (executeTransaction_after_open _ _ _ _ _ conn' Ho eq_refl).
    destruct (transaction_ready storeName readonly storeGetAll m st)
      as (m2 & -> & _); [done | done |].
    destruct (transaction_ready storeName readonly storeGetAll
                (setDb (Some conn') (setHost (indexedDB m)
                   (setOpens (S (opens m)) (close m)))) st)
      as (m3 & -> & _); [|done|done].
    split; [|done|done]. exists conn'. split; [done|].
    apply storeNames_spec. by rewrite Hst.
Qed.

(** ** The runtime of exact integers obeys the laws *)

Module IntRuntimeFacts.
Import IntRuntime.

Definition isDigit (c : ascii) : bool :=
  match c with
  | "0" | "1" | "2" | "3" | "4" | "5" | "6" | "7" | "8" | "9" => true
  | _ => false
  end%char.

(** A non-empty string of decimal digits. *)
Fixpoint digits (s : string) : bool :=
  match s with
  | EmptyString => true
  | String c r => isDigit c && digits r
  end.

Lemma string_of_uint_digits (d : Decimal.uint) :
  digits (DecimalString.NilEmpty.string_of_uint d) = true.
Proof. induction d; simpl; done. Qed.

Lemma printDigits_digits (n : N) :
  digits (printDigits n) = true ∧ printDigits n ≠ EmptyString.
Proof.
  unfold printDigits, DecimalString.NilZero.string_of_uint.
  destruct (N.to_uint n) eqn:E; simpl;
    try (split; [apply string_of_uint_digits | done]); done.
Qed.

Lemma digits_noWhite (s : string) : digits s = true → StrFacts.noWhite s = true.
Proof.
  induction s as [|c r IH]; simpl; [done|].
  intros [Hc Hr]%andb_true_iff. rewrite (IH Hr), andb_true_r.
  by destruct c as [[] [] [] [] [] [] [] []].
Qed.

Lemma parseDigits_printDigits (n : N) :
  parseDigits (printDigits n) = Some (Z.of_N n).
Proof.
  unfold parseDigits, printDigits.
  rewrite DecimalString.NilZero.usu.
  - simpl. by rewrite DecimalN.Unsigned.of_to.
  - destruct n; simpl; [done|]. apply DecimalPos.Unsigned.to_uint_nonnil.
Qed.

Lemma parseNumber_digits (s : string) :
  digits s = true → s ≠ EmptyString →
  parseNumber s = match parseDigits s with Some z => Int z | None => NaN end.
Proof.
  intros Hd Hne. unfold parseNumber.
  rewrite (StrFacts.trim_noWhite s (digits_noWhite s Hd)).
  destruct s as [|c r]; [done|]. simpl in Hd.
  apply andb_true_iff in Hd as [Hc _].
  destruct c as [[] [] [] [] [] [] [] []]; try discriminate Hc;
    unfold parseUnsigned; by rewrite bool_decide_false.
Qed.

Lemma above_max_safe (n : num) :
  ltb (Int (2 ^ 53 - 1)) n = true →
  n = Inf false ∨ ∃ z, n = Int z ∧ 2 ^ 53 - 1 < z.
Proof.
  destruct n as [|[]|z]; simpl; try done; [by left|].
  intros H%Z.ltb_lt. right. by exists z.
Qed.

Lemma printNumber_above (z : Z) :
  2 ^ 53 - 1 < z → printNumber (Int z) = printDigits (Z.to_N z).
Proof.
  intros Hz. unfold printNumber.
  destruct (Z.ltb_spec z 0); [lia | done].
Qed.

Lemma runtime_laws : JsRuntimeLaws runtime.
Proof.
  split; simpl.
  - by intros [|[]|z].
  - by intros [|[]|x] [|[]|y].
  - done.
  - intros a b _ _ E. by injection E.
  - done.
  - done.
  - done.
  - by intros [|[]|z].
  - intros n [->|(z & -> & Hz)]%above_max_safe; [done|].
    rewrite (printNumber_above z Hz).
    destruct (printDigits_digits (Z.to_N z)) as [Hd Hne]. split.
    + by apply StrFacts.trim_noWhite, digits_noWhite.
    + by destruct (printDigits (Z.to_N z)).
  - intros n [->|(z & -> & Hz)]%above_max_safe; [done|].
    rewrite (printNumber_above z Hz).
    destruct (printDigits_digits (Z.to_N z)) as [Hd Hne].
    rewrite parseNumber_digits, parseDigits_printDigits by done.
    f_equal. lia.
Qed.

End IntRuntimeFacts.


(** * Worked inputs, in the runtime of exact integers *)

Section Examples.
#[local] Existing Instance IntRuntime.runtime.
#[local] Existing Instance IntRuntimeFacts.runtime_laws.
Import IntRuntime.

Definition exampleConfig : DatabaseConfig :=
  {| cfg_name := "TestDB"; cfg_version := 1; cfg_store := "users" |}.

(** A manager whose connection is open on the single store [users]. *)
Definition exampleManager (users : gmap Id DatabaseItem) : IndexedDBManager :=
  {| dbConfig := exampleConfig;
     dbSchema := None;
     db := Some {| objectStoreNames := ["users"] |};
     indexedDB := {| host_version := 1; host_stores := {["users" := users]} |};
     emitted := [];
     opens := 1;
     transactions := [];
     commitFaults := [] |}.

Definition ann : DatabaseItem :=
  {| item_id := IdNum (Int 1);
     item_props := {["name" := VString "Ann"; "email" := VString "Ann@Test.COM"]} |}.

(** A store holding the one record [ann]. *)
Definition annStore : gmap Id DatabaseItem := <[IdNum (Int 1) := ann]> ∅.

Definition withoutId (props : gmap string JsValue) (id : JsValue) : PartialItem :=
  {| partial_id := id; partial_props := props |}.

(** An update of one field. *)
Definition ageUpdate : PartialItem :=
  withoutId {["age" := VNumber (Int 5)]} VUndefined.

(** An engine that commits the coming transaction and refuses the commit
    of the one after it. *)
Definition failingCommit (m : IndexedDBManager) : IndexedDBManager :=
  setCommitFaults [None; Some (VError "QuotaExceededError")] m.

(** Three records that carry no valid id. *)
Definition idlessBatch : list PartialItem :=
  [withoutId ∅ VUndefined; withoutId ∅ VNull; withoutId ∅ (VString " ")].

(** The records of one store of a manager. *)
Definition storeOf (storeName : string) (m : IndexedDBManager)
  : gmap Id DatabaseItem :=
  default ∅ (host_stores (indexedDB m) !! storeName).

(** The records a step added, changed or removed. *)
Definition recordsAffected (before after : gmap Id DatabaseItem) : nat :=
  size (filter (λ k, before !! k ≠ after !! k) (dom before ∪ dom after)).

(** The reading of C6 for one completed operation: as many events as
    records it added, updated or deleted. *)
Definition oneEventPerAffectedRecord (storeName : string)
    (before after : IndexedDBManager) : Prop :=
  length (emitted after) =
  (length (emitted before)
   + recordsAffected (storeOf storeName before) (storeOf storeName after))%nat.

Example normalizeId_examples :
  normalizeId (IdStr "123") = IdNum (Int 123)
  ∧ normalizeId (IdStr " 0 ") = IdNum (Int 0)
  ∧ normalizeId (IdNum (Int 123)) = IdNum (Int 123)
  ∧ normalizeId (IdStr "123abc") = IdStr "123abc"
  ∧ normalizeId (IdStr "09007199254740992") = IdStr "09007199254740992"
  ∧ normalizeId (IdNum (Int 9007199254740992)) = IdStr "9007199254740992".
Proof. repeat split; reflexivity. Qed.

Example generateNextId_examples :
  generateNextId "uuid" (Ids [IdNum (Int 1); IdNum (Int 2); IdNum (Int 3)])
  = IdNum (Int 4)
  ∧ generateNextId "uuid" (Ids []) = IdNum (Int 1)
  ∧ generateNextId "uuid"
      (Ids [IdNum (Int 5); IdNum (Int 2); IdNum (Int 8); IdNum (Int 1)])
    = IdNum (Int 9)
  ∧ generateNextId "uuid" (Ids [IdStr "item1"; IdStr "item2"]) = IdStr "uuid"
  ∧ generateNextId "uuid"
      (Items [ann; {| item_id := IdNum (Int 3); item_props := ∅ |}])
    = IdNum (Int 2).
Proof. repeat split; reflexivity. Qed.

(** C4, as stated, fails on the batch operations: on a store the
    connection lacks, [addManyToStore] does not reject, it resolves to
    [false]. *)
Lemma addManyToStore_missing_store_not_rejected :
  ¬ rejectsNaming "orders"
      (addManyToStore "uuid" "orders" [withoutId ∅ VUndefined]
                      (exampleManager ∅)).2.
Proof.
  assert ((addManyToStore "uuid" "orders" [withoutId ∅ VUndefined]
                          (exampleManager ∅)).2 = Resolved (Some false))
    as -> by reflexivity.
  intros (pre & post & H). discriminate H.
Qed.

Lemma executeTransaction_rejects_missing_store_witness :
  getAllDataFromStore "orders" (exampleManager ∅)
  = (exampleManager ∅, Rejected (storeNotFound "orders" ["users"]))
  ∧ addManyToStore "uuid" "orders" [withoutId ∅ VUndefined] (exampleManager ∅)
    = (exampleManager ∅, Resolved (Some false)).
Proof.
  assert (Hn : "orders" ∉ ["users"])
    by (intros Hx%list_elem_of_singleton; discriminate Hx).
  destruct (executeTransaction_rejects_missing_store
              "orders" (exampleManager ∅) (exampleManager ∅)
              {| objectStoreNames := ["users"] |} eq_refl Hn)
    as (_ & _ & _ & (_ & _ & _ & _ & Hall & _) & (Hadd & _)).
  split; [exact Hall | exact (Hadd "uuid" [withoutId ∅ VUndefined])].
Defined.

Lemma addManyToStore_assigns_distinct_ids_witness :
  List.NoDup (map item_id (assignIds "uuid" [ann] idlessBatch).1)
  ∧ (addManyToStore "uuid" "users" idlessBatch (exampleManager annStore)).2
    = Resolved (Some true)
  ∧ size (putAll (assignIds "uuid" (map snd (map_to_list annStore))
                    idlessBatch).1 annStore) = 4%nat.
Proof.
  assert (Hinv : ∀ item, In item idlessBatch →
                         isValidId (partial_id item) = false)
    by (intros item [<-|[<-|[<-|[]]]]; reflexivity).
  assert (Hlen : Z.of_nat (length [ann] + length idlessBatch) < 2 ^ 53)
    by (simpl; lia).
  assert (Hin : "users" ∈ ["users"])
    by (apply list_elem_of_singleton; reflexivity).
  assert (Hst : host_stores (indexedDB (exampleManager annStore))
                !! "users" = Some annStore) by reflexivity.
  assert (Hsize : Z.of_nat (size annStore + length idlessBatch) < 2 ^ 53).
  { unfold annStore. rewrite map_size_insert_None, map_size_empty by done.
    simpl. lia. }
  assert (Hkey : keyedById annStore).
  { unfold annStore. intros k x [[<- <-]|[_ H]]%lookup_insert_Some;
      [reflexivity|]. by rewrite lookup_empty in H. }
  destruct (addManyToStore_assigns_distinct_ids "uuid" idlessBatch Hinv)
    as [Hloop Hrun].
  destruct (Hrun "users" (exampleManager annStore)
              {| objectStoreNames := ["users"] |} annStore
              eq_refl Hin Hst eq_refl Hsize) as (Hres & _ & _ & _ & Hgrow).
  split; [exact (proj1 (proj2 (Hloop [ann] Hlen)))|].
  split; [exact Hres|].
  rewrite (Hgrow Hkey).
  unfold annStore. rewrite map_size_insert_None, map_size_empty by done.
  reflexivity.
Defined.

(** C6, as stated, fails on a delete of an id no record has:
    [deleteManyFromStore] completes and emits one [delete] event, and no
    record was deleted.  It fails on its last clause too: an update whose
    commit the engine refuses is rejected, the store is as it was, and
    the [update] event has been emitted. *)
Lemma deleteManyFromStore_emits_for_absent_id :
  ((deleteManyFromStore "users" [IdNum (Int 999)] (exampleManager annStore)).2
   = Resolved (Some true)
   ∧ ¬ oneEventPerAffectedRecord "users"
         (exampleManager annStore)
         (deleteManyFromStore "users" [IdNum (Int 999)]
            (exampleManager annStore)).1)
  ∧ (updateDataByIdInStore "users" (VNumber (Int 1)) ageUpdate
       (failingCommit (exampleManager annStore))).2
    = Rejected (VError "QuotaExceededError")
  ∧ storeOf "users"
      (updateDataByIdInStore "users" (VNumber (Int 1)) ageUpdate
         (failingCommit (exampleManager annStore))).1
    = annStore
  ∧ length (emitted
              (updateDataByIdInStore "users" (VNumber (Int 1)) ageUpdate
                 (failingCommit (exampleManager annStore))).1)
    = 1%nat.
Proof.
  split; [|repeat split; reflexivity].
  split; [reflexivity|].
  unfold oneEventPerAffectedRecord.
  assert (length (emitted (deleteManyFromStore "users" [IdNum (Int 999)]
                             (exampleManager annStore)).1) = 1%nat)
    as -> by reflexivity.
  assert (recordsAffected
            (storeOf "users" (exampleManager annStore))
            (storeOf "users"
               (deleteManyFromStore "users" [IdNum (Int 999)]
                  (exampleManager annStore)).1) = 0%nat)
    as -> by (vm_compute; reflexivity).
  discriminate.
Qed.

Lemma updateDataByIdInStore_null_or_merged_witness :
  ∃ merged,
    (updateDataByIdInStore "users" (VString " 1 ") ageUpdate
       (exampleManager annStore)).2
    = Resolved (Some (Some merged))
    ∧ item_id merged = IdNum (Int 1)
    ∧ item_props merged !! "age" = Some (VNumber (Int 5))
    ∧ item_props merged !! "name" = Some (VString "Ann").
Proof.
  assert (Hin : "users" ∈ ["users"])
    by (apply list_elem_of_singleton; reflexivity).
  assert (Hst : host_stores (indexedDB (exampleManager annStore))
                !! "users" = Some annStore) by reflexivity.
  pose proof (updateDataByIdInStore_null_or_merged
                "users" (VString " 1 ") (IdStr " 1 ") ageUpdate
                (exampleManager annStore)
                {| objectStoreNames := ["users"] |} annStore
                eq_refl eq_refl Hin Hst eq_refl) as H.
  cbv zeta in H.
  change (annStore !! normalizeId (IdStr " 1 ")) with (Some ann) in H.
  destruct H as (merged & Hr & Hid & Hf & _).
  exists merged. split; [exact Hr|]. split; [exact Hid|].
  split; rewrite Hf; reflexivity.
Defined.

Example updateDataByIdInStore_example :
  match (updateDataByIdInStore "users" (VString " 1 ") ageUpdate
           (exampleManager annStore)).2 with
  | Resolved (Some (Some item)) =>
      item_id item = IdNum (Int 1)
      ∧ item_props item !! "age" = Some (VNumber (Int 5))
      ∧ item_props item !! "name" = Some (VString "Ann")
  | _ => False
  end
  ∧ (updateDataByIdInStore "users" (VNumber (Int 2)) ageUpdate
       (exampleManager annStore)).2
    = Resolved (Some None).
Proof. repeat split; reflexivity. Qed.

(** C8, as stated, fails above [Number.MAX_SAFE_INTEGER]: the numeric
    string ["09007199254740992"] keeps its spelling, while its number,
    2^53, becomes ["9007199254740992"]. *)
Lemma normalizeId_numeric_string_key_differs :
  isNaN (StringToNumber "09007199254740992") = false
  ∧ normalizeId (IdStr "09007199254740992")
    ≠ normalizeId (IdNum (StringToNumber "09007199254740992")).
Proof.
  split; [reflexivity|].
  assert (normalizeId (IdStr "09007199254740992")
          = IdStr "09007199254740992") as -> by reflexivity.
  assert (normalizeId (IdNum (StringToNumber "09007199254740992"))
          = IdStr "9007199254740992") as -> by reflexivity.
  discriminate.
Qed.

Lemma normalizeId_idempotent_witness :
  normalizeId (normalizeId (IdStr " 42 ")) = normalizeId (IdStr " 42 ")
  ∧ normalizeId (IdStr " 42 ") = normalizeId (IdNum (StringToNumber "42")).
Proof.
  split.
  - exact (proj1 normalizeId_idempotent (IdStr " 42 ")).
  - exact (proj2 normalizeId_idempotent " 42 " eq_refl eq_refl eq_refl).
Defined.

(** A second record, with another address. *)
Definition ben : DatabaseItem :=
  {| item_id := IdNum (Int 2);
     item_props := {["name" := VString "Ben"; "email" := VString "ben@else.org"]} |}.

Definition twoUsers : gmap Id DatabaseItem := <[IdNum (Int 2) := ben]> annStore.

Definition emailQuery (value : string) : PartialItem :=
  {| partial_id := VUndefined; partial_props := {["email" := VString value]} |}.

Lemma searchDataInStore_string_criterion_witness :
  (searchDataInStore "users" (emailQuery "test.com") (exampleManager twoUsers)).2
  = Resolved (Some {| items := [ann]; total := 1 |})
  ∧ stringCriterionRule "test.com" (fieldText ann "email")
  ∧ ¬ stringCriterionRule "test.com" (fieldText ben "email").
Proof.
  assert (Hne : entries (emailQuery "test.com") ≠ [])
    by (unfold emailQuery; rewrite entries_single; discriminate).
  destruct (searchDataInStore_string_criterion
              "users" (emailQuery "test.com") (exampleManager twoUsers)
              _ _ eq_refl Hne)
    as (result & Hrun & Hitems & Htotal & _ & _ & Hrule & _).
  rewrite Hrun. split_and!.
  - destruct result as [found n]. simpl in *. subst n found. reflexivity.
  - apply (proj1 (Hrule ann "email" "test.com")). reflexivity.
  - intros H. apply (proj2 (Hrule ben "email" "test.com")) in H.
    assert (criterionMatches ben "email" (VString "test.com") = false) as E
      by reflexivity.
    rewrite E in H. discriminate H.
Defined.

Lemma getDataByIdFromStore_invalid_id_witness :
  getDataByIdFromStore "users" (VString "   ") (exampleManager ∅)
  = (exampleManager ∅, Resolved (Some None))
  ∧ getDataByIdFromStore "users" (VNumber NaN) (exampleManager ∅)
    = (exampleManager ∅, Resolved (Some None))
  ∧ getDataByIdFromStore "users" VObject (exampleManager ∅)
    = (exampleManager ∅, Resolved (Some None)).
Proof.
  split_and!.
  - apply getDataByIdFromStore_invalid_id, invalid_blank. reflexivity.
  - apply getDataByIdFromStore_invalid_id, invalid_not_finite. reflexivity.
  - apply getDataByIdFromStore_invalid_id, invalid_other; discriminate.
Defined.

End Examples.

(** * Further worked inputs *)

Section FurtherExamples.
#[local] Existing Instance IntRuntime.runtime.
#[local] Existing Instance IntRuntimeFacts.runtime_laws.
Import IntRuntime.

Lemma exampleManager_ready (users : gmap Id DatabaseItem) :
  Ready "users" users (exampleManager users).
Proof.
  split; [|reflexivity|reflexivity].
  exists {| objectStoreNames := ["users"] |}.
  split; [reflexivity | apply list_elem_of_singleton; reflexivity].
Qed.

(** A record for the key 2, as the caller hands it over. *)
Definition bob : PartialItem :=
  withoutId {["name" := VString "Bob"]} (VString " 2 ").

Lemma saveDataToStore_replaces_record_witness :
  (saveDataToStore "users" (Some bob) (Int 7) (exampleManager annStore)).2
  = Resolved (Some (savedRecord bob (IdNum (Int 2)))).
Proof.
  exact (proj1 (saveDataToStore_replaces_record
                  "users" annStore bob (Int 7) (exampleManager annStore)
                  (exampleManager_ready annStore) eq_refl)).
Defined.

Lemma saveDataToStore_then_getDataByIdFromStore_witness :
  (getDataByIdFromStore "users" (VString " 2 ")
     (saveDataToStore "users" (Some bob) (Int 7) (exampleManager annStore)).1).2
  = Resolved (Some (Some (savedRecord bob (IdNum (Int 2))))).
Proof.
  exact (proj1 (saveDataToStore_then_getDataByIdFromStore
                  "users" annStore bob (Int 7) (exampleManager annStore)
                  (exampleManager_ready annStore) eq_refl) eq_refl).
Defined.

Lemma deleteDataFromStore_then_getDataByIdFromStore_witness :
  (getDataByIdFromStore "users" (VString "1")
     (deleteDataFromStore "users" (VString "1") (exampleManager annStore)).1).2
  = Resolved (Some None).
Proof.
  exact (proj2 (proj2 (proj2 (deleteDataFromStore_then_getDataByIdFromStore
                         "users" annStore (VString "1") (IdStr "1")
                         (exampleManager annStore)
                         (exampleManager_ready annStore) eq_refl)))).
Defined.

Lemma clearStore_empties_witness :
  (countInStore "users" (clearStore "users" (exampleManager annStore)).1).2
  = Resolved (Some 0%nat).
Proof.
  exact (proj1 (proj2 (proj2 (clearStore_empties
                                "users" annStore (exampleManager annStore)
                                (exampleManager_ready annStore))))).
Defined.

Lemma countInStore_agrees_with_getAllDataFromStore_witness :
  ∃ allData : list DatabaseItem,
    (getAllDataFromStore "users" (exampleManager annStore)).2
    = Resolved (Some allData)
    ∧ (countInStore "users" (exampleManager annStore)).2
      = Resolved (Some (length allData)).
Proof.
  destruct (countInStore_agrees_with_getAllDataFromStore
              "users" annStore (exampleManager annStore)
              (exampleManager_ready annStore))
    as (allData & Hall & _ & _ & Hcount & _).
  exists allData. split; [exact Hall | exact Hcount].
Defined.

Lemma getManyFromStore_finds_in_order_witness :
  (getManyFromStore "users" [VString "1"; VNull; VNumber (Int 5); VNumber (Int 1)]
     (exampleManager annStore)).2
  = Resolved (Some (foundIn annStore
                      [VString "1"; VNull; VNumber (Int 5); VNumber (Int 1)])).
Proof.
  exact (proj1 (getManyFromStore_finds_in_order
                  "users" annStore
                  [VString "1"; VNull; VNumber (Int 5); VNumber (Int 1)]
                  (exampleManager annStore) (exampleManager_ready annStore))).
Defined.

Lemma updateManyInStore_all_or_nothing_witness :
  (updateManyInStore "users"
     [{| item_id := IdNum (Int 3); item_props := ∅ |};
      {| item_id := IdNum NaN; item_props := ∅ |}]
     (exampleManager annStore)).2
  = Resolved (Some false).
Proof.
  exact (proj1 (updateManyInStore_all_or_nothing
                  "users" annStore
                  [{| item_id := IdNum (Int 3); item_props := ∅ |};
                   {| item_id := IdNum NaN; item_props := ∅ |}]
                  (exampleManager annStore) (exampleManager_ready annStore))).
Defined.

Lemma deleteManyFromStore_removes_the_ids_witness :
  (deleteManyFromStore "users" [IdStr "1"; IdNum (Int 9)]
     (exampleManager annStore)).2
  = Resolved (Some true).
Proof.
  assert (Hk : ∀ id, In id [IdStr "1"; IdNum (Int 9)] →
                     validKey (normalizeId id) = true)
    by (intros id [<-|[<-|[]]]; reflexivity).
  exact (proj1 (deleteManyFromStore_removes_the_ids
                  "users" annStore [IdStr "1"; IdNum (Int 9)]
                  (exampleManager annStore) (exampleManager_ready annStore)
                  Hk)).
Defined.

Lemma reading_operations_change_nothing_witness :
  Untouched (exampleManager annStore)
            (getAllDataFromStore "orders" (exampleManager annStore)).1.
Proof.
  exact (proj1 (reading_operations_change_nothing
                  "orders" (exampleManager annStore)
                  {| objectStoreNames := ["users"] |} eq_refl)).
Defined.

Lemma update_rejects_when_absent_witness :
  (update {| item_id := IdNum (Int 5); item_props := ∅ |}
          (exampleManager annStore)).2
  = Rejected (VError "Item with id 5 not found").
Proof.
  pose proof (update_rejects_when_absent annStore
                {| item_id := IdNum (Int 5); item_props := ∅ |}
                (exampleManager annStore)
                (exampleManager_ready annStore) eq_refl) as H.
  cbv zeta in H.
  change (annStore !! _) with (@None DatabaseItem) in H.
  exact (proj1 H).
Defined.

Lemma delete_never_rejects_witness :
  delete_ (VString "  ") (exampleManager annStore)
  = (exampleManager annStore, Resolved (Some false)).
Proof.
  exact (proj1 (proj2 (delete_never_rejects (VString "  ")
                         (exampleManager annStore))) eq_refl).
Defined.

(** A manager not yet open, on an engine that holds version 1 of the
    database with the one store [users]. *)
Definition closedManager (version : nat) : IndexedDBManager :=
  {| dbConfig := {| cfg_name := "TestDB"; cfg_version := version;
                    cfg_store := "orders" |};
     dbSchema := None;
     db := None;
     indexedDB := {| host_version := 1;
                     host_stores := {["users" := annStore]} |};
     emitted := [];
     opens := 0;
     transactions := [];
     commitFaults := [] |}.

Lemma openDatabase_creates_stores_only_on_upgrade_witness :
  match openDatabase (closedManager 1) with
  | (m1, inr conn) => indexedDB m1 = indexedDB (closedManager 1)
  | (m1, inl _) => True
  end.
Proof.
  pose proof (openDatabase_creates_stores_only_on_upgrade (closedManager 1)
                eq_refl (or_intror eq_refl)) as H.
  cbv zeta in H.
  destruct (openDatabase (closedManager 1)) as [m1 [error|conn]];
    [exact I|].
  exact (proj2 (proj2 (proj2 (proj2 (proj2 (proj2 H)))))).
Defined.

Lemma generateNextId_least_unused_witness :
  ∃ k, 1 ≤ k ≤ 3
       ∧ generateNextId "uuid"
           (Items [ann; {| item_id := IdStr "3"; item_props := ∅ |}])
         = IdNum (Int k).
Proof.
  destruct (generateNextId_least_unused "uuid"
              [ann; {| item_id := IdStr "3"; item_props := ∅ |}])
    as (k & Hk & E & _); [simpl; lia|].
  exists k. split; [exact Hk | exact E].
Defined.

Lemma generateNextId_of_ids_takes_the_maximum_witness :
  generateNextId "uuid" (Ids [IdStr "a"; IdNum (Int 4)])
  = if forallb isString [IdStr "a"; IdNum (Int 4)] then IdStr "uuid"
    else IdNum (Int 1).
Proof.
  assert (Hne : [IdStr "a"; IdNum (Int 4)] ≠ []) by discriminate.
  assert (Hsome : ∃ id, In id [IdStr "a"; IdNum (Int 4)]
                        ∧ isNumericId (Number id) = false).
  { exists (IdStr "a"). split; [left; reflexivity | reflexivity]. }
  exact (proj2 (generateNextId_of_ids_takes_the_maximum "uuid" _ Hne) Hsome).
Defined.

Lemma normalizeId_of_valid_id_is_a_key_witness :
  validKey (normalizeId (IdStr " 7 ")) = true.
Proof.
  exact (proj1 (normalizeId_of_valid_id_is_a_key
                  (VString " 7 ") (IdStr " 7 ") eq_refl)).
Defined.

Lemma findMissingIds_lists_the_unused_of_the_range_witness :
  findMissingIds 5 (Ids [IdNum (Int 2); IdStr "4"])
                 (Some (IdNum (Int 1))) (Some (IdNum (Int 5)))
  = Some (map (λ j, IdNum (Int j))
              (filter (λ j, Int j ∉ map Number [IdNum (Int 2); IdStr "4"])
                      (seqZ 1 (5 - 1 + 1)))).
Proof.
  assert (Hfuel : (Z.to_nat (5 - 1 + 1) ≤ 5)%nat) by (simpl; lia).
  exact (findMissingIds_lists_the_unused_of_the_range
           _ 1 5 5 eq_refl eq_refl Hfuel).
Defined.

(** Three records, one of them with an id that is no number. *)
Definition threeRecords : list DatabaseItem :=
  [{| item_id := IdNum (Int 3); item_props := ∅ |};
   {| item_id := IdStr "x"; item_props := ∅ |};
   {| item_id := IdNum (Int 1); item_props := ∅ |}].

Lemma findMissingIds_of_records_lists_the_gaps_witness :
  findMissingIds 3 (Items threeRecords) None None
  = Some (map (λ j, IdNum (Int j))
            (filter
               (λ j, Int j ∉ map (λ item, Number (item_id item)) threeRecords)
               (seqZ 0 3))).
Proof.
  assert (Hall : ∀ item, In item threeRecords →
            isNaN (Number (item_id item)) = true
            ∨ ∃ k, 0 ≤ k ≤ 3 ∧ Number (item_id item) = Int k).
  { intros item [<-|[<-|[<-|[]]]].
    - right. exists 3. split; [lia | reflexivity].
    - left. reflexivity.
    - right. exists 1. split; [lia | reflexivity]. }
  assert (Htop : ∃ item, In item threeRecords
                         ∧ Number (item_id item) = ofZ 3).
  { eexists. split; [left; reflexivity | reflexivity]. }
  assert (Hb : 0 ≤ 3 < 2 ^ 53) by (split; [lia | reflexivity]).
  assert (Hfuel : (Z.to_nat 3 ≤ 3)%nat) by (simpl; lia).
  exact (findMissingIds_of_records_lists_the_gaps
           3 threeRecords 3 None None Hall Htop Hb Hfuel).
Defined.


Lemma search_finds_text_in_fields_witness :
  ∃ found,
    (search "AN" None (exampleManager annStore)).2 = Resolved (Some found)
    ∧ sublist found (map snd (map_to_list annStore)).
Proof.
  destruct (ready_getAllDataFromStore "users" annStore
              (exampleManager annStore) (exampleManager_ready annStore))
    as (m1 & Hall & _).
  destruct (search_finds_text_in_fields
              "AN" None (exampleManager annStore) m1 _ Hall)
    as (found & Hrun & Hsub & _).
  exists found. rewrite Hrun. split; [reflexivity | exact Hsub].
Defined.

(** One criterion, on a number. *)
Definition ageCriteria : gmap string JsValue := {["age" := VNumber (Int 5)]}.

Lemma searchDataInStore_agrees_with_filterInStore_witness :
  searchDataInStore "users" (asQuery ageCriteria) (exampleManager annStore)
  = match filterInStore "users" ageCriteria (exampleManager annStore) with
    | (m1, Resolved (Some found)) =>
        (m1, Resolved (Some {| items := found; total := length found |}))
    | (m1, Resolved None) => (m1, Rejected (VError "TypeError"))
    | (m1, Rejected reason) => (m1, Rejected reason)
    | (m1, Pending) => (m1, Pending)
    end.
Proof.
  refine (proj1 (searchDataInStore_agrees_with_filterInStore
                   "users" ageCriteria (exampleManager annStore) _)).
  intros key s H. unfold ageCriteria in H. apply lookup_singleton_Some in H.
  destruct H as [_ H]. discriminate H.
Defined.

Lemma close_then_operation_reopens_witness :
  (getAllDataFromStore "users" (close (exampleManager annStore))).2
  = (getAllDataFromStore "users" (exampleManager annStore)).2.
Proof.
  destruct (close_then_operation_reopens
              "users" annStore readonly (promised storeGetAll)
              (exampleManager annStore) (exampleManager_ready annStore)
              (or_intror eq_refl) eq_refl (le_n 1))
    as (m1 & _ & _ & _ & _ & _ & _ & H).
  exact H.
Defined.

End FurtherExamples.
